(** * Schema model, migration diff and table registry of [builder/def_table.go]

    A shallow embedding of the Go package [builder] (file [def_table.go]):
    the [Table] aggregate with its constructor [T], [WithSchema], [AddCol],
    [AddKey], the migration planner [Table.Diff] and the [Tables] registry.

    Conventions.
    - Go strings are byte strings: [string] of the Standard Library.
    - A [*Table] is a location in a store of table objects; the methods with
      a pointer receiver run in a small state-and-panic monad over that store.
    - A [*Column] or [*Key] is modelled by the record it points to (no
      function of the file writes through such a pointer); a possibly nil
      pointer is an [option].
    - A Go [map] is a [gmap].
    - The types [Column], [Key], [Columns], [Keys] and [Dialect] and their
      methods are declared in other files of the package; what
      [def_table.go] uses of them is modelled from the specification, under
      comments that say so. *)

From Stdlib Require Import String Ascii List Bool Arith Lia Decimal DecimalString.
From stdpp Require Import base option list gmap strings fin_maps sorting.
Import ListNotations.

Local Open Scope string_scope.
Local Open Scope list_scope.

(** ** Strings *)

(** [strings.ToLower] on the ASCII range: [A]..[Z] are mapped to [a]..[z],
    every other byte is kept (identifiers of schemas are ASCII). *)
Definition lower_byte (c : ascii) : ascii :=
  let n := nat_of_ascii c in
  if (65 <=? n)%nat && (n <=? 90)%nat then ascii_of_nat (n + 32) else c.

Fixpoint ToLower (s : string) : string :=
  match s with
  | EmptyString => EmptyString
  | String c r => String (lower_byte c) (ToLower r)
  end.

(** Case-insensitive equality of two names. *)
Definition EqualFold (a b : string) : bool := String.eqb (ToLower a) (ToLower b).

(** ** Schema members *)

(** A table pointer. *)
Abbreviation loc := nat (only parsing).

(** Modelled from the spec: [DeprecatedActions], the deprecation
    metadata of a column, with its rename target. *)
Record DeprecatedActions := { RenameTo : string }.

(** Modelled from the spec: [Column], with the fields [def_table.go]
    reads; [Column_DeprecatedActions] is a pointer, nil for a column that
    is not deprecated, and [Column_Table] is the back-reference to the
    owning table. *)
Record Column := {
  Column_Name : string;
  Column_FieldName : string;
  Column_DeprecatedActions : option DeprecatedActions;
  Column_Table : option loc
}.

(** Modelled from the spec: [Column.On] is not in [def_table.go]; the spec
    has the back-reference set on insertion with members not mutated in
    place, so [On] returns a copy of the column owned by [table]. *)
Definition Column_On (c : Column) (table : loc) : Column :=
  {| Column_Name := Column_Name c;
     Column_FieldName := Column_FieldName c;
     Column_DeprecatedActions := Column_DeprecatedActions c;
     Column_Table := Some table |}.

(** ** Ordered collections *)

Section OrderedCollection.
Context {A : Type} (name : A -> string).

(** Modelled from the spec: the ordered collections ([Columns], [Keys])
    are not in [def_table.go].  The spec has them name-indexed and
    insertion-ordered; this is the lookup of a member by name. *)
Definition oc_Get (l : list A) (n : string) : option A :=
  List.find (fun a => String.eqb (name a) n) l.

(** Modelled from the spec: [Add] is an upsert by name, which replaces a
    member of the same name in place and otherwise appends. *)
Fixpoint oc_Add (l : list A) (a : A) : list A :=
  match l with
  | [] => [a]
  | x :: r => if String.eqb (name x) (name a) then a :: r else x :: oc_Add r a
  end.

(** The invariant of a collection built by [oc_Add]: names are unique. *)
Definition oc_wf (l : list A) : Prop := NoDup (name <$> l).
End OrderedCollection.

Abbreviation Columns := (list Column) (only parsing).

(** Modelled from the spec: [Columns.Col]. *)
Definition Columns_Col (cols : Columns) (columnName : string) : option Column :=
  oc_Get Column_Name cols columnName.

(** Modelled from the spec: [Columns.Add]. *)
Definition Columns_Add (cols : Columns) (col : Column) : Columns :=
  oc_Add Column_Name cols col.

(** Modelled from the spec: [Columns.Expr().Query()] is not in
    [def_table.go]; it is the textual representation of a column list,
    here the column names separated by commas. *)
Fixpoint Columns_Query (cols : Columns) : string :=
  match cols with
  | [] => ""
  | [c] => Column_Name c
  | c :: r => Column_Name c ++ "," ++ Columns_Query r
  end.

(** Modelled from the spec: [Key], with a name, the columns it covers,
    the flag that tells the primary key, and the back-reference to the
    owning table. *)
Record Key := {
  Key_Name : string;
  Key_Primary : bool;
  Key_Columns : Columns;
  Key_Table : option loc
}.

(** Modelled from the spec: [Key.IsPrimary] reads the flag. *)
Definition Key_IsPrimary (key : Key) : bool := Key_Primary key.

(** Modelled from the spec: [Key.On] is not in [def_table.go]; as
    [Column.On], it returns a copy of the key owned by [table]. *)
Definition Key_On (k : Key) (table : loc) : Key :=
  {| Key_Name := Key_Name k;
     Key_Primary := Key_Primary k;
     Key_Columns := Key_Columns k;
     Key_Table := Some table |}.

Abbreviation Keys := (list Key) (only parsing).

(** Modelled from the spec: [Keys.Key]. *)
Definition Keys_Key (keys : Keys) (keyName : string) : option Key :=
  oc_Get Key_Name keys keyName.

(** Modelled from the spec: [Keys.Add]. *)
Definition Keys_Add (keys : Keys) (key : Key) : Keys :=
  oc_Add Key_Name keys key.

(** ** Tables and the store of table objects *)

(** [Table]; the field [Model], an interface value that [def_table.go]
    only stores, is left out.  The embedded collections are owned by the
    table: they are values of the record. *)
Record Table := {
  Table_Name : string;
  Table_Description : list string;
  Table_Schema : string;
  Table_ModelName : string;
  Table_Columns : Columns;
  Table_Keys : Keys
}.

Definition set_Schema (schema : string) (t : Table) : Table :=
  {| Table_Name := Table_Name t; Table_Description := Table_Description t;
     Table_Schema := schema; Table_ModelName := Table_ModelName t;
     Table_Columns := Table_Columns t; Table_Keys := Table_Keys t |}.

Definition set_Columns (cols : Columns) (t : Table) : Table :=
  {| Table_Name := Table_Name t; Table_Description := Table_Description t;
     Table_Schema := Table_Schema t; Table_ModelName := Table_ModelName t;
     Table_Columns := cols; Table_Keys := Table_Keys t |}.

Definition set_Keys (keys : Keys) (t : Table) : Table :=
  {| Table_Name := Table_Name t; Table_Description := Table_Description t;
     Table_Schema := Table_Schema t; Table_ModelName := Table_ModelName t;
     Table_Columns := Table_Columns t; Table_Keys := keys |}.

Abbreviation Store := (gmap nat Table) (only parsing).

(** The outcome of a call: a value and the store it leaves, or a panic. *)
Inductive Result (A : Type) : Type :=
| Ok (a : A) (s : Store)
| Panic (msg : string) (s : Store).
Arguments Ok {A} a s.
Arguments Panic {A} msg s.

Definition M (A : Type) : Type := Store -> Result A.

Definition ret {A} (a : A) : M A := fun s => Ok a s.

Definition bind {A B} (m : M A) (f : A -> M B) : M B :=
  fun s => match m s with
           | Ok a s' => f a s'
           | Panic msg s' => Panic msg s'
           end.

Definition panic {A} (msg : string) : M A := fun s => Panic msg s.

Declare Scope go_scope.
Delimit Scope go_scope with go.
Notation "x <- c1 ;; c2" := (bind c1 (fun x => c2))
  (at level 100, c1 at next level, right associativity) : go_scope.
Notation "c1 ;;; c2" := (bind c1 (fun _ => c2))
  (at level 100, right associativity) : go_scope.
Local Open Scope go_scope.

Definition nil_dereference : string := "invalid memory address or nil pointer dereference".

(** Read through a table pointer. *)
Definition deref (p : loc) : M Table :=
  fun s => match s !! p with
           | Some t => Ok t s
           | None => Panic nil_dereference s
           end.

(** Update in place of the object [p] points to. *)
Definition modify (p : loc) (f : Table -> Table) : M unit :=
  fun s => match s !! p with
           | Some t => Ok tt (<[p := f t]> s)
           | None => Panic nil_dereference s
           end.

(** A new object, at an address no live object has. *)
Definition alloc (t : Table) : M loc :=
  fun s => let p := fresh (dom s) in Ok p (<[p := t]> s).

(** Modelled from the spec: [Columns.Range] and [Keys.Range] are not in
    [def_table.go]; the callback is run on the members in insertion
    order, with their index, and the members visited are those present
    when the iteration starts.  [acc] holds the variables the Go closure
    captures. *)
Fixpoint Range_from {A St} (l : list A) (idx : nat) (cb : A -> nat -> St -> M St)
    (acc : St) : M St :=
  match l with
  | [] => ret acc
  | x :: r => acc' <- cb x idx acc ;; Range_from r (S idx) cb acc'
  end.

(** Modelled from the spec: [Range] starts at index [0]. *)
Definition Range {A St} (l : list A) (cb : A -> nat -> St -> M St) (acc : St)
  : M St :=
  Range_from l 0 cb acc.

(** ** The [Table] aggregate *)

(** [t.Col(name)] and [t.Key(name)]: [Table] embeds [Columns] and [Keys]. *)
Definition Table_Col (t : loc) (columnName : string) : M (option Column) :=
  tab <- deref t ;; ret (Columns_Col (Table_Columns tab) columnName).

Definition Table_Key (t : loc) (keyName : string) : M (option Key) :=
  tab <- deref t ;; ret (Keys_Key (Table_Keys tab) keyName).

(** [func (t *Table) AddCol(d *Column)] *)
Definition Table_AddCol (t : loc) (d : option Column) : M unit :=
  match d with
  | None => ret tt
  | Some d =>
      modify t (fun tab =>
        set_Columns (Columns_Add (Table_Columns tab) (Column_On d t)) tab)
  end.

(** [func (t *Table) AddKey(key *Key)] *)
Definition Table_AddKey (t : loc) (key : option Key) : M unit :=
  match key with
  | None => ret tt
  | Some key =>
      modify t (fun tab =>
        set_Keys (Keys_Add (Table_Keys tab) (Key_On key t)) tab)
  end.

(** A value of the interface [TableDefinition], by dynamic type: a
    [*Column] or a [*Key] (each possibly a nil pointer), a value of another
    implementing type, or the nil interface value. *)
Inductive TableDefinition : Type :=
| DefColumn (d : option Column)
| DefKey (d : option Key)
| DefOther
| DefNil.

Definition emptyTable (tableName : string) : Table :=
  {| Table_Name := tableName; Table_Description := []; Table_Schema := "";
     Table_ModelName := ""; Table_Columns := []; Table_Keys := [] |}.

(** [for _, tableDef := range tableDefinitions { ... }] *)
Fixpoint for_each {A} (l : list A) (body : A -> M unit) : M unit :=
  match l with
  | [] => ret tt
  | x :: r => body x ;;; for_each r body
  end.

(** [func T(tableName string, tableDefinitions ...TableDefinition) *Table] *)
Definition T (tableName : string) (tableDefinitions : list TableDefinition) : M loc :=
  t <- alloc (emptyTable tableName) ;;
  for_each tableDefinitions (fun tableDef =>
    match tableDef with
    | DefColumn d => Table_AddCol t d
    | _ => ret tt
    end) ;;;
  for_each tableDefinitions (fun tableDef =>
    match tableDef with
    | DefKey d => Table_AddKey t d
    | _ => ret tt
    end) ;;;
  ret t.

(** [func (t Table) WithSchema(schema string) *Table]: the receiver is a
    copy of the caller's table; its address [&t] is a new object. *)
Definition Table_WithSchema (t : Table) (schema : string) : M loc :=
  p <- alloc t ;;
  modify p (set_Schema schema) ;;;
  tab <- deref p ;;
  cols <- Range (Table_Columns tab)
            (fun col idx cols => ret (Columns_Add cols (Column_On col p))) [] ;;
  modify p (set_Columns cols) ;;;
  tab <- deref p ;;
  keys <- Range (Table_Keys tab)
            (fun key idx keys => ret (Keys_Add keys (Key_On key p))) [] ;;
  modify p (set_Keys keys) ;;;
  ret p.

(** ** The dialect and the migration plan *)

(** Modelled from the spec: the interface [Dialect] is not in
    [def_table.go]; these are the seven operations [Diff] calls, which
    the spec lists. *)
Class Dialect (SqlExpr : Type) : Type := {
  AddColumn : Column -> SqlExpr;
  DropColumn : Column -> SqlExpr;
  ModifyColumn : Column -> SqlExpr;
  RenameColumn : Column -> Column -> SqlExpr;
  AddIndex : Key -> SqlExpr;
  DropIndex : Key -> SqlExpr;
  PrimaryKeyName : string
}.

Definition not_declared (renameTo : string) : string :=
  "col `" ++ renameTo ++ "` is not declared".

Section Diff.
Context {SqlExpr : Type} (dialect : Dialect SqlExpr).

(** The callback of [t.Columns.Range] in [Diff]; [exprList] is the
    captured result variable. *)
Definition diffColumn (t prevTable : loc) (col : Column) (idx : nat)
    (exprList : list SqlExpr) : M (list SqlExpr) :=
  prev <- Table_Col prevTable (Column_Name col) ;;
  match prev with
  | Some _ =>
      currentCol <- Table_Col t (Column_Name col) ;;
      match currentCol with
      | Some currentCol =>
          match Column_DeprecatedActions currentCol with
          | Some actions =>
              let renameTo := RenameTo actions in
              if negb (String.eqb renameTo "") then
                prevCol <- Table_Col prevTable renameTo ;;
                let exprList :=
                  match prevCol with
                  | Some prevCol => exprList ++ [DropColumn prevCol]
                  | None => exprList
                  end in
                targetCol <- Table_Col t renameTo ;;
                match targetCol with
                | None => panic (not_declared renameTo)
                | Some targetCol =>
                    let exprList := exprList ++ [RenameColumn col targetCol] in
                    Table_AddCol prevTable (Some targetCol) ;;;
                    ret exprList
                end
              else ret (exprList ++ [DropColumn col])
          | None => ret (exprList ++ [ModifyColumn col])
          end
      | None => ret (exprList ++ [DropColumn col])
      end
  | None =>
      match Column_DeprecatedActions col with
      | None => ret (exprList ++ [AddColumn col])
      | Some _ => ret exprList
      end
  end.

(** The callback of [t.Keys.Range]; it captures [indexes] and [exprList]. *)
Definition diffKey (prevTable : loc) (key : Key) (idx : nat)
    (acc : gmap string bool * list SqlExpr) : M (gmap string bool * list SqlExpr) :=
  let '(indexes, exprList) := acc in
  let name := if Key_IsPrimary key then PrimaryKeyName else Key_Name key in
  let indexes := <[name := true]> indexes in
  prevKey <- Table_Key prevTable name ;;
  match prevKey with
  | None => ret (indexes, exprList ++ [AddIndex key])
  | Some _ =>
      prev <- deref prevTable ;;
      if negb (Key_IsPrimary key)
         && negb (String.eqb (Columns_Query (Key_Columns key))
                             (Columns_Query (Table_Columns prev)))
      then ret (indexes, (exprList ++ [DropIndex key]) ++ [AddIndex key])
      else ret (indexes, exprList)
  end.

(** The callback of [prevTable.Keys.Range]. *)
Definition diffPrevKey (indexes : gmap string bool) (key : Key) (idx : nat)
    (exprList : list SqlExpr) : M (list SqlExpr) :=
  match indexes !! ToLower (Key_Name key) with
  | Some _ => ret exprList
  | None => ret (exprList ++ [DropIndex key])
  end.

(** [func (t *Table) Diff(prevTable *Table, dialect Dialect) (exprList []SqlExpr)] *)
Definition Table_Diff (t prevTable : loc) : M (list SqlExpr) :=
  cur <- deref t ;;
  exprList <- Range (Table_Columns cur) (diffColumn t prevTable) [] ;;
  cur <- deref t ;;
  acc <- Range (Table_Keys cur) (diffKey prevTable) (∅, exprList) ;;
  let '(indexes, exprList) := acc in
  prev <- deref prevTable ;;
  Range (Table_Keys prev) (diffPrevKey indexes) exprList.
End Diff.

(** The dialect that records the calls made to it: a plan is then the
    sequence of operations requested, in order. *)
Inductive Op : Type :=
| OpAddColumn (col : Column)
| OpDropColumn (col : Column)
| OpModifyColumn (col : Column)
| OpRenameColumn (col target : Column)
| OpAddIndex (key : Key)
| OpDropIndex (key : Key).

Definition recorder (primaryKeyName : string) : Dialect Op :=
  {| AddColumn := OpAddColumn; DropColumn := OpDropColumn;
     ModifyColumn := OpModifyColumn; RenameColumn := OpRenameColumn;
     AddIndex := OpAddIndex; DropIndex := OpDropIndex;
     PrimaryKeyName := primaryKeyName |}.

(** What a dialect [d] answers to a recorded call. *)
Definition perform {SqlExpr} (d : Dialect SqlExpr) (op : Op) : SqlExpr :=
  match op with
  | OpAddColumn c => AddColumn c
  | OpDropColumn c => DropColumn c
  | OpModifyColumn c => ModifyColumn c
  | OpRenameColumn c c' => RenameColumn c c'
  | OpAddIndex k => AddIndex k
  | OpDropIndex k => DropIndex k
  end.

(** ** The [Tables] registry *)

(** [container/list]: an element has an identity and a value; a list holds
    its elements front to back and numbers the elements it creates.  The
    registry stores table pointers and only reads [Name] and [ModelName]
    through them: an element's value is modelled by the table pointed to. *)
Record Element := { Element_id : nat; Element_Value : Table }.

Record GoList := { GoList_elems : list Element; GoList_next : nat }.

Definition list_New : GoList := {| GoList_elems := []; GoList_next := 0 |}.

Definition list_PushBack (l : GoList) (v : Table) : Element * GoList :=
  let e := {| Element_id := GoList_next l; Element_Value := v |} in
  (e, {| GoList_elems := GoList_elems l ++ [e]; GoList_next := S (GoList_next l) |}).

Definition list_Remove (l : GoList) (e : Element) : GoList :=
  {| GoList_elems :=
       List.filter (fun x => negb (Nat.eqb (Element_id x) (Element_id e))) (GoList_elems l);
     GoList_next := GoList_next l |}.

(** [Tables]: the three unexported fields are assigned only by [Add], all
    at once, so they are nil together ([Tables_zero], the zero value) or
    set together. *)
Inductive Tables : Type :=
| Tables_zero
| Tables_make (l : GoList) (tables models : gmap string Element).

(** [func (cols *Tables) Remove(name string)] *)
Definition Tables_Remove (tables : Tables) (name : string) : Tables :=
  match tables with
  | Tables_zero => tables
  | Tables_make l tabs models =>
      match tabs !! name with
      | Some e => Tables_make (list_Remove l e) (delete name tabs) models
      | None => tables
      end
  end.

(** The body of the loop of [Add], for one argument. *)
Definition Tables_Add1 (tables : Tables) (tab : option Table) : Tables :=
  match tab with
  | None => tables
  | Some tab =>
      let tables :=
        match tables with
        | Tables_zero => tables
        | Tables_make _ tabs _ =>
            match tabs !! Table_Name tab with
            | Some _ => Tables_Remove tables (Table_Name tab)
            | None => tables
            end
        end in
      match tables with
      | Tables_zero => tables
      | Tables_make l tabs models =>
          let '(e, l) := list_PushBack l tab in
          let tabs := <[Table_Name tab := e]> tabs in
          if negb (String.eqb (Table_ModelName tab) "")
          then Tables_make l tabs (<[Table_ModelName tab := e]> models)
          else Tables_make l tabs models
      end
  end.

(** [func (tables *Tables) Add(tabs ...*Table)] *)
Definition Tables_Add (tables : Tables) (tabs : list (option Table)) : Tables :=
  let tables :=
    match tables with
    | Tables_zero => Tables_make list_New ∅ ∅
    | Tables_make _ _ _ => tables
    end in
  List.fold_left Tables_Add1 tabs tables.

(** [func (tables *Tables) Table(tableName string) *Table] *)
Definition Tables_Table (tables : Tables) (tableName : string) : option Table :=
  match tables with
  | Tables_zero => None
  | Tables_make _ tabs _ => Element_Value <$> tabs !! tableName
  end.

(** [func (tables *Tables) Model(structName string) *Table] *)
Definition Tables_Model (tables : Tables) (structName : string) : option Table :=
  match tables with
  | Tables_zero => None
  | Tables_make _ _ models => Element_Value <$> models !! structName
  end.

(** [func (tables *Tables) Range(cb func(tab *Table, idx int))]; [acc]
    holds what the callback captures. *)
Fixpoint Tables_Range_from {St} (l : list Element) (i : nat)
    (cb : Table -> nat -> St -> St) (acc : St) : St :=
  match l with
  | [] => acc
  | e :: r => Tables_Range_from r (S i) cb (cb (Element_Value e) i acc)
  end.

Definition Tables_Range {St} (tables : Tables) (cb : Table -> nat -> St -> St) (acc : St) : St :=
  match tables with
  | Tables_zero => acc
  | Tables_make l _ _ => Tables_Range_from (GoList_elems l) 0 cb acc
  end.

(** [func (tables *Tables) TableNames() (names []string)] *)
Definition Tables_TableNames (tables : Tables) : list string :=
  Tables_Range tables (fun tab idx names => names ++ [Table_Name tab]) [].

(** One registry operation, and a run of operations. *)
Inductive TablesOp : Type :=
| DoAdd (tabs : list (option Table))
| DoRemove (name : string).

Definition Tables_step (tables : Tables) (op : TablesOp) : Tables :=
  match op with
  | DoAdd tabs => Tables_Add tables tabs
  | DoRemove name => Tables_Remove tables name
  end.

Definition Tables_run (ops : list TablesOp) : Tables :=
  List.fold_left Tables_step ops Tables_zero.

(** ** [Diff] as a function of the two tables

    The effect of [Diff] on the store is confined to the columns of the
    previous table; what it computes is described here over the two tables
    read from the store, and related to [Table_Diff] below. *)

Section DiffOutcome.
Context {SqlExpr : Type} (dialect : Dialect SqlExpr).

(** What the column callback does for one column: it appends [ops] and
    leaves the store alone, or appends [ops] and registers [target] in
    the previous table, or panics. *)
Inductive ColumnOutcome : Type :=
| Emit (ops : list SqlExpr)
| Renamed (ops : list SqlExpr) (target : Column)
| Fail (msg : string).

Definition columnOutcome (cur prev : Columns) (col : Column) : ColumnOutcome :=
  match Columns_Col prev (Column_Name col) with
  | Some _ =>
      match Columns_Col cur (Column_Name col) with
      | Some currentCol =>
          match Column_DeprecatedActions currentCol with
          | Some actions =>
              if negb (String.eqb (RenameTo actions) "") then
                match Columns_Col cur (RenameTo actions) with
                | None => Fail (not_declared (RenameTo actions))
                | Some targetCol =>
                    Renamed
                      (match Columns_Col prev (RenameTo actions) with
                       | Some prevCol => [DropColumn prevCol]
                       | None => []
                       end ++ [RenameColumn col targetCol])
                      targetCol
                end
              else Emit [DropColumn col]
          | None => Emit [ModifyColumn col]
          end
      | None => Emit [DropColumn col]
      end
  | None =>
      match Column_DeprecatedActions col with
      | None => Emit [AddColumn col]
      | Some _ => Emit []
      end
  end.

(** The column pass over [cols], from the previous columns [prev] of the
    table at [prevTable]: the operations appended and the previous
    columns at the end, or the panic message. *)
Fixpoint columnPass (cur : Columns) (prevTable : loc) (cols : list Column)
    (prev : Columns) : string + (list SqlExpr * Columns) :=
  match cols with
  | [] => inr ([], prev)
  | col :: rest =>
      match columnOutcome cur prev col with
      | Emit ops =>
          match columnPass cur prevTable rest prev with
          | inr (ops', prev') => inr (ops ++ ops', prev')
          | inl msg => inl msg
          end
      | Renamed ops target =>
          match columnPass cur prevTable rest
                  (Columns_Add prev (Column_On target prevTable)) with
          | inr (ops', prev') => inr (ops ++ ops', prev')
          | inl msg => inl msg
          end
      | Fail msg => inl msg
      end
  end.

(** The name a current key is compared under. *)
Definition comparisonName (key : Key) : string :=
  if Key_IsPrimary key then PrimaryKeyName else Key_Name key.

(** The operations the key callback appends for one current key. *)
Definition keyOps (prev : Table) (key : Key) : list SqlExpr :=
  match Keys_Key (Table_Keys prev) (comparisonName key) with
  | None => [AddIndex key]
  | Some _ =>
      if negb (Key_IsPrimary key)
         && negb (String.eqb (Columns_Query (Key_Columns key))
                             (Columns_Query (Table_Columns prev)))
      then [DropIndex key; AddIndex key]
      else []
  end.

(** The names recorded in [indexes] by the key callback. *)
Definition visited (keys : list Key) (indexes : gmap string bool) : gmap string bool :=
  List.fold_left (fun m key => <[comparisonName key := true]> m) keys indexes.

(** The operations the last pass appends for one previous key. *)
Definition prevKeyOps (indexes : gmap string bool) (key : Key) : list SqlExpr :=
  match indexes !! ToLower (Key_Name key) with
  | Some _ => []
  | None => [DropIndex key]
  end.
End DiffOutcome.

Arguments Emit {SqlExpr} ops.
Arguments Renamed {SqlExpr} ops target.
Arguments Fail {SqlExpr} msg.

(** The columns an operation is about. *)
Definition Op_columns (op : Op) : list Column :=
  match op with
  | OpAddColumn c | OpDropColumn c | OpModifyColumn c => [c]
  | OpRenameColumn c c' => [c; c']
  | OpAddIndex _ | OpDropIndex _ => []
  end.

Definition is_index_Op (op : Op) : bool :=
  match op with
  | OpAddIndex _ | OpDropIndex _ => true
  | _ => false
  end.

(** The columns the renames of a plan register in the table at
    [prevTable]: the rename targets, owned by that table. *)
Definition renameTargets (prevTable : loc) (plan : list Op) : list Column :=
  List.flat_map
    (fun op => match op with
               | OpRenameColumn _ target => [Column_On target prevTable]
               | _ => []
               end) plan.

(** The non-nil columns, and the non-nil keys, among the members given to
    [T], in the order given. *)
Definition columnsOf (defs : list TableDefinition) : list Column :=
  List.flat_map (fun d => match d with DefColumn (Some c) => [c] | _ => [] end) defs.

Definition keysOf (defs : list TableDefinition) : list Key :=
  List.flat_map (fun d => match d with DefKey (Some k) => [k] | _ => [] end) defs.

(** An operation is about columns that have the name of a column of [cur]. *)
Definition named_in (cur : Columns) (op : Op) : Prop :=
  forall c, c ∈ Op_columns op -> Column_Name c ∈ Column_Name <$> cur.

(** The recording dialect with the primary-key name of [d], and what [d]
    answers to a recorded plan. *)
Definition recorded {SqlExpr} (d : Dialect SqlExpr) : Dialect Op :=
  recorder (@PrimaryKeyName _ d).

Definition answers {SqlExpr} (d : Dialect SqlExpr) (plan : list Op) : list SqlExpr :=
  perform d <$> plan.

(** The outcome of a call, with its value mapped. *)
Definition Result_map {A B} (f : A -> B) (r : Result A) : Result B :=
  match r with
  | Ok a s => Ok (f a) s
  | Panic msg s => Panic msg s
  end.

(** The invariant of a registry: the elements of the list have distinct
    identities, below the next one to be given, and the index by table
    name holds exactly the elements of the list, each under the name of
    its table. *)
Definition Tables_inv (l : GoList) (tabs : gmap string Element) : Prop :=
  (forall e, e ∈ GoList_elems l -> Element_id e < GoList_next l) /\
  NoDup (Element_id <$> GoList_elems l) /\
  (forall name e, tabs !! name = Some e
                  <-> e ∈ GoList_elems l /\ Table_Name (Element_Value e) = name).

Definition Tables_wf (tables : Tables) : Prop :=
  match tables with
  | Tables_zero => True
  | Tables_make l tabs _ => Tables_inv l tabs
  end.

(** Equality of members, tables and operations is decidable. *)
#[global] Instance DeprecatedActions_eq_dec : EqDecision DeprecatedActions.
Proof. solve_decision. Defined.

#[global] Instance Column_eq_dec : EqDecision Column.
Proof. solve_decision. Defined.

#[global] Instance Key_eq_dec : EqDecision Key.
Proof. solve_decision. Defined.

#[global] Instance Table_eq_dec : EqDecision Table.
Proof. solve_decision. Defined.

#[global] Instance Op_eq_dec : EqDecision Op.
Proof. solve_decision. Defined.

(** ** Sample schemas *)

Definition column (name : string) : Column :=
  {| Column_Name := name; Column_FieldName := ""; Column_DeprecatedActions := None;
     Column_Table := None |}.

(** A deprecated column; [renameTo] is empty when it is only removed. *)
Definition deprecated (name renameTo : string) : Column :=
  {| Column_Name := name; Column_FieldName := "";
     Column_DeprecatedActions := Some {| RenameTo := renameTo |};
     Column_Table := None |}.

Definition index (name : string) (cols : list string) : Key :=
  {| Key_Name := name; Key_Primary := false; Key_Columns := column <$> cols;
     Key_Table := None |}.

Definition primaryKey (name : string) (cols : list string) : Key :=
  {| Key_Name := name; Key_Primary := true; Key_Columns := column <$> cols;
     Key_Table := None |}.

(** The current and the previous table, built by [T] in an empty store:
    the current table is object [0], the previous one object [1]. *)
Definition two_tables (name : string) (current previous : list TableDefinition) : Store :=
  match (T name current ;;; T name previous) ∅ with
  | Ok _ s | Panic _ s => s
  end.

Definition plan_of {A} (r : Result A) : option A :=
  match r with
  | Ok a _ => Some a
  | Panic _ _ => None
  end.

Definition store_of {A} (r : Result A) : Store :=
  match r with
  | Ok _ s | Panic _ s => s
  end.

(** The table at [p], for a [p] that is not dangling. *)
Definition table_at (s : Store) (p : loc) : Table :=
  default (emptyTable "") (s !! p).

(** [old_name] is renamed to [new_name]. *)
Definition rename_current : list TableDefinition :=
  [DefColumn (Some (column "id"));
   DefColumn (Some (deprecated "old_name" "new_name"));
   DefColumn (Some (column "new_name"))].

Definition rename_previous : list TableDefinition :=
  [DefColumn (Some (column "id")); DefColumn (Some (column "old_name"))].

Definition rename_store : Store := two_tables "users" rename_current rename_previous.

(** The plan of the rename: no column is dropped. *)
Definition rename_plan : list Op :=
  [OpModifyColumn (Column_On (column "id") 0);
   OpRenameColumn (Column_On (deprecated "old_name" "new_name") 0)
                  (Column_On (column "new_name") 0);
   OpModifyColumn (Column_On (column "new_name") 0)].

(** The rename target [new_name] is not declared. *)
Definition undeclared_current : list TableDefinition :=
  [DefColumn (Some (column "id"));
   DefColumn (Some (deprecated "old_name" "new_name"))].

(** [legacy] is omitted from the current schema. *)
Definition omit_current : list TableDefinition :=
  [DefColumn (Some (column "id"))].

Definition omit_previous : list TableDefinition :=
  [DefColumn (Some (column "id")); DefColumn (Some (column "legacy"))].

(** Two columns and an index on the first of them. *)
Definition users_members : list TableDefinition :=
  [DefColumn (Some (column "a")); DefColumn (Some (column "b"));
   DefKey (Some (index "idx_a" ["a"]))].

Definition orders_members : list TableDefinition :=
  [DefColumn (Some (column "id")); DefColumn (Some (column "amount"));
   DefKey (Some (index "idx_amount" ["amount"]))].

(** One column and an index on it, named in upper case. *)
Definition upper_members : list TableDefinition :=
  [DefColumn (Some (column "a")); DefKey (Some (index "IDX_A" ["a"]))].

(** One column and a primary key on it, declared under the name the
    dialect gives primary keys, in upper case. *)
Definition primary_members : list TableDefinition :=
  [DefColumn (Some (column "id")); DefKey (Some (primaryKey "PRIMARY" ["id"]))].

(** The scenarios of the specification: a column added, a column dropped
    by deprecation, an index replaced by another. *)
Definition added_current : list TableDefinition :=
  [DefColumn (Some (column "id")); DefColumn (Some (column "name"));
   DefColumn (Some (column "email"))].

Definition added_previous : list TableDefinition :=
  [DefColumn (Some (column "id")); DefColumn (Some (column "name"))].

Definition dropped_current : list TableDefinition :=
  [DefColumn (Some (column "id")); DefColumn (Some (column "name"));
   DefColumn (Some (deprecated "legacy" ""))].

Definition dropped_previous : list TableDefinition :=
  [DefColumn (Some (column "id")); DefColumn (Some (column "name"));
   DefColumn (Some (column "legacy"))].

Definition indexes_current : list TableDefinition :=
  [DefColumn (Some (column "col_b"));
   DefKey (Some (primaryKey "primary" ["id"])); DefKey (Some (index "idx_b" ["col_b"]))].

Definition indexes_previous : list TableDefinition :=
  [DefColumn (Some (column "col_b"));
   DefKey (Some (primaryKey "primary" ["id"])); DefKey (Some (index "idx_a" ["col_a"]))].

Definition users_table (modelName : string) : Table :=
  {| Table_Name := "users"; Table_Description := []; Table_Schema := "";
     Table_ModelName := modelName; Table_Columns := [column "id"]; Table_Keys := [] |}.

(** ** The PostgreSQL driver: [postgresqlconnector/driver.go] *)

(** [strconv.FormatInt(int64(n), 10)] for a count [n]: its decimal
    digits. *)
Definition FormatInt (n : nat) : string :=
  NilEmpty.string_of_uint (Nat.to_uint n).

(** The body of the loop of [replaceValueHolder], on the counter [index]
    and the buffer [e]. *)
Definition replaceValueHolder_step (st : nat * string) (c : ascii) : nat * string :=
  let '(index, e) := st in
  if Ascii.eqb c "?"%char
  then (index + 1, (e ++ "$" ++ FormatInt (index + 1))%string)
  else (index, (e ++ String c "")%string).

(** [func replaceValueHolder(query string) string] *)
Definition replaceValueHolder (query : string) : string :=
  snd (List.fold_left replaceValueHolder_step (list_ascii_of_string query) (0, "")).

(** The number of bytes [c] in [s]. *)
Fixpoint countByte (c : ascii) (s : string) : nat :=
  match s with
  | EmptyString => 0
  | String x r => (if Ascii.eqb x c then 1 else 0) + countByte c r
  end.

(** The loop of [replaceValueHolder] from the counter [index], as a
    recursion on the bytes left. *)
Fixpoint replaceValueHolder_from (index : nat) (data : string) : string :=
  match data with
  | EmptyString => EmptyString
  | String c r =>
      if Ascii.eqb c "?"%char
      then ("$" ++ FormatInt (index + 1) ++ replaceValueHolder_from (index + 1) r)%string
      else String c (replaceValueHolder_from index r)
  end.

(** The tables [Range] visits, in order. *)
Definition Tables_list (tables : Tables) : list Table :=
  Tables_Range tables (fun tab idx acc => acc ++ [tab]) [].

(** The invariant of the index by model name: an entry is filed under
    the model name of its table, which is not empty. *)
Definition Tables_models_wf (tables : Tables) : Prop :=
  match tables with
  | Tables_zero => True
  | Tables_make _ _ models =>
      forall m e, models !! m = Some e ->
                  Table_ModelName (Element_Value e) = m /\ m <> ""
  end.

(** What justifies a column operation of a plan, for the current columns
    [cur] and the previous columns [prev] the diff started from. *)
Definition column_call_justified (cur prev : Columns) (op : Op) : Prop :=
  match op with
  | OpAddColumn c =>
      c ∈ cur /\ Column_DeprecatedActions c = None
      /\ Column_Name c ∉ Column_Name <$> prev
  | OpModifyColumn c => c ∈ cur /\ Column_DeprecatedActions c = None
  | OpRenameColumn c target =>
      c ∈ cur /\ target ∈ cur
      /\ exists actions, Column_DeprecatedActions c = Some actions
                         /\ RenameTo actions = Column_Name target
                         /\ RenameTo actions <> ""
  | OpDropColumn c =>
      (c ∈ cur /\ Column_DeprecatedActions c = Some {| RenameTo := "" |})
      \/ (exists col actions,
             col ∈ cur /\ Column_DeprecatedActions col = Some actions
             /\ RenameTo actions <> "" /\ Column_Name c = RenameTo actions)
  | OpAddIndex _ | OpDropIndex _ => True
  end.

(** The columns that are not deprecated. *)
Definition liveColumns (cols : Columns) : Columns :=
  List.filter (fun c => match Column_DeprecatedActions c with
                        | None => true
                        | Some _ => false
                        end) cols.

Definition fresh_store : Store := two_tables "users" added_current [].

Definition emptied_store : Store := two_tables "users" [] indexes_previous.

(** The last member of [l] with the name [n]. *)
Definition oc_last {A} (name : A -> string) (l : list A) (n : string) : option A :=
  oc_Get name (List.rev l) n.

(** ** Query fragments of a table *)

(** Modelled from the spec: [Ex], the renderable SQL fragment, and its
    constructor [Expr] are not in [def_table.go]; a fragment is a query
    text with its arguments. *)
Record Ex (Value : Type) : Type := {
  Ex_Query : string;
  Ex_Args : list Value
}.
Arguments Ex_Query {Value} _.
Arguments Ex_Args {Value} _.

Definition Expr {Value : Type} (query : string) (args : list Value) : Ex Value :=
  {| Ex_Query := query; Ex_Args := args |}.

(** [func (t *Table) IsNil() bool]: [None] is the nil pointer. *)
Definition Table_IsNil (t : option loc) : M bool :=
  match t with
  | None => ret true
  | Some p => tab <- deref p ;; ret (Nat.eqb (String.length (Table_Name tab)) 0)
  end.

(** [func (t *Table) Expr() *Ex]. *)
Definition Table_Expr {Value : Type} (t : loc) : M (Ex Value) :=
  tab <- deref t ;;
  if negb (String.eqb (Table_Schema tab) "")
  then ret (Expr (Table_Schema tab ++ "." ++ Table_Name tab)%string [])
  else ret (Expr (Table_Name tab) []).

(** The table a copy of [t] under [schema] is, at the address [p]. *)
Definition copy_at (p : loc) (schema : string) (t : Table) : Table :=
  set_Keys ((fun key => Key_On key p) <$> Table_Keys t)
    (set_Columns ((fun col => Column_On col p) <$> Table_Columns t)
       (set_Schema schema t)).

(** The name a table is known by in a schema. *)
Definition qualified (schema name : string) : string :=
  if String.eqb schema "" then name else (schema ++ "." ++ name)%string.

(** ** Templated fragments *)

(** Modelled from the spec: [Columns.F] is not in [def_table.go]; it is
    the lookup of a column by the name of the struct field it stands
    for, the first one in order. *)
Definition Columns_F (cols : Columns) (fieldName : string) : option Column :=
  List.find (fun col => String.eqb (Column_FieldName col) fieldName) cols.

(** [t.F(fieldName)]: [Table] embeds [Columns]. *)
Definition Table_F (t : loc) (fieldName : string) : M (option Column) :=
  tab <- deref t ;; ret (Columns_F (Table_Columns tab) fieldName).

(** The classes [[A-Z]] and [[A-Za-z0-9_]] of the expression. *)
Definition isUpper (c : ascii) : bool :=
  let n := nat_of_ascii c in Nat.leb 65 n && Nat.leb n 90.

Definition isWord (c : ascii) : bool :=
  let n := nat_of_ascii c in
  (Nat.leb 65 n && Nat.leb n 90) || (Nat.leb 97 n && Nat.leb n 122)
  || (Nat.leb 48 n && Nat.leb n 57) || Nat.eqb n 95.

(** The longest prefix of [s] in [[A-Za-z0-9_]]: the repetition of the
    expression is greedy. *)
Fixpoint wordPrefix (s : string) : string :=
  match s with
  | String c r => if isWord c then String c (wordPrefix r) else ""
  | EmptyString => ""
  end.

(** [fieldNamePlaceholder = regexp.MustCompile("#[A-Z][A-Za-z0-9_]+")]:
    the match of the expression that starts at the head of [s], if
    there is one. *)
Definition fieldNamePlaceholder (s : string) : option string :=
  match s with
  | String "#" (String c r) =>
      if isUpper c then
        match wordPrefix r with
        | EmptyString => None
        | w => Some (String "#" (String c w))
        end
      else None
  | _ => None
  end.

(** [fieldNamePlaceholder.ReplaceAllStringFunc(src, repl)]: the matches
    are taken from left to right and do not overlap, each is replaced
    by what [repl] returns for it, and the text between them is copied.
    [skip] is the number of bytes of the last match still to be passed
    over. *)
Fixpoint ReplaceAllStringFunc_from (repl : string -> M string) (skip : nat)
    (src : string) : M string :=
  match src with
  | EmptyString => ret EmptyString
  | String c r =>
      match skip with
      | S k => ReplaceAllStringFunc_from repl k r
      | O =>
          match fieldNamePlaceholder src with
          | Some m =>
              x <- repl m ;;
              rest <- ReplaceAllStringFunc_from repl (String.length m - 1) r ;;
              ret (x ++ rest)%string
          | None =>
              rest <- ReplaceAllStringFunc_from repl 0 r ;;
              ret (String c rest)
          end
      end
  end.

Definition ReplaceAllStringFunc (src : string) (repl : string -> M string) : M string :=
  ReplaceAllStringFunc_from repl 0 src.

(** [strings.TrimLeft(s, cutset)]. *)
Fixpoint inCutset (c : ascii) (cutset : string) : bool :=
  match cutset with
  | EmptyString => false
  | String x r => Ascii.eqb x c || inCutset c r
  end.

Fixpoint TrimLeft (s cutset : string) : string :=
  match s with
  | EmptyString => EmptyString
  | String c r => if inCutset c cutset then TrimLeft r cutset else s
  end.

(** [func (t *Table) Ex(query string, args ...interface{}) *Ex]. *)
Definition Table_Ex {Value : Type} (t : loc) (query : string) (args : list Value)
  : M (Ex Value) :=
  finalQuery <- ReplaceAllStringFunc query (fun i =>
    let fieldName := TrimLeft i "#" in
    col <- Table_F t fieldName ;;
    match col with
    | Some col => ret (Column_Name col)
    | None => ret i
    end) ;;
  ret (Expr finalQuery args).

(** Whether the expression matches somewhere in [s]. *)
Fixpoint hasPlaceholder (s : string) : bool :=
  match s with
  | EmptyString => false
  | String c r =>
      match fieldNamePlaceholder s with
      | Some _ => true
      | None => hasPlaceholder r
      end
  end.

(** What the callback of [Ex] returns for the match [i] on the table
    [tab], and the text [ReplaceAllStringFunc] builds with a callback
    that returns [f m] for every match [m]. *)
Definition columnNameFor (tab : Table) (i : string) : string :=
  match Columns_F (Table_Columns tab) (TrimLeft i "#") with
  | Some col => Column_Name col
  | None => i
  end.

Fixpoint replaced_from (f : string -> string) (skip : nat) (src : string) : string :=
  match src with
  | EmptyString => EmptyString
  | String c r =>
      match skip with
      | S k => replaced_from f k r
      | O =>
          match fieldNamePlaceholder src with
          | Some m => (f m ++ replaced_from f (String.length m - 1) r)%string
          | None => String c (replaced_from f 0 r)
          end
      end
  end.

(** A table with the fields [ID] and [Name] in the columns [f_id] and
    [f_name], for a query with placeholders. *)
Definition field_column (fieldName name : string) : Column :=
  {| Column_Name := name; Column_FieldName := fieldName;
     Column_DeprecatedActions := None; Column_Table := None |}.

Definition fields_store : Store :=
  two_tables "users"
    [DefColumn (Some (field_column "ID" "f_id")); DefColumn (Some (field_column "Name" "f_name"))]
    [].

(** ** Projections of field values *)

(** Modelled from the spec: [FieldValues], a Go map from field names to
    values, is not in [def_table.go]; it is given by its entries in the
    order [range] yields them, each key once. *)
Abbreviation FieldValues Value := (list (string * Value)) (only parsing).

(** [fieldValues[fieldName]]: the zero value for a key the map has not. *)
Definition FieldValues_at {Value : Type} (zero : Value) (fieldValues : FieldValues Value)
    (fieldName : string) : Value :=
  match List.find (fun e => String.eqb (fst e) fieldName) fieldValues with
  | Some e => snd e
  | None => zero
  end.

(** [sort.Strings]: increasing order, byte by byte. *)
Definition sort_Strings (l : list string) : list string := merge_sort String.le l.

(** A [for ... range] loop over a slice or a map; [acc] holds the
    variables the body assigns. *)
Fixpoint for_range {A St} (l : list A) (body : A -> St -> M St) (acc : St) : M St :=
  match l with
  | [] => ret acc
  | x :: r => acc' <- body x acc ;; for_range r body acc'
  end.

(** [func (t *Table) ColumnsAndValuesByFieldValues(fieldValues FieldValues)
    (columns *Columns, args []interface{})]. *)
Definition Table_ColumnsAndValuesByFieldValues {Value : Type} (zero : Value) (t : loc)
    (fieldValues : FieldValues Value) : M (Columns * list Value) :=
  fieldNames <- for_range fieldValues
                  (fun e fieldNames => ret (fieldNames ++ [fst e])) [] ;;
  let fieldNames := sort_Strings fieldNames in
  for_range fieldNames (fun fieldName '(columns, args) =>
    col <- Table_F t fieldName ;;
    match col with
    | Some col =>
        ret (Columns_Add columns col, args ++ [FieldValues_at zero fieldValues fieldName])
    | None => ret (columns, args)
    end) ([], []).

(** Modelled from the spec: [Column.ValueBy] and [Assignments] are not
    in [def_table.go]; an assignment pairs a column with the value it
    gets. *)
Definition Column_ValueBy {Value : Type} (col : Column) (value : Value) : Column * Value :=
  (col, value).

(** [func (t *Table) AssignmentsByFieldValues(fieldValues FieldValues)
    (assignments Assignments)]. *)
Definition Table_AssignmentsByFieldValues {Value : Type} (t : loc)
    (fieldValues : FieldValues Value) : M (list (Column * Value)) :=
  for_range fieldValues (fun '(fieldName, value) assignments =>
    col <- Table_F t fieldName ;;
    match col with
    | Some col => ret (assignments ++ [Column_ValueBy col value])
    | None => ret assignments
    end) [].

(** Field values for the table of [fields_store]; [Age] is no field of
    the table. *)
Definition user_values : FieldValues nat := [("Name", 11); ("Age", 30); ("ID", 7)].

(** * Properties *)

(** ** Ordered collections *)

Section OrderedCollectionFacts.
Context {A : Type} (name : A -> string).

Lemma oc_Get_Some (l : list A) (n : string) (a : A) :
  oc_Get name l n = Some a -> name a = n /\ a ∈ l.
Proof.
  unfold oc_Get. intros H. apply List.find_some in H as [Hin Heq].
  apply String.eqb_eq in Heq. split; [done | by apply list_elem_of_In].
Qed.

Lemma oc_Get_None (l : list A) (n : string) :
  oc_Get name l n = None <-> n ∉ name <$> l.
Proof.
  unfold oc_Get. induction l as [|x r IH]; simpl.
  - split; [intros _ | done]. apply not_elem_of_nil.
  - rewrite not_elem_of_cons. destruct (String.eqb (name x) n) eqn:E.
    + apply String.eqb_eq in E. split; [done | intros [? _]; congruence].
    + apply String.eqb_neq in E. rewrite IH. split; [auto | tauto].
Qed.

Lemma oc_Get_is_Some (l : list A) (n : string) :
  is_Some (oc_Get name l n) <-> n ∈ name <$> l.
Proof.
  destruct (oc_Get name l n) eqn:E.
  - split; [intros _ | eauto]. apply oc_Get_Some in E as [<- Hin].
    by apply list_elem_of_fmap_2.
  - split; [intros [? ?]; discriminate |].
    intros Hin. apply oc_Get_None in E. contradiction.
Qed.

Lemma oc_Get_Add_eq (l : list A) (a : A) :
  oc_Get name (oc_Add name l a) (name a) = Some a.
Proof.
  unfold oc_Get. induction l as [|x r IH]; simpl.
  - now rewrite String.eqb_refl.
  - destruct (String.eqb (name x) (name a)) eqn:E; simpl.
    + now rewrite String.eqb_refl.
    + now rewrite E.
Qed.

Lemma oc_Get_Add_ne (l : list A) (a : A) (n : string) :
  name a <> n -> oc_Get name (oc_Add name l a) n = oc_Get name l n.
Proof.
  intros Hne. apply String.eqb_neq in Hne.
  unfold oc_Get. induction l as [|x r IH]; simpl.
  - now rewrite Hne.
  - destruct (String.eqb (name x) (name a)) eqn:E; simpl.
    + apply String.eqb_eq in E. rewrite E, Hne. reflexivity.
    + destruct (String.eqb (name x) n); [reflexivity | apply IH].
Qed.

Lemma oc_Add_fresh (l : list A) (a : A) :
  name a ∉ name <$> l -> oc_Add name l a = l ++ [a].
Proof.
  induction l as [|x r IH]; simpl; intros Hn; [reflexivity|].
  apply not_elem_of_cons in Hn as [Hne Hn].
  destruct (String.eqb (name x) (name a)) eqn:E.
  - apply String.eqb_eq in E. congruence.
  - f_equal. by apply IH.
Qed.

Lemma oc_Add_names (l : list A) (a : A) (n : string) :
  n ∈ name <$> oc_Add name l a <-> n = name a \/ n ∈ name <$> l.
Proof.
  induction l as [|x r IH]; simpl.
  - rewrite list_elem_of_singleton. rewrite elem_of_nil. tauto.
  - destruct (String.eqb (name x) (name a)) eqn:E; simpl.
    + apply String.eqb_eq in E. rewrite !elem_of_cons, E. tauto.
    + rewrite !elem_of_cons, IH. tauto.
Qed.

Lemma oc_Add_elem (l : list A) (a x : A) :
  x ∈ oc_Add name l a -> x = a \/ x ∈ l.
Proof.
  induction l as [|y r IH]; simpl.
  - rewrite list_elem_of_singleton. tauto.
  - destruct (String.eqb (name y) (name a)); rewrite !elem_of_cons; tauto.
Qed.

Lemma oc_Add_wf (l : list A) (a : A) :
  oc_wf name l -> oc_wf name (oc_Add name l a).
Proof.
  unfold oc_wf. induction l as [|x r IH]; simpl; intros Hnd.
  - apply NoDup_singleton.
  - apply NoDup_cons in Hnd as [Hx Hr].
    destruct (String.eqb (name x) (name a)) eqn:E; simpl.
    + apply String.eqb_eq in E. rewrite <- E. by apply NoDup_cons.
    + apply String.eqb_neq in E. apply NoDup_cons. split; [| by apply IH].
      rewrite oc_Add_names. intros [?|?]; [congruence | contradiction].
Qed.

Lemma oc_Get_elem (l : list A) (a : A) :
  oc_wf name l -> a ∈ l -> oc_Get name l (name a) = Some a.
Proof.
  unfold oc_wf, oc_Get. induction l as [|x r IH]; simpl; intros Hnd Hin.
  - by apply elem_of_nil in Hin.
  - apply NoDup_cons in Hnd as [Hx Hr].
    apply elem_of_cons in Hin as [->|Hin].
    + now rewrite String.eqb_refl.
    + destruct (String.eqb (name x) (name a)) eqn:E.
      * apply String.eqb_eq in E. exfalso. apply Hx. rewrite E.
        by apply list_elem_of_fmap_2.
      * by apply IH.
Qed.

(** Re-adding the members of a well-formed collection, one by one and
    each through [f] (which keeps names), rebuilds it member by member. *)
Lemma oc_rebuild (f : A -> A) (l acc : list A) :
  (forall a, name (f a) = name a) ->
  NoDup ((name <$> acc) ++ (name <$> l)) ->
  List.fold_left (fun c a => oc_Add name c (f a)) l acc = acc ++ (f <$> l).
Proof.
  intros Hf. revert acc. induction l as [|x r IH]; simpl; intros acc Hwf.
  - now rewrite List.app_nil_r.
  - apply NoDup_app in Hwf as (Hacc & Hdisj & Hl).
    apply NoDup_cons in Hl as [Hx Hr].
    rewrite oc_Add_fresh.
    + rewrite IH.
      * now rewrite <- List.app_assoc.
      * rewrite fmap_app. simpl. rewrite Hf. rewrite <- List.app_assoc. simpl.
        apply NoDup_app. split; [done|]. split; [| by apply NoDup_cons].
        intros y Hy. apply Hdisj in Hy. done.
    + rewrite Hf. intros Hin. apply (Hdisj _ Hin). apply elem_of_cons. by left.
Qed.
End OrderedCollectionFacts.

(** ** [Diff] and the store *)

Lemma set_Columns_same (t : Table) : set_Columns (Table_Columns t) t = t.
Proof. by destruct t. Qed.

Lemma set_Columns_twice (c c' : Columns) (t : Table) :
  set_Columns c' (set_Columns c t) = set_Columns c' t.
Proof. reflexivity. Qed.

Lemma bind_Ok {A B} (m : M A) (f : A -> M B) (s s' : Store) (a : A) :
  m s = Ok a s' -> bind m f s = f a s'.
Proof. unfold bind. by intros ->. Qed.

Lemma bind_Panic {A B} (m : M A) (f : A -> M B) (s s' : Store) (msg : string) :
  m s = Panic msg s' -> bind m f s = Panic msg s'.
Proof. unfold bind. by intros ->. Qed.

Lemma deref_run (s : Store) (p : loc) (tab : Table) :
  s !! p = Some tab -> deref p s = Ok tab s.
Proof. unfold deref. by intros ->. Qed.

Lemma Table_Col_run (s : Store) (p : loc) (tab : Table) (n : string) :
  s !! p = Some tab -> Table_Col p n s = Ok (Columns_Col (Table_Columns tab) n) s.
Proof. unfold Table_Col, bind, deref, ret. by intros ->. Qed.

Lemma Table_Key_run (s : Store) (p : loc) (tab : Table) (n : string) :
  s !! p = Some tab -> Table_Key p n s = Ok (Keys_Key (Table_Keys tab) n) s.
Proof. unfold Table_Key, bind, deref, ret. by intros ->. Qed.

Section DiffRun.
Context {SqlExpr : Type} (dialect : Dialect SqlExpr).
Context (s : Store) (t prevTable : loc) (cur : Table).
Hypothesis Hcur : s !! t = Some cur.
Hypothesis Hne : t ≠ prevTable.

(** One call of the column callback. *)
Lemma diffColumn_run (prev : Table) (col : Column) (idx : nat) (exprList : list SqlExpr) :
  let s0 : Store := <[prevTable := prev]> s in
  diffColumn dialect t prevTable col idx exprList s0 =
  match columnOutcome dialect (Table_Columns cur) (Table_Columns prev) col with
  | Emit ops => Ok (exprList ++ ops) s0
  | Renamed ops target =>
      Ok (exprList ++ ops)
         (<[prevTable :=
              set_Columns (Columns_Add (Table_Columns prev) (Column_On target prevTable)) prev]> s)
  | Fail msg => Panic msg s0
  end.
Proof.
  intros s0.
  assert (H0p : s0 !! prevTable = Some prev) by apply lookup_insert_eq.
  assert (H0t : s0 !! t = Some cur) by (unfold s0; by rewrite lookup_insert_ne).
  unfold diffColumn, columnOutcome.
  rewrite (bind_Ok _ _ _ _ _ (Table_Col_run _ _ _ _ H0p)).
  destruct (Columns_Col (Table_Columns prev) (Column_Name col)) as [pc|].
  - rewrite (bind_Ok _ _ _ _ _ (Table_Col_run _ _ _ _ H0t)).
    destruct (Columns_Col (Table_Columns cur) (Column_Name col)) as [cc|];
      [| reflexivity].
    destruct (Column_DeprecatedActions cc) as [a|]; [| reflexivity].
    destruct (negb (String.eqb (RenameTo a) "")); [| reflexivity].
    rewrite (bind_Ok _ _ _ _ _ (Table_Col_run _ _ _ _ H0p)).
    rewrite (bind_Ok _ _ _ _ _ (Table_Col_run _ _ _ _ H0t)).
    destruct (Columns_Col (Table_Columns cur) (RenameTo a)) as [tc|]; [| reflexivity].
    unfold bind, Table_AddCol, modify, ret. rewrite H0p.
    unfold s0. rewrite insert_insert_eq.
    destruct (Columns_Col (Table_Columns prev) (RenameTo a)); simpl;
      by rewrite <- ?List.app_assoc.
  - destruct (Column_DeprecatedActions col); [| reflexivity].
    unfold ret. by rewrite List.app_nil_r.
Qed.

(** The column pass. *)
Lemma columnPass_run (cols : list Column) (prev : Table) (idx : nat) (exprList : list SqlExpr) :
  match columnPass dialect (Table_Columns cur) prevTable cols (Table_Columns prev) with
  | inr (ops, prev') =>
      Range_from cols idx (diffColumn dialect t prevTable) exprList (<[prevTable := prev]> s)
      = Ok (exprList ++ ops) (<[prevTable := set_Columns prev' prev]> s)
  | inl msg =>
      exists s', Range_from cols idx (diffColumn dialect t prevTable) exprList
                   (<[prevTable := prev]> s) = Panic msg s'
  end.
Proof.
  revert prev idx exprList.
  induction cols as [|col rest IH]; intros prev idx exprList; simpl.
  - unfold ret. rewrite List.app_nil_r. by rewrite set_Columns_same.
  - unfold bind. rewrite diffColumn_run.
    destruct (columnOutcome dialect (Table_Columns cur) (Table_Columns prev) col)
      as [ops|ops target|msg].
    + specialize (IH prev (S idx) (exprList ++ ops)).
      destruct (columnPass dialect (Table_Columns cur) prevTable rest (Table_Columns prev))
        as [msg|[ops' prev']].
      * exact IH.
      * rewrite IH. by rewrite List.app_assoc.
    + specialize (IH (set_Columns (Columns_Add (Table_Columns prev)
                                     (Column_On target prevTable)) prev)
                     (S idx) (exprList ++ ops)).
      simpl in IH.
      destruct (columnPass dialect (Table_Columns cur) prevTable rest
                  (Columns_Add (Table_Columns prev) (Column_On target prevTable)))
        as [msg|[ops' prev']].
      * exact IH.
      * rewrite IH. by rewrite List.app_assoc.
    + eauto.
Qed.

(** The key pass and the pass over the previous keys leave the store as
    it is. *)
Lemma diffKey_run (s0 : Store) (prev : Table) (keys : list Key) (idx : nat)
    (indexes : gmap string bool) (exprList : list SqlExpr) :
  s0 !! prevTable = Some prev ->
  Range_from keys idx (diffKey dialect prevTable) (indexes, exprList) s0
  = Ok (visited dialect keys indexes,
        exprList ++ List.flat_map (keyOps dialect prev) keys) s0.
Proof.
  intros Hp. revert idx indexes exprList.
  induction keys as [|key rest IH]; intros idx indexes exprList; simpl.
  - by rewrite List.app_nil_r.
  - unfold bind at 1. unfold diffKey at 1.
    unfold Table_Key, bind, ret, deref. rewrite Hp.
    unfold keyOps, comparisonName.
    destruct (Keys_Key (Table_Keys prev)
                (if Key_IsPrimary key then PrimaryKeyName else Key_Name key)).
    + rewrite Hp.
      destruct (negb (Key_IsPrimary key) &&
                negb (String.eqb (Columns_Query (Key_Columns key))
                        (Columns_Query (Table_Columns prev)))).
      * rewrite IH. simpl. by rewrite <- !List.app_assoc.
      * rewrite IH. reflexivity.
    + rewrite IH. simpl. by rewrite <- !List.app_assoc.
Qed.

Lemma diffPrevKey_run (s0 : Store) (keys : list Key) (idx : nat)
    (indexes : gmap string bool) (exprList : list SqlExpr) :
  Range_from keys idx (diffPrevKey dialect indexes) exprList s0
  = Ok (exprList ++ List.flat_map (prevKeyOps dialect indexes) keys) s0.
Proof.
  revert idx exprList.
  induction keys as [|key rest IH]; intros idx exprList; simpl.
  - by rewrite List.app_nil_r.
  - unfold bind, diffPrevKey, prevKeyOps, ret.
    destruct (indexes !! ToLower (Key_Name key)).
    + apply IH.
    + rewrite IH. by rewrite <- List.app_assoc.
Qed.

(** [Diff] on two distinct table objects: the plan is the operations of
    the column pass, then those of the key pass, then the drops of the
    previous keys not visited; the only object written is the previous
    table, and only its columns. *)
Lemma Table_Diff_run (prev : Table) :
  s !! prevTable = Some prev ->
  match columnPass dialect (Table_Columns cur) prevTable (Table_Columns cur)
          (Table_Columns prev) with
  | inr (ops, prev') =>
      Table_Diff dialect t prevTable s
      = Ok (ops
            ++ List.flat_map (keyOps dialect (set_Columns prev' prev)) (Table_Keys cur)
            ++ List.flat_map (prevKeyOps dialect (visited dialect (Table_Keys cur) ∅))
                 (Table_Keys prev))
           (<[prevTable := set_Columns prev' prev]> s)
  | inl msg => exists s', Table_Diff dialect t prevTable s = Panic msg s'
  end.
Proof.
  intros Hp.
  assert (Hs : s = <[prevTable := prev]> s) by (by rewrite insert_id).
  pose proof (columnPass_run (Table_Columns cur) prev 0 []) as Hcols.
  rewrite <- Hs in Hcols.
  unfold Table_Diff, Range. rewrite (bind_Ok _ _ _ _ _ (deref_run _ _ _ Hcur)).
  destruct (columnPass dialect (Table_Columns cur) prevTable (Table_Columns cur)
              (Table_Columns prev)) as [msg|[ops prev']].
  - destruct Hcols as [s' Hcols]. exists s'. by apply bind_Panic.
  - rewrite (bind_Ok _ _ _ _ _ Hcols). simpl.
    set (s1 := <[prevTable := set_Columns prev' prev]> s).
    assert (H1t : s1 !! t = Some cur) by (unfold s1; by rewrite lookup_insert_ne).
    assert (H1p : s1 !! prevTable = Some (set_Columns prev' prev))
      by apply lookup_insert_eq.
    rewrite (bind_Ok _ _ _ _ _ (deref_run _ _ _ H1t)).
    rewrite (bind_Ok _ _ _ _ _ (diffKey_run _ _ _ _ _ _ H1p)).
    rewrite (bind_Ok _ _ _ _ _ (deref_run _ _ _ H1p)).
    rewrite diffPrevKey_run. simpl. by rewrite <- List.app_assoc.
Qed.
End DiffRun.

(** ** Any dialect against the recording one *)

Lemma Range_from_map {A St St'} (f : St -> St') (l : list A)
    (cb : A -> nat -> St -> M St) (cb' : A -> nat -> St' -> M St') :
  (forall x idx acc s, cb' x idx (f acc) s = Result_map f (cb x idx acc s)) ->
  forall idx acc s,
    Range_from l idx cb' (f acc) s = Result_map f (Range_from l idx cb acc s).
Proof.
  intros Hcb. induction l as [|x r IH]; intros idx acc s; simpl; [done|].
  unfold bind. rewrite Hcb. destruct (cb x idx acc s) as [acc' s'|msg s']; simpl; [| done].
  apply IH.
Qed.

Lemma bind_Result_map {A A' B B'} (m : M A) (m' : M A') (k : A -> M B) (k' : A' -> M B')
    (g : A -> A') (h : B -> B') (s : Store) :
  m' s = Result_map g (m s) ->
  (forall a s1, k' (g a) s1 = Result_map h (k a s1)) ->
  bind m' k' s = Result_map h (bind m k s).
Proof.
  intros Hm Hk. unfold bind. rewrite Hm.
  destruct (m s) as [a s1|msg s1]; simpl; [apply Hk | done].
Qed.

Section Recorded.
Context {SqlExpr : Type} (dialect : Dialect SqlExpr).

Lemma diffColumn_recorded (t prevTable : loc) (col : Column) (idx : nat)
    (plan : list Op) (s : Store) :
  diffColumn dialect t prevTable col idx (answers dialect plan) s
  = Result_map (answers dialect) (diffColumn (recorded dialect) t prevTable col idx plan s).
Proof.
  unfold diffColumn, Table_Col, Table_AddCol, bind, deref, ret, modify, panic, answers.
  destruct (s !! prevTable) as [prev|]; simpl; [| done].
  destruct (Columns_Col (Table_Columns prev) (Column_Name col)).
  - destruct (s !! t) as [cur|]; simpl; [| done].
    destruct (Columns_Col (Table_Columns cur) (Column_Name col)) as [cc|]; simpl;
      [| by rewrite fmap_app].
    destruct (Column_DeprecatedActions cc) as [a|]; simpl; [| by rewrite fmap_app].
    destruct (negb (String.eqb (RenameTo a) "")); simpl; [| by rewrite fmap_app].
    destruct (s !! prevTable) as [prev2|]; simpl; [| done].
    destruct (s !! t) as [cur2|]; simpl; [| done].
    destruct (Columns_Col (Table_Columns cur2) (RenameTo a)); simpl; [| done].
    destruct (s !! prevTable); simpl; [| done].
    destruct (Columns_Col (Table_Columns prev2) (RenameTo a)); simpl;
      by rewrite !fmap_app.
  - destruct (Column_DeprecatedActions col); simpl; [done | by rewrite fmap_app].
Qed.

Lemma diffKey_recorded (prevTable : loc) (key : Key) (idx : nat)
    (acc : gmap string bool * list Op) (s : Store) :
  diffKey dialect prevTable key idx (acc.1, answers dialect acc.2) s
  = Result_map (fun a => (a.1, answers dialect a.2))
      (diffKey (recorded dialect) prevTable key idx acc s).
Proof.
  destruct acc as [indexes plan].
  unfold diffKey, Table_Key, bind, deref, ret, answers. simpl.
  destruct (s !! prevTable) as [prev|] eqn:E; simpl; [| done].
  destruct (Keys_Key (Table_Keys prev) _); simpl; [| by rewrite fmap_app].
  rewrite E.
  destruct (negb (Key_IsPrimary key) && _); simpl; [by rewrite !fmap_app | done].
Qed.

Lemma diffPrevKey_recorded (indexes : gmap string bool) (key : Key) (idx : nat)
    (plan : list Op) (s : Store) :
  diffPrevKey dialect indexes key idx (answers dialect plan) s
  = Result_map (answers dialect) (diffPrevKey (recorded dialect) indexes key idx plan s).
Proof.
  unfold diffPrevKey, ret, answers.
  destruct (indexes !! _); simpl; [done | by rewrite fmap_app].
Qed.

(** The plan a dialect gets from [Diff] is what it answers, call by call,
    to the plan recorded under its primary-key name; the store is left
    the same. *)
Lemma Table_Diff_recorded (t prevTable : loc) (s : Store) :
  Table_Diff dialect t prevTable s
  = Result_map (answers dialect) (Table_Diff (recorded dialect) t prevTable s).
Proof.
  unfold Table_Diff, Range.
  apply (bind_Result_map _ _ _ _ id); [by destruct (deref t s)|].
  intros cur s0. unfold id.
  apply (bind_Result_map _ _ _ _ (answers dialect)).
  { apply (Range_from_map (answers dialect) _ _ _
             (fun x i a s1 => diffColumn_recorded t prevTable x i a s1) 0 []). }
  intros plan s1.
  apply (bind_Result_map _ _ _ _ id); [by destruct (deref t s1)|].
  intros cur1 s2. unfold id.
  apply (bind_Result_map _ _ _ _
           (fun a : gmap string bool * list Op => (a.1, answers dialect a.2))).
  { apply (Range_from_map
             (fun a : gmap string bool * list Op => (a.1, answers dialect a.2)) _ _ _
             (fun x i a s3 => diffKey_recorded prevTable x i a s3) 0 (∅, plan)). }
  intros [indexes plan2] s3. simpl.
  apply (bind_Result_map _ _ _ _ id); [by destruct (deref prevTable s3)|].
  intros prev s4. unfold id.
  apply (Range_from_map (answers dialect) _ _ _
           (fun x i a s5 => diffPrevKey_recorded indexes x i a s5)).
Qed.
End Recorded.

Lemma Result_map_Ok {A B} (f : A -> B) (r : Result A) (b : B) (s : Store) :
  Result_map f r = Ok b s -> exists a, r = Ok a s /\ b = f a.
Proof. destruct r as [a s0|msg s0]; simpl; [| done]. intros [= <- <-]. eauto. Qed.

(** A plan returned to a dialect comes from a plan of recorded calls. *)
Lemma Table_Diff_calls {SqlExpr : Type} (dialect : Dialect SqlExpr)
    (t prevTable : loc) (s s' : Store) (plan : list SqlExpr) :
  Table_Diff dialect t prevTable s = Ok plan s' ->
  exists calls,
    Table_Diff (recorded dialect) t prevTable s = Ok calls s' /\
    plan = answers dialect calls.
Proof. rewrite Table_Diff_recorded. apply Result_map_Ok. Qed.

(** ** The scenarios of the specification *)

(** A column of the current table that the previous one lacks is added;
    the others are modified. *)
Example Diff_adds_column :
  plan_of (Table_Diff (recorder "primary") 0 1 (two_tables "users" added_current added_previous))
  = Some [OpModifyColumn (Column_On (column "id") 0);
          OpModifyColumn (Column_On (column "name") 0);
          OpAddColumn (Column_On (column "email") 0)].
Proof. vm_compute. reflexivity. Qed.

(** A column deprecated without a rename target is dropped. *)
Example Diff_drops_deprecated :
  plan_of (Table_Diff (recorder "primary") 0 1
             (two_tables "users" dropped_current dropped_previous))
  = Some [OpModifyColumn (Column_On (column "id") 0);
          OpModifyColumn (Column_On (column "name") 0);
          OpDropColumn (Column_On (deprecated "legacy" "") 0)].
Proof. vm_compute. reflexivity. Qed.

(** An index of the current table only is added, one of the previous
    table only is dropped, and the primary key, matched under the name
    of the dialect, yields nothing. *)
Example Diff_replaces_index :
  plan_of (Table_Diff (recorder "primary") 0 1
             (two_tables "users" indexes_current indexes_previous))
  = Some [OpModifyColumn (Column_On (column "col_b") 0);
          OpAddIndex (Key_On (index "idx_b" ["col_b"]) 0);
          OpDropIndex (Key_On (index "idx_a" ["col_a"]) 1)].
Proof. vm_compute. reflexivity. Qed.

(** ** The columns a plan is about *)

Lemma named_in_col (cur : Columns) (col : Column) (f : Column -> Op) :
  col ∈ cur -> Op_columns (f col) = [col] -> named_in cur (f col).
Proof.
  intros Hin Hf c Hc. rewrite Hf in Hc. apply list_elem_of_singleton in Hc as ->.
  by apply list_elem_of_fmap_2.
Qed.

Lemma columnOutcome_named (pk : string) (cur prev : Columns) (col : Column) :
  col ∈ cur ->
  match columnOutcome (recorder pk) cur prev col with
  | Emit ops | Renamed ops _ => Forall (named_in cur) ops
  | Fail _ => True
  end.
Proof.
  intros Hin. unfold columnOutcome.
  destruct (Columns_Col prev (Column_Name col)) as [pc|].
  - destruct (Columns_Col cur (Column_Name col)) as [cc|].
    + destruct (Column_DeprecatedActions cc) as [a|].
      * destruct (negb (String.eqb (RenameTo a) "")).
        -- destruct (Columns_Col cur (RenameTo a)) as [tc|] eqn:Ht; [| done].
           apply oc_Get_Some in Ht as [Htn Htin].
           apply Forall_app. split.
           ++ destruct (Columns_Col prev (RenameTo a)) as [p|] eqn:Hp; [| constructor].
              apply oc_Get_Some in Hp as [Hpn _].
              constructor; [| constructor].
              intros c Hc. simpl in Hc. apply list_elem_of_singleton in Hc as ->.
              rewrite Hpn, <- Htn. by apply list_elem_of_fmap_2.
           ++ constructor; [| constructor].
              intros c Hc. simpl in Hc.
              apply elem_of_cons in Hc as [->|Hc]; [by apply list_elem_of_fmap_2|].
              apply list_elem_of_singleton in Hc as ->. by apply list_elem_of_fmap_2.
        -- constructor; [| constructor]. by apply (named_in_col cur col OpDropColumn).
      * constructor; [| constructor]. by apply (named_in_col cur col OpModifyColumn).
    + constructor; [| constructor]. by apply (named_in_col cur col OpDropColumn).
  - destruct (Column_DeprecatedActions col); constructor; [| constructor].
    by apply (named_in_col cur col OpAddColumn).
Qed.

Lemma columnPass_named (pk : string) (cur : Columns) (prevTable : loc)
    (cols prev prev' : Columns) (ops : list Op) :
  (forall c, c ∈ cols -> c ∈ cur) ->
  columnPass (recorder pk) cur prevTable cols prev = inr (ops, prev') ->
  Forall (named_in cur) ops.
Proof.
  revert prev ops. induction cols as [|col rest IH]; intros prev ops Hsub; simpl.
  - intros [= <- _]. constructor.
  - assert (Hcol : col ∈ cur) by (apply Hsub; apply elem_of_cons; by left).
    assert (Hrest : forall c, c ∈ rest -> c ∈ cur)
      by (intros c Hc; apply Hsub; apply elem_of_cons; by right).
    pose proof (columnOutcome_named pk cur prev col Hcol) as Hout.
    destruct (columnOutcome (recorder pk) cur prev col) as [o|o target|msg]; [| | done].
    + destruct (columnPass (recorder pk) cur prevTable rest prev)
        as [msg|[ops' p']] eqn:E; [done|].
      intros [= <- ->]. apply Forall_app. split; [done|]. by eapply IH.
    + destruct (columnPass (recorder pk) cur prevTable rest
                  (Columns_Add prev (Column_On target prevTable)))
        as [msg|[ops' p']] eqn:E; [done|].
      intros [= <- ->]. apply Forall_app. split; [done|]. by eapply IH.
Qed.

Lemma keyOps_named (pk : string) (cur : Columns) (prev : Table) (keys : list Key) :
  Forall (named_in cur) (List.flat_map (keyOps (recorder pk) prev) keys).
Proof.
  induction keys as [|k r IH]; simpl; [constructor|].
  apply Forall_app. split; [| done].
  unfold keyOps. destruct (Keys_Key _ _).
  - destruct (_ && _); repeat constructor; intros c Hc; by apply elem_of_nil in Hc.
  - repeat constructor; intros c Hc; by apply elem_of_nil in Hc.
Qed.

Lemma prevKeyOps_named (pk : string) (cur : Columns) (m : gmap string bool) (keys : list Key) :
  Forall (named_in cur) (List.flat_map (prevKeyOps (recorder pk) m) keys).
Proof.
  induction keys as [|k r IH]; simpl; [constructor|].
  apply Forall_app. split; [| done].
  unfold prevKeyOps. destruct (m !! _); repeat constructor.
  intros c Hc; by apply elem_of_nil in Hc.
Qed.

Lemma recorded_plan_named (pk : string) (s s' : Store) (t prevTable : loc)
    (cur prev : Table) (calls : list Op) :
  s !! t = Some cur ->
  s !! prevTable = Some prev ->
  t ≠ prevTable ->
  Table_Diff (recorder pk) t prevTable s = Ok calls s' ->
  Forall (named_in (Table_Columns cur)) calls.
Proof.
  intros Hcur Hprev Hne Hrun.
  pose proof (Table_Diff_run (recorder pk) s t prevTable cur Hcur Hne prev Hprev) as H.
  destruct (columnPass (recorder pk) (Table_Columns cur) prevTable (Table_Columns cur)
              (Table_Columns prev)) as [msg|[ops prev']] eqn:E.
  - destruct H as [s'' H]. congruence.
  - rewrite H in Hrun. injection Hrun as <- _.
    apply Forall_app. split; [by eapply columnPass_named|].
    apply Forall_app. split; [apply keyOps_named | apply prevKeyOps_named].
Qed.

(** C7: a column of the previous table whose name no current column has
    is the subject of no operation of the plan [Diff] returns: the
    dialect is asked for no operation about it; in particular it is
    never dropped. *)
Theorem C7_absent_column_untouched {SqlExpr : Type} (dialect : Dialect SqlExpr)
    (s s' : Store) (t prevTable : loc) (cur prev : Table)
    (plan : list SqlExpr) (c : Column) :
  s !! t = Some cur ->
  s !! prevTable = Some prev ->
  t ≠ prevTable ->
  Table_Diff dialect t prevTable s = Ok plan s' ->
  c ∈ Table_Columns prev ->
  Column_Name c ∉ Column_Name <$> Table_Columns cur ->
  exists calls : list Op,
    Table_Diff (recorded dialect) t prevTable s = Ok calls s' /\
    plan = answers dialect calls /\
    (forall op, op ∈ calls -> c ∉ Op_columns op) /\
    OpDropColumn c ∉ calls.
Proof.
  intros Hcur Hprev Hne Hrun Hc Habsent.
  destruct (Table_Diff_calls dialect t prevTable s s' plan Hrun) as (calls & Hcalls & ->).
  exists calls. split; [done|]. split; [done|].
  pose proof (recorded_plan_named _ s s' t prevTable cur prev calls Hcur Hprev Hne Hcalls)
    as Hall.
  rewrite Forall_forall in Hall.
  assert (Hops : forall op, op ∈ calls -> c ∉ Op_columns op).
  { intros op Hop Hin. apply Habsent. by apply (Hall op Hop c). }
  split; [done|].
  intros Hdrop. apply (Hops _ Hdrop). simpl. by apply list_elem_of_singleton.
Qed.

Lemma C7_witness :
  exists calls : list Op,
    Table_Diff (recorded (recorder "primary")) 0 1
      (two_tables "users" omit_current omit_previous)
    = Ok calls (two_tables "users" omit_current omit_previous) /\
    [OpModifyColumn (Column_On (column "id") 0)] = answers (recorder "primary") calls /\
    (forall op, op ∈ calls -> Column_On (column "legacy") 1 ∉ Op_columns op) /\
    OpDropColumn (Column_On (column "legacy") 1) ∉ calls.
Proof.
  apply (C7_absent_column_untouched (recorder "primary")
           (two_tables "users" omit_current omit_previous)
           (two_tables "users" omit_current omit_previous) 0 1
           (table_at (two_tables "users" omit_current omit_previous) 0)
           (table_at (two_tables "users" omit_current omit_previous) 1)).
  - vm_compute. reflexivity.
  - vm_compute. reflexivity.
  - lia.
  - vm_compute. reflexivity.
  - compute_done.
  - compute_done.
Defined.

(** ** The undeclared rename target *)

Section Undeclared.
Context {SqlExpr : Type} (dialect : Dialect SqlExpr).
Context (cur : Columns) (col : Column) (actions : DeprecatedActions).
Hypothesis Hwf : oc_wf Column_Name cur.
Hypothesis Hcol : col ∈ cur.
Hypothesis Hactions : Column_DeprecatedActions col = Some actions.
Hypothesis Hrename : RenameTo actions ≠ "".
Hypothesis Htarget : Columns_Col cur (RenameTo actions) = None.

Lemma columnOutcome_undeclared (prev : Columns) :
  Column_Name col ∈ Column_Name <$> prev ->
  columnOutcome dialect cur prev col = Fail (not_declared (RenameTo actions)).
Proof.
  intros Hprev. unfold columnOutcome.
  apply oc_Get_is_Some in Hprev as [pc Hpc]. unfold Columns_Col. rewrite Hpc.
  rewrite (oc_Get_elem Column_Name cur col Hwf Hcol). rewrite Hactions.
  apply String.eqb_neq in Hrename. rewrite Hrename. simpl.
  unfold Columns_Col in Htarget. by rewrite Htarget.
Qed.

Lemma columnPass_undeclared (prevTable : loc) (cols prev : Columns) :
  col ∈ cols ->
  Column_Name col ∈ Column_Name <$> prev ->
  exists renameTo,
    columnPass dialect cur prevTable cols prev = inl (not_declared renameTo).
Proof.
  revert prev. induction cols as [|c rest IH]; intros prev Hin Hprev.
  - by apply elem_of_nil in Hin.
  - simpl. apply elem_of_cons in Hin as [<-|Hin].
    + rewrite columnOutcome_undeclared by done. eauto.
    + destruct (columnOutcome dialect cur prev c) as [ops|ops target|msg] eqn:E.
      * destruct (IH prev Hin Hprev) as [r ->]. eauto.
      * destruct (IH (Columns_Add prev (Column_On target prevTable)) Hin) as [r ->];
          [| by eauto].
        apply oc_Add_names. by right.
      * unfold columnOutcome in E.
        repeat match type of E with
               | match ?x with _ => _ end = _ => destruct x; try discriminate
               | (if ?x then _ else _) = _ => destruct x; try discriminate
               end.
        injection E as <-. eauto.
Qed.
End Undeclared.

(** C3: when a current column that the previous table also has carries a
    non-empty rename target under which the current table declares no
    column, [Diff] panics: no plan is returned. *)
Theorem C3_undeclared_rename_target_panics {SqlExpr : Type} (dialect : Dialect SqlExpr)
    (s : Store) (t prevTable : loc) (cur prev : Table)
    (col : Column) (actions : DeprecatedActions) :
  s !! t = Some cur ->
  s !! prevTable = Some prev ->
  t ≠ prevTable ->
  oc_wf Column_Name (Table_Columns cur) ->
  col ∈ Table_Columns cur ->
  Column_Name col ∈ Column_Name <$> Table_Columns prev ->
  Column_DeprecatedActions col = Some actions ->
  RenameTo actions ≠ "" ->
  Columns_Col (Table_Columns cur) (RenameTo actions) = None ->
  plan_of (Table_Diff dialect t prevTable s) = None /\
  exists renameTo s',
    Table_Diff dialect t prevTable s = Panic (not_declared renameTo) s'.
Proof.
  intros Hcur Hprev Hne Hwf Hcol Hname Hact Hren Htarget.
  assert (H : exists renameTo s',
             Table_Diff dialect t prevTable s = Panic (not_declared renameTo) s').
  { pose proof (Table_Diff_run dialect s t prevTable cur Hcur Hne prev Hprev) as Hrun.
    destruct (columnPass_undeclared dialect (Table_Columns cur) col actions
                Hwf Hcol Hact Hren Htarget prevTable (Table_Columns cur)
                (Table_Columns prev) Hcol Hname) as [r Hr].
    rewrite Hr in Hrun. destruct Hrun as [s' Hs']. eauto. }
  split; [| done]. destruct H as (r & s' & ->). reflexivity.
Qed.

Lemma C3_witness :
  plan_of (Table_Diff (recorder "primary") 0 1
             (two_tables "users" undeclared_current rename_previous)) = None /\
  exists renameTo s',
    Table_Diff (recorder "primary") 0 1
      (two_tables "users" undeclared_current rename_previous)
    = Panic (not_declared renameTo) s'.
Proof.
  apply (C3_undeclared_rename_target_panics (recorder "primary")
           (two_tables "users" undeclared_current rename_previous) 0 1
           (table_at (two_tables "users" undeclared_current rename_previous) 0)
           (table_at (two_tables "users" undeclared_current rename_previous) 1)
           (Column_On (deprecated "old_name" "new_name") 0)
           {| RenameTo := "new_name" |}).
  - vm_compute. reflexivity.
  - vm_compute. reflexivity.
  - lia.
  - compute_done.
  - compute_done.
  - compute_done.
  - reflexivity.
  - discriminate.
  - vm_compute. reflexivity.
Defined.

(** ** What [Diff] writes *)

Lemma renameTargets_app (p : loc) (a b : list Op) :
  renameTargets p (a ++ b) = renameTargets p a ++ renameTargets p b.
Proof. unfold renameTargets. apply List.flat_map_app. Qed.

Lemma columnOutcome_targets (pk : string) (p : loc) (cur prev : Columns) (col : Column) :
  match columnOutcome (recorder pk) cur prev col with
  | Emit ops => renameTargets p ops = []
  | Renamed ops target => renameTargets p ops = [Column_On target p]
  | Fail _ => True
  end.
Proof.
  unfold columnOutcome.
  destruct (Columns_Col prev (Column_Name col)).
  - destruct (Columns_Col cur (Column_Name col)) as [cc|]; [| reflexivity].
    destruct (Column_DeprecatedActions cc) as [a|]; [| reflexivity].
    destruct (negb (String.eqb (RenameTo a) "")); [| reflexivity].
    destruct (Columns_Col cur (RenameTo a)); [| exact I].
    destruct (Columns_Col prev (RenameTo a)); reflexivity.
  - destruct (Column_DeprecatedActions col); reflexivity.
Qed.

Lemma columnPass_targets (pk : string) (cur : Columns) (p : loc)
    (cols prev prev' : Columns) (ops : list Op) :
  columnPass (recorder pk) cur p cols prev = inr (ops, prev') ->
  prev' = List.fold_left Columns_Add (renameTargets p ops) prev.
Proof.
  revert prev ops. induction cols as [|col rest IH]; intros prev ops; simpl.
  - by intros [= <- <-].
  - pose proof (columnOutcome_targets pk p cur prev col) as Hout.
    destruct (columnOutcome (recorder pk) cur prev col) as [o|o target|msg]; [| | done].
    + destruct (columnPass (recorder pk) cur p rest prev) as [msg|[ops' p']] eqn:E; [done|].
      intros [= <- ->]. rewrite renameTargets_app, Hout. simpl. by apply IH.
    + destruct (columnPass (recorder pk) cur p rest (Columns_Add prev (Column_On target p)))
        as [msg|[ops' p']] eqn:E; [done|].
      intros [= <- ->]. rewrite renameTargets_app, Hout. simpl. by apply IH.
Qed.

Lemma keyOps_targets (pk : string) (p : loc) (prev : Table) (keys : list Key) :
  renameTargets p (List.flat_map (keyOps (recorder pk) prev) keys) = [].
Proof.
  induction keys as [|k r IH]; simpl; [done|].
  rewrite renameTargets_app, IH, List.app_nil_r.
  unfold keyOps. destruct (Keys_Key _ _); [destruct (_ && _)|]; reflexivity.
Qed.

Lemma prevKeyOps_targets (pk : string) (p : loc) (m : gmap string bool) (keys : list Key) :
  renameTargets p (List.flat_map (prevKeyOps (recorder pk) m) keys) = [].
Proof.
  induction keys as [|k r IH]; simpl; [done|].
  rewrite renameTargets_app, IH, List.app_nil_r.
  unfold prevKeyOps. destruct (m !! _); reflexivity.
Qed.

Lemma recorded_Diff_writes (pk : string) (s s' : Store)
    (t prevTable : loc) (cur prev : Table) (calls : list Op) :
  s !! t = Some cur ->
  s !! prevTable = Some prev ->
  t ≠ prevTable ->
  Table_Diff (recorder pk) t prevTable s = Ok calls s' ->
  s' = <[prevTable :=
           set_Columns
             (List.fold_left Columns_Add (renameTargets prevTable calls) (Table_Columns prev))
             prev]> s.
Proof.
  intros Hcur Hprev Hne Hrun.
  pose proof (Table_Diff_run (recorder pk) s t prevTable cur Hcur Hne prev Hprev) as H.
  destruct (columnPass (recorder pk) (Table_Columns cur) prevTable (Table_Columns cur)
              (Table_Columns prev)) as [msg|[ops prev']] eqn:E.
  { destruct H as [s'' H]. congruence. }
  rewrite H in Hrun. injection Hrun as <- <-.
  apply columnPass_targets in E.
  rewrite !renameTargets_app, keyOps_targets, prevKeyOps_targets, !List.app_nil_r.
  by rewrite <- E.
Qed.

(** C6, as the code has it: [Diff] on two table objects writes to no
    object but the previous table, and of that table only to its columns,
    where it registers the target of every rename the plan asks the
    dialect for, in order; the current table and the previous keys are as
    before, and with no rename in the plan the store is unchanged. *)
Theorem C6_Diff_writes_only_rename_targets {SqlExpr : Type} (dialect : Dialect SqlExpr)
    (s s' : Store) (t prevTable : loc) (cur prev : Table) (plan : list SqlExpr) :
  s !! t = Some cur ->
  s !! prevTable = Some prev ->
  t ≠ prevTable ->
  Table_Diff dialect t prevTable s = Ok plan s' ->
  exists calls : list Op,
    Table_Diff (recorded dialect) t prevTable s = Ok calls s' /\
    plan = answers dialect calls /\
    (forall q, q ≠ prevTable -> s' !! q = s !! q) /\
    s' !! t = Some cur /\
    s' !! prevTable
      = Some (set_Columns
                (List.fold_left Columns_Add (renameTargets prevTable calls)
                   (Table_Columns prev))
                prev) /\
    (renameTargets prevTable calls = [] -> s' = s).
Proof.
  intros Hcur Hprev Hne Hrun.
  destruct (Table_Diff_calls dialect t prevTable s s' plan Hrun) as (calls & Hcalls & ->).
  exists calls. split; [done|]. split; [done|].
  rewrite (recorded_Diff_writes _ s s' t prevTable cur prev calls Hcur Hprev Hne Hcalls).
  split; [intros q Hq; by rewrite lookup_insert_ne|].
  split; [by rewrite lookup_insert_ne|].
  split; [apply lookup_insert_eq|].
  intros ->. simpl. rewrite set_Columns_same. by apply insert_id.
Qed.

Lemma C6_witness :
  exists calls : list Op,
    Table_Diff (recorded (recorder "primary")) 0 1 rename_store
    = Ok calls (store_of (Table_Diff (recorder "primary") 0 1 rename_store)) /\
    rename_plan = answers (recorder "primary") calls /\
    (forall q, q ≠ 1 ->
       store_of (Table_Diff (recorder "primary") 0 1 rename_store) !! q
       = rename_store !! q) /\
    store_of (Table_Diff (recorder "primary") 0 1 rename_store) !! 0
      = Some (table_at rename_store 0) /\
    store_of (Table_Diff (recorder "primary") 0 1 rename_store) !! 1
      = Some (set_Columns
                (List.fold_left Columns_Add (renameTargets 1 calls)
                   (Table_Columns (table_at rename_store 1)))
                (table_at rename_store 1)) /\
    (renameTargets 1 calls = [] ->
     store_of (Table_Diff (recorder "primary") 0 1 rename_store) = rename_store).
Proof.
  apply (C6_Diff_writes_only_rename_targets (recorder "primary") rename_store
           (store_of (Table_Diff (recorder "primary") 0 1 rename_store)) 0 1
           (table_at rename_store 0) (table_at rename_store 1) rename_plan).
  - vm_compute. reflexivity.
  - vm_compute. reflexivity.
  - lia.
  - vm_compute. reflexivity.
Defined.

(** C6 as stated fails: after [Diff] has planned the rename of [old_name]
    to [new_name], the previous table has a third column, [new_name]. *)
Lemma C6_counterexample :
  plan_of (Table_Diff (recorder "primary") 0 1 rename_store) = Some rename_plan /\
  Table_Columns (table_at rename_store 1)
    = [Column_On (column "id") 1; Column_On (column "old_name") 1] /\
  Table_Columns (table_at (store_of (Table_Diff (recorder "primary") 0 1 rename_store)) 1)
    = [Column_On (column "id") 1; Column_On (column "old_name") 1;
       Column_On (column "new_name") 1] /\
  store_of (Table_Diff (recorder "primary") 0 1 rename_store) !! 1 ≠ rename_store !! 1.
Proof.
  split; [vm_compute; reflexivity|].
  split; [vm_compute; reflexivity|].
  split; [vm_compute; reflexivity|].
  vm_compute. discriminate.
Qed.

(** ** The rename branch of the column callback *)

(** C2, as the code has it: for a current column that the previous table
    also has and that carries a non-empty rename target [R] declared in
    the current table, the callback emits [DropColumn] of the previous
    column found under the new name [R], if there is one, then
    [RenameColumn] of the current column to the current column under
    [R]; it registers that target, owned by the previous table, in the
    previous table under [R]; nothing else is emitted for the column. *)
Theorem C2_rename_branch {SqlExpr : Type} (dialect : Dialect SqlExpr)
    (s : Store) (t prevTable : loc) (cur prev : Table)
    (col target : Column) (actions : DeprecatedActions)
    (idx : nat) (exprList : list SqlExpr) :
  s !! t = Some cur ->
  s !! prevTable = Some prev ->
  t ≠ prevTable ->
  oc_wf Column_Name (Table_Columns cur) ->
  col ∈ Table_Columns cur ->
  Column_Name col ∈ Column_Name <$> Table_Columns prev ->
  Column_DeprecatedActions col = Some actions ->
  RenameTo actions ≠ "" ->
  Columns_Col (Table_Columns cur) (RenameTo actions) = Some target ->
  let registered := Columns_Add (Table_Columns prev) (Column_On target prevTable) in
  diffColumn dialect t prevTable col idx exprList s
  = Ok (exprList
        ++ match Columns_Col (Table_Columns prev) (RenameTo actions) with
           | Some prevCol => [DropColumn prevCol]
           | None => []
           end
        ++ [RenameColumn col target])
       (<[prevTable := set_Columns registered prev]> s) /\
  Columns_Col registered (RenameTo actions) = Some (Column_On target prevTable).
Proof.
  intros Hcur Hprev Hne Hwf Hcol Hname Hact Hren Htarget registered.
  split.
  - pose proof (diffColumn_run dialect s t prevTable cur Hcur Hne prev col idx exprList) as H.
    simpl in H. rewrite (insert_id s prevTable prev Hprev) in H. rewrite H.
    unfold columnOutcome.
    apply oc_Get_is_Some in Hname as [pc Hpc]. unfold Columns_Col in *. rewrite Hpc.
    rewrite (oc_Get_elem Column_Name _ col Hwf Hcol), Hact.
    apply String.eqb_neq in Hren. rewrite Hren. simpl. rewrite Htarget.
    reflexivity.
  - apply oc_Get_Some in Htarget as [Hn _]. unfold registered, Columns_Col, Columns_Add.
    rewrite <- Hn. apply (oc_Get_Add_eq Column_Name _ (Column_On target prevTable)).
Qed.

Lemma C2_witness :
  diffColumn (recorder "primary") 0 1 (Column_On (deprecated "old_name" "new_name") 0) 1
    [OpModifyColumn (Column_On (column "id") 0)] rename_store
  = Ok ([OpModifyColumn (Column_On (column "id") 0)]
        ++ match Columns_Col (Table_Columns (table_at rename_store 1)) "new_name" with
           | Some prevCol => [OpDropColumn prevCol]
           | None => []
           end
        ++ [OpRenameColumn (Column_On (deprecated "old_name" "new_name") 0)
                           (Column_On (column "new_name") 0)])
       (<[1 := set_Columns
                 (Columns_Add (Table_Columns (table_at rename_store 1))
                    (Column_On (Column_On (column "new_name") 0) 1))
                 (table_at rename_store 1)]> rename_store) /\
  Columns_Col (Columns_Add (Table_Columns (table_at rename_store 1))
                 (Column_On (Column_On (column "new_name") 0) 1)) "new_name"
  = Some (Column_On (Column_On (column "new_name") 0) 1).
Proof.
  apply (C2_rename_branch (recorder "primary") rename_store 0 1
           (table_at rename_store 0) (table_at rename_store 1)
           (Column_On (deprecated "old_name" "new_name") 0)
           (Column_On (column "new_name") 0)
           {| RenameTo := "new_name" |} 1
           [OpModifyColumn (Column_On (column "id") 0)]).
  - vm_compute. reflexivity.
  - vm_compute. reflexivity.
  - lia.
  - compute_done.
  - compute_done.
  - compute_done.
  - reflexivity.
  - discriminate.
  - vm_compute. reflexivity.
Defined.

(** C2 as stated fails: the previous table has [old_name], the current
    table renames it to [new_name], and the plan drops no column; the
    previous column under the old name, in particular, is not dropped. *)
Lemma C2_counterexample :
  Columns_Col (Table_Columns (table_at rename_store 1)) "old_name"
    = Some (Column_On (column "old_name") 1) /\
  plan_of (Table_Diff (recorder "primary") 0 1 rename_store) = Some rename_plan /\
  (OpDropColumn (Column_On (column "old_name") 1) ∉ rename_plan) /\
  (forall c, OpDropColumn c ∉ rename_plan).
Proof.
  split; [vm_compute; reflexivity|].
  split; [vm_compute; reflexivity|].
  split; [compute_done|].
  intros c Hc. unfold rename_plan in Hc.
  repeat (apply elem_of_cons in Hc as [Hc|Hc]; [discriminate|]).
  by apply elem_of_nil in Hc.
Qed.

(** ** [WithSchema], [AddCol], [AddKey] and [T] *)

Lemma Range_from_pure {A St} (f : St -> A -> St) (l : list A) (idx : nat) (acc : St)
    (s : Store) :
  Range_from l idx (fun x _ acc => ret (f acc x)) acc s = Ok (List.fold_left f l acc) s.
Proof.
  revert idx acc. induction l as [|x r IH]; intros idx acc; simpl; [done|].
  unfold bind, ret at 1. apply IH.
Qed.

Lemma modify_run (s : Store) (p : loc) (tab : Table) (f : Table -> Table) :
  modify p f (<[p := tab]> s) = Ok tt (<[p := f tab]> s).
Proof. unfold modify. by rewrite lookup_insert_eq, insert_insert_eq. Qed.

Lemma fresh_unused (s : Store) : s !! fresh (dom s) = None.
Proof. apply not_elem_of_dom. apply is_fresh. Qed.

(** C8: [WithSchema] returns a new table object whose schema is [schema]
    and whose columns and keys are those of [t], in order, each a copy
    owned by the new object; every object that was in the store, the
    table [t] was copied from among them, is as before. *)
Theorem C8_WithSchema_rebuilds_on_a_new_object (s : Store) (t : Table) (schema : string) :
  oc_wf Column_Name (Table_Columns t) ->
  oc_wf Key_Name (Table_Keys t) ->
  exists (p : loc) (t' : Table) (s' : Store),
    Table_WithSchema t schema s = Ok p s' /\
    s !! p = None /\
    s' !! p = Some t' /\
    Table_Schema t' = schema /\
    Table_Name t' = Table_Name t /\
    Table_ModelName t' = Table_ModelName t /\
    Table_Columns t' = (fun col => Column_On col p) <$> Table_Columns t /\
    Table_Keys t' = (fun key => Key_On key p) <$> Table_Keys t /\
    (forall col, col ∈ Table_Columns t' -> Column_Table col = Some p) /\
    (forall key, key ∈ Table_Keys t' -> Key_Table key = Some p) /\
    (forall q, is_Some (s !! q) -> s' !! q = s !! q).
Proof.
  intros Hcols Hkeys.
  set (p := fresh (dom s)).
  assert (Hp : s !! p = None) by apply fresh_unused.
  set (cols := (fun col => Column_On col p) <$> Table_Columns t).
  set (keys := (fun key => Key_On key p) <$> Table_Keys t).
  exists p, (set_Keys keys (set_Columns cols (set_Schema schema t))),
    (<[p := set_Keys keys (set_Columns cols (set_Schema schema t))]> s).
  split.
  { unfold Table_WithSchema.
    rewrite (bind_Ok _ _ s (<[p := t]> s) p) by reflexivity.
    rewrite (bind_Ok _ _ _ _ _ (modify_run s p t (set_Schema schema))).
    rewrite (bind_Ok _ _ _ _ _ (deref_run _ p _ (lookup_insert_eq _ _ _))).
    unfold Range. rewrite (bind_Ok _ _ _ _ _ (Range_from_pure _ _ _ _ _)).
    rewrite (bind_Ok _ _ _ _ _ (modify_run s p _ _)).
    rewrite (bind_Ok _ _ _ _ _ (deref_run _ p _ (lookup_insert_eq _ _ _))).
    rewrite (bind_Ok _ _ _ _ _ (Range_from_pure _ _ _ _ _)).
    rewrite (bind_Ok _ _ _ _ _ (modify_run s p _ _)).
    unfold ret. simpl.
    change (List.fold_left (fun acc x => Columns_Add acc (Column_On x p)) (Table_Columns t) [])
      with (List.fold_left (fun c a => oc_Add Column_Name c ((fun col => Column_On col p) a))
              (Table_Columns t) []).
    change (List.fold_left (fun acc x => Keys_Add acc (Key_On x p)) (Table_Keys t) [])
      with (List.fold_left (fun c a => oc_Add Key_Name c ((fun key => Key_On key p) a))
              (Table_Keys t) []).
    rewrite (oc_rebuild Column_Name (fun col => Column_On col p)) by done.
    rewrite (oc_rebuild Key_Name (fun key => Key_On key p)) by done.
    reflexivity. }
  split; [done|].
  split; [apply lookup_insert_eq|].
  repeat (split; [reflexivity|]).
  split.
  { intros col Hin. simpl in Hin. apply list_elem_of_fmap in Hin as (c & -> & _). done. }
  split.
  { intros key Hin. simpl in Hin. apply list_elem_of_fmap in Hin as (k & -> & _). done. }
  intros q [tq Hq]. apply lookup_insert_ne. intros <-. congruence.
Qed.

Lemma C8_witness :
  exists (p : loc) (t' : Table) (s' : Store),
    Table_WithSchema (table_at rename_store 0) "public" rename_store = Ok p s' /\
    rename_store !! p = None /\
    s' !! p = Some t' /\
    Table_Schema t' = "public" /\
    Table_Name t' = Table_Name (table_at rename_store 0) /\
    Table_ModelName t' = Table_ModelName (table_at rename_store 0) /\
    Table_Columns t' = (fun col => Column_On col p) <$> Table_Columns (table_at rename_store 0) /\
    Table_Keys t' = (fun key => Key_On key p) <$> Table_Keys (table_at rename_store 0) /\
    (forall col, col ∈ Table_Columns t' -> Column_Table col = Some p) /\
    (forall key, key ∈ Table_Keys t' -> Key_Table key = Some p) /\
    (forall q, is_Some (rename_store !! q) -> s' !! q = rename_store !! q).
Proof.
  apply (C8_WithSchema_rebuilds_on_a_new_object rename_store (table_at rename_store 0) "public").
  - compute_done.
  - compute_done.
Defined.

Lemma for_each_columns (p : loc) (defs : list TableDefinition) (tab : Table) (s : Store) :
  for_each defs (fun tableDef =>
    match tableDef with
    | DefColumn d => Table_AddCol p d
    | _ => ret tt
    end) (<[p := tab]> s)
  = Ok tt (<[p := set_Columns
                     (List.fold_left (fun cols c => Columns_Add cols (Column_On c p))
                        (columnsOf defs) (Table_Columns tab)) tab]> s).
Proof.
  revert tab. induction defs as [|d r IH]; intros tab; simpl.
  - unfold ret. by rewrite set_Columns_same.
  - destruct d as [[c|]| | |]; simpl.
    + unfold Table_AddCol.
      rewrite (bind_Ok _ _ _ _ _ (modify_run s p tab _)). by rewrite IH.
    + rewrite (bind_Ok _ _ _ (<[p := tab]> s) tt) by reflexivity. apply IH.
    + rewrite (bind_Ok _ _ _ (<[p := tab]> s) tt) by reflexivity. apply IH.
    + rewrite (bind_Ok _ _ _ (<[p := tab]> s) tt) by reflexivity. apply IH.
    + rewrite (bind_Ok _ _ _ (<[p := tab]> s) tt) by reflexivity. apply IH.
Qed.

Lemma set_Keys_same (t : Table) : set_Keys (Table_Keys t) t = t.
Proof. by destruct t. Qed.

Lemma for_each_keys (p : loc) (defs : list TableDefinition) (tab : Table) (s : Store) :
  for_each defs (fun tableDef =>
    match tableDef with
    | DefKey d => Table_AddKey p d
    | _ => ret tt
    end) (<[p := tab]> s)
  = Ok tt (<[p := set_Keys
                     (List.fold_left (fun keys k => Keys_Add keys (Key_On k p))
                        (keysOf defs) (Table_Keys tab)) tab]> s).
Proof.
  revert tab. induction defs as [|d r IH]; intros tab; simpl.
  - unfold ret. by rewrite set_Keys_same.
  - destruct d as [|[k|]| |]; simpl.
    + rewrite (bind_Ok _ _ _ (<[p := tab]> s) tt) by reflexivity. apply IH.
    + unfold Table_AddKey.
      rewrite (bind_Ok _ _ _ _ _ (modify_run s p tab _)). by rewrite IH.
    + rewrite (bind_Ok _ _ _ (<[p := tab]> s) tt) by reflexivity. apply IH.
    + rewrite (bind_Ok _ _ _ (<[p := tab]> s) tt) by reflexivity. apply IH.
    + rewrite (bind_Ok _ _ _ (<[p := tab]> s) tt) by reflexivity. apply IH.
Qed.

(** What [T] builds, and that it always returns. *)
Lemma T_run (tableName : string) (defs : list TableDefinition) (s : Store) :
  T tableName defs s
  = Ok (fresh (dom s))
       (<[fresh (dom s) :=
            {| Table_Name := tableName; Table_Description := [];
               Table_Schema := ""; Table_ModelName := "";
               Table_Columns :=
                 List.fold_left (fun cols c => Columns_Add cols (Column_On c (fresh (dom s))))
                   (columnsOf defs) [];
               Table_Keys :=
                 List.fold_left (fun keys k => Keys_Add keys (Key_On k (fresh (dom s))))
                   (keysOf defs) [] |}]> s).
Proof.
  unfold T. set (p := fresh (dom s)).
  rewrite (bind_Ok _ _ s (<[p := emptyTable tableName]> s) p) by reflexivity.
  rewrite (bind_Ok _ _ _ _ _ (for_each_columns p defs _ s)).
  rewrite (bind_Ok _ _ _ _ _ (for_each_keys p defs _ s)).
  reflexivity.
Qed.

Lemma fold_Add_wf {A} (name : A -> string) (f : A -> A) (l acc : list A) :
  oc_wf name acc -> oc_wf name (List.fold_left (fun c a => oc_Add name c (f a)) l acc).
Proof.
  revert acc. induction l as [|x r IH]; intros acc Hwf; simpl; [done|].
  apply IH. by apply oc_Add_wf.
Qed.

(** The collections of a table built by [T] have unique names. *)
Lemma T_wf (tableName : string) (defs : list TableDefinition) (s : Store) :
  oc_wf Column_Name (Table_Columns (table_at (store_of (T tableName defs s)) (fresh (dom s)))) /\
  oc_wf Key_Name (Table_Keys (table_at (store_of (T tableName defs s)) (fresh (dom s)))).
Proof.
  rewrite T_run. unfold table_at, store_of. rewrite lookup_insert_eq. simpl. split.
  - apply (fold_Add_wf Column_Name (fun c => Column_On c (fresh (dom s)))). apply NoDup_nil_2.
  - apply (fold_Add_wf Key_Name (fun k => Key_On k (fresh (dom s)))). apply NoDup_nil_2.
Qed.

(** C10: [AddCol] and [AddKey] of a nil pointer return normally and leave
    the store, hence the table, as it is; [T] never fails, and the table
    it builds holds the non-nil columns among its members, in order, then
    the non-nil keys, in order: nil members and members of another kind
    contribute nothing. *)
Theorem C10_nil_members_are_skipped :
  (forall (t : loc) (s : Store), Table_AddCol t None s = Ok tt s) /\
  (forall (t : loc) (s : Store), Table_AddKey t None s = Ok tt s) /\
  (forall (tableName : string) (defs : list TableDefinition) (s : Store),
     let p := fresh (dom s) in
     T tableName defs s
     = Ok p (<[p := {| Table_Name := tableName; Table_Description := [];
                       Table_Schema := ""; Table_ModelName := "";
                       Table_Columns :=
                         List.fold_left (fun cols c => Columns_Add cols (Column_On c p))
                           (columnsOf defs) [];
                       Table_Keys :=
                         List.fold_left (fun keys k => Keys_Add keys (Key_On k p))
                           (keysOf defs) [] |}]> s)) /\
  (forall (defs defs' : list TableDefinition),
     columnsOf (defs ++ DefColumn None :: DefKey None :: DefOther :: DefNil :: defs')
       = columnsOf (defs ++ defs') /\
     keysOf (defs ++ DefColumn None :: DefKey None :: DefOther :: DefNil :: defs')
       = keysOf (defs ++ defs')).
Proof.
  split; [reflexivity|]. split; [reflexivity|]. split.
  - intros tableName defs s p. apply T_run.
  - intros defs defs'. unfold columnsOf, keysOf. by rewrite !List.flat_map_app.
Qed.

(** ** The key passes *)

(** What the key callback does for a current key that is not primary and
    whose name the previous table has: the index is recreated exactly
    when the text of the key's column list differs from the text of the
    column list of the whole previous table; the previous key found
    plays no part. *)
Lemma keyOps_matched {SqlExpr : Type} (dialect : Dialect SqlExpr)
    (prev : Table) (key prevKey : Key) :
  Key_IsPrimary key = false ->
  Keys_Key (Table_Keys prev) (Key_Name key) = Some prevKey ->
  keyOps dialect prev key
  = if String.eqb (Columns_Query (Key_Columns key)) (Columns_Query (Table_Columns prev))
    then []
    else [DropIndex key; AddIndex key].
Proof.
  intros Hp Hk. unfold keyOps, comparisonName. rewrite Hp, Hk. simpl.
  by destruct (String.eqb _ _).
Qed.

(** A primary key matched under the dialect's name yields no operation. *)
Lemma keyOps_primary_matched {SqlExpr : Type} (dialect : Dialect SqlExpr)
    (prev : Table) (key prevKey : Key) :
  Key_IsPrimary key = true ->
  Keys_Key (Table_Keys prev) PrimaryKeyName = Some prevKey ->
  keyOps dialect prev key = [].
Proof.
  intros Hp Hk. unfold keyOps, comparisonName. by rewrite Hp, Hk.
Qed.

(** C1 fails on the code: the index [idx_a] covers the column [a] in the
    current and in the previous table alike, and [Diff] still drops and
    adds it, the text [a] of its column list being compared with the
    text [a,b] of the columns of the previous table. *)
Theorem C1_index_recreated_with_equal_column_lists :
  Keys_Key (Table_Keys (table_at (two_tables "users" users_members users_members) 0)) "idx_a"
    = Some (Key_On (index "idx_a" ["a"]) 0) /\
  Keys_Key (Table_Keys (table_at (two_tables "users" users_members users_members) 1)) "idx_a"
    = Some (Key_On (index "idx_a" ["a"]) 1) /\
  Columns_Query (Key_Columns (Key_On (index "idx_a" ["a"]) 0))
    = Columns_Query (Key_Columns (Key_On (index "idx_a" ["a"]) 1)) /\
  Columns_Query (Table_Columns (table_at (two_tables "users" users_members users_members) 1))
    = "a,b" /\
  plan_of (Table_Diff (recorder "primary") 0 1
             (two_tables "users" users_members users_members))
  = Some [OpModifyColumn (Column_On (column "a") 0);
          OpModifyColumn (Column_On (column "b") 0);
          OpDropIndex (Key_On (index "idx_a" ["a"]) 0);
          OpAddIndex (Key_On (index "idx_a" ["a"]) 0)].
Proof. repeat split; vm_compute; reflexivity. Qed.

(** ** Diffing a table against a copy *)

(** The column pass of a table without deprecated columns against a table
    that has all its column names: one [ModifyColumn] per column, in
    order, and the previous table is not written. *)
Lemma columnPass_copy {SqlExpr : Type} (dialect : Dialect SqlExpr)
    (cur : Columns) (prevTable : loc) (cols prev : Columns) :
  (forall c, c ∈ cur -> Column_DeprecatedActions c = None) ->
  (forall c, c ∈ cols -> c ∈ cur) ->
  (forall c, c ∈ cols -> Column_Name c ∈ Column_Name <$> prev) ->
  columnPass dialect cur prevTable cols prev = inr (ModifyColumn <$> cols, prev).
Proof.
  intros Hdep. induction cols as [|col rest IH]; intros Hsub Hprev; simpl; [done|].
  assert (Hcol : col ∈ cur) by (apply Hsub, elem_of_cons; by left).
  assert (Hout : columnOutcome dialect cur prev col = Emit [ModifyColumn col]).
  { unfold columnOutcome.
    destruct (proj2 (oc_Get_is_Some Column_Name prev (Column_Name col))) as [pc Hpc].
    { apply Hprev, elem_of_cons. by left. }
    unfold Columns_Col. rewrite Hpc.
    destruct (proj2 (oc_Get_is_Some Column_Name cur (Column_Name col))) as [cc Hcc].
    { by apply list_elem_of_fmap_2. }
    rewrite Hcc. apply oc_Get_Some in Hcc as [_ Hin]. by rewrite (Hdep cc Hin). }
  rewrite Hout. rewrite IH; [done | |].
  - intros c Hc. apply Hsub, elem_of_cons. by right.
  - intros c Hc. apply Hprev, elem_of_cons. by right.
Qed.

(** The column part of C4 holds: [Diff] of a table without deprecated
    columns against a table that has all its column names returns one
    [ModifyColumn] per column, in order, and no other column operation,
    followed by the operations of the key passes; it writes nothing. *)
Lemma Table_Diff_copy {SqlExpr : Type} (dialect : Dialect SqlExpr)
    (s : Store) (t prevTable : loc) (cur prev : Table) :
  s !! t = Some cur ->
  s !! prevTable = Some prev ->
  t ≠ prevTable ->
  (forall c, c ∈ Table_Columns cur -> Column_DeprecatedActions c = None) ->
  (forall c, c ∈ Table_Columns cur ->
             Column_Name c ∈ Column_Name <$> Table_Columns prev) ->
  Table_Diff dialect t prevTable s
  = Ok ((ModifyColumn <$> Table_Columns cur)
        ++ List.flat_map (keyOps dialect prev) (Table_Keys cur)
        ++ List.flat_map (prevKeyOps dialect (visited dialect (Table_Keys cur) ∅))
             (Table_Keys prev))
       s.
Proof.
  intros Hcur Hprev Hne Hdep Hnames.
  pose proof (Table_Diff_run dialect s t prevTable cur Hcur Hne prev Hprev) as H.
  rewrite (columnPass_copy dialect (Table_Columns cur) prevTable (Table_Columns cur)
             (Table_Columns prev) Hdep (fun c Hc => Hc) Hnames) in H.
  rewrite H, set_Columns_same. by rewrite (insert_id s prevTable prev Hprev).
Qed.

(** C4 fails on the code, by the defect of C1: a table with the columns
    [id] and [amount] and an index on [amount], diffed against a copy of
    itself, gets one [ModifyColumn] per column and then the index dropped
    and added, though the key's column list is the same in both. *)
Theorem C4_self_diff_recreates_index :
  Table_Columns (table_at (two_tables "orders" orders_members orders_members) 1)
    = (fun c => Column_On c 1)
      <$> Table_Columns (table_at (two_tables "orders" orders_members orders_members) 0) /\
  Table_Keys (table_at (two_tables "orders" orders_members orders_members) 1)
    = (fun k => Key_On k 1)
      <$> Table_Keys (table_at (two_tables "orders" orders_members orders_members) 0) /\
  plan_of (Table_Diff (recorder "primary") 0 1
             (two_tables "orders" orders_members orders_members))
  = Some [OpModifyColumn (Column_On (column "id") 0);
          OpModifyColumn (Column_On (column "amount") 0);
          OpDropIndex (Key_On (index "idx_amount" ["amount"]) 0);
          OpAddIndex (Key_On (index "idx_amount" ["amount"]) 0)] /\
  List.filter is_index_Op
    [OpModifyColumn (Column_On (column "id") 0);
     OpModifyColumn (Column_On (column "amount") 0);
     OpDropIndex (Key_On (index "idx_amount" ["amount"]) 0);
     OpAddIndex (Key_On (index "idx_amount" ["amount"]) 0)]
  = [OpDropIndex (Key_On (index "idx_amount" ["amount"]) 0);
     OpAddIndex (Key_On (index "idx_amount" ["amount"]) 0)].
Proof. repeat split; vm_compute; reflexivity. Qed.

(** ** The pass over the previous keys *)

Lemma visited_lookup {SqlExpr : Type} (dialect : Dialect SqlExpr)
    (keys : list Key) (indexes : gmap string bool) (n : string) :
  is_Some (visited dialect keys indexes !! n)
  <-> n ∈ comparisonName dialect <$> keys \/ is_Some (indexes !! n).
Proof.
  unfold visited. revert indexes.
  induction keys as [|k r IH]; intros indexes; simpl.
  - split; [by right | intros [H|H]; [by apply elem_of_nil in H | done]].
  - rewrite IH, elem_of_cons, lookup_insert_is_Some.
    destruct (decide (comparisonName dialect k = n)); intuition congruence.
Qed.

(** The last pass drops exactly the previous keys whose lower-cased name
    is not, byte for byte, a comparison name of a current key. *)
Lemma prevKeyOps_drops (pk : string) (curKeys prevKeys : list Key) (key : Key) :
  OpDropIndex key ∈ List.flat_map
                      (prevKeyOps (recorder pk) (visited (recorder pk) curKeys ∅)) prevKeys
  <-> key ∈ prevKeys
      /\ ToLower (Key_Name key) ∉ comparisonName (recorder pk) <$> curKeys.
Proof.
  induction prevKeys as [|k r IH]; simpl.
  - rewrite !elem_of_nil. tauto.
  - rewrite elem_of_app, IH, elem_of_cons. unfold prevKeyOps.
    pose proof (visited_lookup (recorder pk) curKeys ∅ (ToLower (Key_Name k))) as Hv.
    destruct (visited (recorder pk) curKeys ∅ !! ToLower (Key_Name k)) as [b|] eqn:E.
    + assert (Hin : ToLower (Key_Name k) ∈ comparisonName (recorder pk) <$> curKeys).
      { destruct Hv as [Hv _]. destruct Hv as [?|[? Hx]]; [by eauto | done |].
        by rewrite lookup_empty in Hx. }
      rewrite elem_of_nil. split.
      * intros [[]|[? ?]]. tauto.
      * intros [[->|?] Hn]; [contradiction | tauto].
    + assert (Hnin : ToLower (Key_Name k) ∉ comparisonName (recorder pk) <$> curKeys).
      { intros Hin. destruct Hv as [_ Hv]. destruct Hv as [? ?]; [by left | done]. }
      rewrite list_elem_of_singleton. split.
      * intros [[= ->]|[? ?]]; tauto.
      * intros [[->|?] Hn]; [by left | tauto].
Qed.

Lemma EqualFold_lower (name n : string) :
  ToLower n = n -> (EqualFold name n = true <-> ToLower name = n).
Proof. intros Hn. unfold EqualFold. rewrite String.eqb_eq, Hn. tauto. Qed.

(** When the comparison names of the current keys are in lower case, the
    keys dropped are those that match none of them without regard to
    case. *)
Lemma prevKeyOps_drops_lower (pk : string) (curKeys prevKeys : list Key) (key : Key) :
  (forall n, n ∈ comparisonName (recorder pk) <$> curKeys -> ToLower n = n) ->
  OpDropIndex key ∈ List.flat_map
                      (prevKeyOps (recorder pk) (visited (recorder pk) curKeys ∅)) prevKeys
  <-> key ∈ prevKeys
      /\ forall n, n ∈ comparisonName (recorder pk) <$> curKeys ->
                   EqualFold (Key_Name key) n = false.
Proof.
  intros Hlow. rewrite prevKeyOps_drops. split; intros [Hin H]; (split; [done|]).
  - intros n Hn. destruct (EqualFold (Key_Name key) n) eqn:E; [| done].
    apply EqualFold_lower in E; [| by apply Hlow]. congruence.
  - intros Hn. specialize (H _ Hn).
    assert (EqualFold (Key_Name key) (ToLower (Key_Name key)) = true) as Ht.
    { apply EqualFold_lower; [by apply Hlow | done]. }
    congruence.
Qed.

(** C5 fails on the code: the index [IDX_A] is declared in the current
    table and present, under the same name, in the previous one; its
    name is recorded as visited as it is, looked up in lower case, and
    the previous key is dropped.  The same happens to the primary key
    when the dialect names primary keys [PRIMARY]. *)
Theorem C5_visited_upper_case_key_dropped :
  comparisonName (recorder "primary") (Key_On (index "IDX_A" ["a"]) 0) = "IDX_A" /\
  EqualFold (Key_Name (Key_On (index "IDX_A" ["a"]) 1)) "IDX_A" = true /\
  Table_Keys (table_at (two_tables "t" upper_members upper_members) 1)
    = [Key_On (index "IDX_A" ["a"]) 1] /\
  plan_of (Table_Diff (recorder "primary") 0 1 (two_tables "t" upper_members upper_members))
    = Some [OpModifyColumn (Column_On (column "a") 0);
            OpDropIndex (Key_On (index "IDX_A" ["a"]) 1)] /\
  comparisonName (recorder "PRIMARY") (Key_On (primaryKey "PRIMARY" ["id"]) 0) = "PRIMARY" /\
  plan_of (Table_Diff (recorder "PRIMARY") 0 1 (two_tables "t" primary_members primary_members))
    = Some [OpModifyColumn (Column_On (column "id") 0);
            OpDropIndex (Key_On (primaryKey "PRIMARY" ["id"]) 1)].
Proof. repeat split; vm_compute; reflexivity. Qed.

(** ** The registry *)

(** What holds of the registry: the invariant, and with it the parts of
    C9 about the list and the index by table name. *)

Lemma Tables_Range_from_names (l : list Element) (i : nat) (acc : list string) :
  Tables_Range_from l i (fun tab idx names => names ++ [Table_Name tab]) acc
  = acc ++ ((fun e => Table_Name (Element_Value e)) <$> l).
Proof.
  revert i acc. induction l as [|e r IH]; intros i acc; simpl.
  - by rewrite List.app_nil_r.
  - rewrite IH. by rewrite <- List.app_assoc.
Qed.

Lemma Tables_TableNames_make (l : GoList) (tabs models : gmap string Element) :
  Tables_TableNames (Tables_make l tabs models)
  = (fun e => Table_Name (Element_Value e)) <$> GoList_elems l.
Proof. unfold Tables_TableNames. simpl. apply Tables_Range_from_names. Qed.

Lemma filter_elem {A} (p : A -> bool) (l : list A) (x : A) :
  x ∈ List.filter p l <-> x ∈ l /\ p x = true.
Proof. rewrite !list_elem_of_In. apply List.filter_In. Qed.

Lemma filter_fmap_NoDup {A B} (f : A -> B) (p : A -> bool) (l : list A) :
  NoDup (f <$> l) -> NoDup (f <$> List.filter p l).
Proof.
  induction l as [|x r IH]; simpl; [done|].
  rewrite NoDup_cons. intros [Hx Hr]. destruct (p x); simpl; [| by apply IH].
  apply NoDup_cons. split; [| by apply IH].
  intros Hin. apply Hx. apply list_elem_of_fmap in Hin as (y & Hy & Hin).
  apply filter_elem in Hin as [Hin _]. rewrite Hy. by apply list_elem_of_fmap_2.
Qed.

Lemma Tables_inv_same_id (l : GoList) (tabs : gmap string Element) (e e' : Element) :
  Tables_inv l tabs ->
  e ∈ GoList_elems l -> e' ∈ GoList_elems l -> Element_id e = Element_id e' -> e = e'.
Proof.
  intros (_ & Hnd & _) He He' Hid.
  apply list_elem_of_lookup in He as [i Hi]. apply list_elem_of_lookup in He' as [j Hj].
  assert (i = j).
  { apply (NoDup_lookup _ i j (Element_id e) Hnd).
    - by rewrite list_lookup_fmap, Hi.
    - by rewrite list_lookup_fmap, Hj, Hid. }
  congruence.
Qed.

(** No two entries of the list share a table name. *)
Lemma Tables_inv_names (l : GoList) (tabs : gmap string Element) :
  Tables_inv l tabs -> NoDup ((fun e => Table_Name (Element_Value e)) <$> GoList_elems l).
Proof.
  intros Hinv. pose proof Hinv as (_ & Hnd & Hidx).
  apply NoDup_fmap_2_strong; [| by apply NoDup_fmap_1 in Hnd].
  intros x y Hx Hy Hn.
  assert (tabs !! Table_Name (Element_Value x) = Some x) as H1 by (by apply Hidx).
  assert (tabs !! Table_Name (Element_Value x) = Some y) as H2 by (by apply Hidx).
  congruence.
Qed.

Lemma Tables_Remove_wf (tables : Tables) (name : string) :
  Tables_wf tables -> Tables_wf (Tables_Remove tables name).
Proof.
  destruct tables as [|l tabs models]; simpl; [done|].
  intros Hinv. destruct (tabs !! name) as [e|] eqn:E; simpl; [| done].
  pose proof Hinv as (Hlt & Hnd & Hidx).
  apply Hidx in E as [He Hname].
  split; [| split]; simpl.
  - intros x Hx. apply filter_elem in Hx as [Hx _]. by apply Hlt.
  - by apply filter_fmap_NoDup.
  - intros n x. rewrite filter_elem, negb_true_iff, Nat.eqb_neq.
    destruct (decide (name = n)) as [<-|Hn].
    + rewrite lookup_delete_eq. split; [done|].
      intros [[Hx Hid] Hxn]. exfalso. apply Hid. f_equal.
      assert (tabs !! name = Some x) as H1 by (by apply Hidx).
      assert (tabs !! name = Some e) as H2 by (by apply Hidx).
      congruence.
    + rewrite lookup_delete_ne by done. rewrite Hidx. split.
      * intros [Hx Hxn]. split; [split|]; [done | | done].
        intros Hid. apply Hn.
        rewrite <- Hname, <- Hxn. f_equal. f_equal. symmetry.
        by apply (Tables_inv_same_id l tabs).
      * intros [[Hx _] Hxn]. done.
Qed.

Lemma Tables_Add1_wf (tables : Tables) (tab : option Table) :
  Tables_wf tables -> Tables_wf (Tables_Add1 tables tab).
Proof.
  intros Hwf. destruct tab as [tab|]; [| done]. unfold Tables_Add1.
  set (tables1 := match tables with
                  | Tables_zero => tables
                  | Tables_make _ tabs _ =>
                      match tabs !! Table_Name tab with
                      | Some _ => Tables_Remove tables (Table_Name tab)
                      | None => tables
                      end
                  end).
  assert (Hwf1 : Tables_wf tables1).
  { unfold tables1. destruct tables as [|l tabs models]; [done|].
    destruct (tabs !! Table_Name tab); [by apply Tables_Remove_wf | done]. }
  assert (Hfree : match tables1 with
                  | Tables_zero => True
                  | Tables_make _ tabs _ => tabs !! Table_Name tab = None
                  end).
  { unfold tables1. destruct tables as [|l tabs models]; [done|].
    destruct (tabs !! Table_Name tab) eqn:E; simpl; [| done].
    rewrite E. apply lookup_delete_eq. }
  clearbody tables1. destruct tables1 as [|l tabs models]; [done|].
  simpl in Hwf1. destruct Hwf1 as (Hlt & Hnd & Hidx).
  assert (Hinv : Tables_inv
                   {| GoList_elems :=
                        GoList_elems l
                        ++ [{| Element_id := GoList_next l; Element_Value := tab |}];
                      GoList_next := S (GoList_next l) |}
                   (<[Table_Name tab := {| Element_id := GoList_next l;
                                            Element_Value := tab |}]> tabs)).
  { split; [| split]; simpl.
    - intros x Hx. apply elem_of_app in Hx as [Hx|Hx].
      + apply Hlt in Hx. lia.
      + apply list_elem_of_singleton in Hx as ->. simpl. lia.
    - rewrite fmap_app. apply NoDup_app. split; [done|]. split; [| apply NoDup_singleton].
      intros i Hi Hi'. simpl in Hi'. apply list_elem_of_singleton in Hi' as ->.
      apply list_elem_of_fmap in Hi as (x & Hid & Hx). apply Hlt in Hx. lia.
    - intros n x. rewrite elem_of_app, list_elem_of_singleton.
      destruct (decide (Table_Name tab = n)) as [<-|Hn].
      + rewrite lookup_insert_eq. split.
        * intros [= <-]. split; [by right | done].
        * intros [[Hx| ->] Hxn]; [| done].
          assert (tabs !! Table_Name tab = Some x) as H1 by (by apply Hidx). congruence.
      + rewrite lookup_insert_ne by done. rewrite Hidx. split.
        * intros [Hx Hxn]. split; [by left | done].
        * intros [[Hx| ->] Hxn]; [done | simpl in Hxn; congruence]. }
  simpl. by destruct (negb (String.eqb (Table_ModelName tab) "")).
Qed.

Lemma Tables_Add_wf (tables : Tables) (tabs : list (option Table)) :
  Tables_wf tables -> Tables_wf (Tables_Add tables tabs).
Proof.
  intros Hwf. unfold Tables_Add.
  set (tables0 := match tables with
                  | Tables_zero => Tables_make list_New ∅ ∅
                  | Tables_make _ _ _ => tables
                  end).
  assert (Hwf0 : Tables_wf tables0).
  { unfold tables0. destruct tables; [| done]. simpl.
    split; [| split]; simpl.
    - intros e He. by apply elem_of_nil in He.
    - apply NoDup_nil_2.
    - intros n e. rewrite lookup_empty, elem_of_nil. split; [done | tauto]. }
  clearbody tables0. revert tables0 Hwf0.
  induction tabs as [|tab r IH]; intros tables0 Hwf0; simpl; [done|].
  apply IH. by apply Tables_Add1_wf.
Qed.

(** After any run of [Add] and [Remove] the invariant holds, and so no two
    entries visited by [Range] share a table name. *)
Lemma Tables_run_wf (ops : list TablesOp) : Tables_wf (Tables_run ops).
Proof.
  unfold Tables_run.
  assert (H : forall tables, Tables_wf tables -> Tables_wf (List.fold_left Tables_step ops tables)).
  { induction ops as [|op r IH]; intros tables Hwf; simpl; [done|].
    apply IH. destruct op; simpl; [by apply Tables_Add_wf | by apply Tables_Remove_wf]. }
  by apply H.
Qed.

Lemma Tables_run_names (ops : list TablesOp) : NoDup (Tables_TableNames (Tables_run ops)).
Proof.
  pose proof (Tables_run_wf ops) as Hwf.
  destruct (Tables_run ops) as [|l tabs models]; [apply NoDup_nil_2|].
  rewrite Tables_TableNames_make. by apply (Tables_inv_names l tabs).
Qed.

(** After [Remove(name)] neither [Table(name)] nor [Range] finds a table
    of that name. *)
Lemma Tables_Remove_gone (tables : Tables) (name : string) :
  Tables_wf tables ->
  Tables_Table (Tables_Remove tables name) name = None /\
  name ∉ Tables_TableNames (Tables_Remove tables name).
Proof.
  intros Hwf. pose proof (Tables_Remove_wf tables name Hwf) as Hwf'.
  assert (Hnone : Tables_Table (Tables_Remove tables name) name = None).
  { destruct tables as [|l tabs models]; simpl; [done|].
    destruct (tabs !! name) eqn:E; simpl; [by rewrite lookup_delete_eq | by rewrite E]. }
  split; [done|].
  destruct (Tables_Remove tables name) as [|l tabs models]; [apply not_elem_of_nil|].
  rewrite Tables_TableNames_make. intros Hin.
  apply list_elem_of_fmap in Hin as (e & Hn & He).
  simpl in Hwf'. destruct Hwf' as (_ & _ & Hidx).
  assert (tabs !! name = Some e) as H1 by (by apply Hidx).
  simpl in Hnone. by rewrite H1 in Hnone.
Qed.

Lemma fmap_filter_pointwise {A B} (f : A -> B) (p : A -> bool) (q : B -> bool) (l : list A) :
  (forall x, x ∈ l -> p x = q (f x)) ->
  f <$> List.filter p l = List.filter q (f <$> l).
Proof.
  induction l as [|x r IH]; intros H; simpl; [done|].
  rewrite <- (H x) by (apply elem_of_cons; by left).
  assert (Hr : f <$> List.filter p r = List.filter q (f <$> r)).
  { apply IH. intros y Hy. apply H, elem_of_cons. by right. }
  destruct (p x); simpl; [f_equal|]; exact Hr.
Qed.

Lemma filter_all {A} (q : A -> bool) (l : list A) :
  (forall x, x ∈ l -> q x = true) -> List.filter q l = l.
Proof.
  induction l as [|x r IH]; intros H; simpl; [done|].
  rewrite (H x) by (apply elem_of_cons; by left).
  f_equal. apply IH. intros y Hy. apply H, elem_of_cons. by right.
Qed.

(** [Add] of one table: it is the table [Table] returns under its name,
    and it is the last entry [Range] visits, after the entries of the
    other names in their order. *)
Lemma Tables_Add_last (tables : Tables) (tab : Table) :
  Tables_wf tables ->
  Tables_Table (Tables_Add tables [Some tab]) (Table_Name tab) = Some tab /\
  Tables_TableNames (Tables_Add tables [Some tab])
  = List.filter (fun n => negb (String.eqb n (Table_Name tab))) (Tables_TableNames tables)
    ++ [Table_Name tab].
Proof.
  intros Hwf.
  assert (Hmake : exists l tabs models,
             Tables_wf (Tables_make l tabs models) /\
             Tables_Add tables [Some tab] = Tables_Add (Tables_make l tabs models) [Some tab] /\
             Tables_TableNames tables = Tables_TableNames (Tables_make l tabs models)).
  { destruct tables as [|l tabs models]; [| by eauto 6].
    exists list_New, ∅, ∅. split; [| done]. split; [| split]; simpl.
    - intros e He. by apply elem_of_nil in He.
    - apply NoDup_nil_2.
    - intros n e. rewrite lookup_empty, elem_of_nil. split; [done | tauto]. }
  destruct Hmake as (l & tabs & models & Hwf' & -> & ->). clear Hwf tables.
  rename Hwf' into Hwf.
  unfold Tables_Add. simpl. simpl in Hwf.
  pose proof Hwf as (Hlt & Hnd & Hidx).
  destruct (tabs !! Table_Name tab) as [e|] eqn:E; simpl.
  - assert (Hnames :
      (fun x => Table_Name (Element_Value x))
        <$> List.filter (fun x => negb (Nat.eqb (Element_id x) (Element_id e))) (GoList_elems l)
      = List.filter (fun n => negb (String.eqb n (Table_Name tab)))
          ((fun x => Table_Name (Element_Value x)) <$> GoList_elems l)).
    { apply fmap_filter_pointwise. intros x Hx. f_equal.
      apply Hidx in E as [He Hen].
      destruct (Nat.eqb (Element_id x) (Element_id e)) eqn:Hid.
      - apply Nat.eqb_eq in Hid. symmetry. apply String.eqb_eq.
        by rewrite (Tables_inv_same_id l tabs x e Hwf Hx He Hid).
      - apply Nat.eqb_neq in Hid. symmetry. apply String.eqb_neq. intros Hn.
        apply Hid. f_equal.
        assert (tabs !! Table_Name tab = Some x) as H1 by (by apply Hidx).
        assert (tabs !! Table_Name tab = Some e) as H2 by (by apply Hidx).
        congruence. }
    destruct (negb (String.eqb (Table_ModelName tab) "")); simpl;
      (split; [by rewrite lookup_insert_eq |]);
      unfold Tables_TableNames; simpl; rewrite !Tables_Range_from_names; simpl;
      by rewrite fmap_app, Hnames.
  - assert (Hnames :
      List.filter (fun n => negb (String.eqb n (Table_Name tab)))
        ((fun x => Table_Name (Element_Value x)) <$> GoList_elems l)
      = (fun x => Table_Name (Element_Value x)) <$> GoList_elems l).
    { apply filter_all. intros n Hn. apply list_elem_of_fmap in Hn as (x & -> & Hx).
      apply negb_true_iff, String.eqb_neq. intros Hxn.
      assert (tabs !! Table_Name tab = Some x) as H1 by (by apply Hidx). congruence. }
    destruct (negb (String.eqb (Table_ModelName tab) "")); simpl;
      (split; [by rewrite lookup_insert_eq |]);
      unfold Tables_TableNames; simpl; rewrite !Tables_Range_from_names; simpl;
      by rewrite fmap_app, Hnames.
Qed.

(** C9 fails on the code: [Remove] takes the entry out of the list and
    out of the index by table name, not out of the index by model name;
    after [users] (model [User]) is added and removed, [Table] no longer
    finds it, [Range] no longer visits it, and [Model] still returns
    it.  Likewise after [users] is added again under the model
    [Account]: the new entry is the only one of its name and the last
    visited, and [Model] still returns the replaced table for [User]. *)
Theorem C9_Remove_leaves_model_index :
  Tables_Table (Tables_run [DoAdd [Some (users_table "User")]; DoRemove "users"]) "users"
    = None /\
  Tables_TableNames (Tables_run [DoAdd [Some (users_table "User")]; DoRemove "users"]) = [] /\
  Tables_Model (Tables_run [DoAdd [Some (users_table "User")]; DoRemove "users"]) "User"
    = Some (users_table "User") /\
  Tables_TableNames
    (Tables_run [DoAdd [Some (users_table "User"); Some (emptyTable "orders")];
                 DoAdd [Some (users_table "Account")]])
    = ["orders"; "users"] /\
  Tables_Table
    (Tables_run [DoAdd [Some (users_table "User"); Some (emptyTable "orders")];
                 DoAdd [Some (users_table "Account")]]) "users"
    = Some (users_table "Account") /\
  Tables_Model
    (Tables_run [DoAdd [Some (users_table "User"); Some (emptyTable "orders")];
                 DoAdd [Some (users_table "Account")]]) "User"
    = Some (users_table "User").
Proof. repeat split; vm_compute; reflexivity. Qed.

(** ** The placeholders of the PostgreSQL driver *)

Lemma append_cons (x : ascii) (a b : string) : (String x a ++ b = String x (a ++ b))%string.
Proof. reflexivity. Qed.

Lemma append_nil_l (b : string) : ("" ++ b)%string = b.
Proof. reflexivity. Qed.

Lemma append_assoc (a b c : string) : ((a ++ b) ++ c = a ++ (b ++ c))%string.
Proof.
  induction a as [|x a IH]; [done|]. by rewrite !append_cons, IH.
Qed.

Lemma append_nil_r (a : string) : (a ++ "")%string = a.
Proof. induction a as [|x a IH]; [done|]. by rewrite append_cons, IH. Qed.

Lemma countByte_app (c : ascii) (a b : string) :
  countByte c (a ++ b)%string = countByte c a + countByte c b.
Proof.
  induction a as [|x a IH]; [done|]. rewrite append_cons. simpl. rewrite IH. lia.
Qed.

Lemma replaceValueHolder_loop (data : string) (index : nat) (e : string) :
  List.fold_left replaceValueHolder_step (list_ascii_of_string data) (index, e)
  = (index + countByte "?"%char data, (e ++ replaceValueHolder_from index data)%string).
Proof.
  revert index e. induction data as [|c r IH]; intros index e; simpl.
  - by rewrite append_nil_r, Nat.add_0_r.
  - destruct (Ascii.eqb c "?"%char); rewrite IH.
    + f_equal; [lia|]. by rewrite !append_assoc.
    + f_equal. by rewrite append_assoc.
Qed.

Lemma replaceValueHolder_unfold (query : string) :
  replaceValueHolder query = replaceValueHolder_from 0 query.
Proof. unfold replaceValueHolder. by rewrite replaceValueHolder_loop. Qed.

Lemma replaceValueHolder_from_app (index : nat) (a b : string) :
  replaceValueHolder_from index (a ++ b)%string
  = (replaceValueHolder_from index a
     ++ replaceValueHolder_from (index + countByte "?"%char a) b)%string.
Proof.
  revert index. induction a as [|c r IH]; intros index.
  - simpl. by rewrite Nat.add_0_r.
  - rewrite append_cons. simpl. destruct (Ascii.eqb c "?"%char); rewrite IH.
    + by rewrite !append_assoc, Nat.add_assoc.
    + reflexivity.
Qed.

Lemma string_of_uint_digits (d : Decimal.uint) :
  countByte "?"%char (NilEmpty.string_of_uint d) = 0.
Proof. induction d; simpl; done. Qed.

Lemma replaceValueHolder_from_clean (index : nat) (data : string) :
  countByte "?"%char (replaceValueHolder_from index data) = 0.
Proof.
  revert index. induction data as [|c r IH]; intros index; simpl; [done|].
  destruct (Ascii.eqb c "?"%char) eqn:E.
  - rewrite !countByte_app. unfold FormatInt.
    by rewrite string_of_uint_digits, IH.
  - simpl. by rewrite E, IH.
Qed.

Lemma replaceValueHolder_from_id (index : nat) (data : string) :
  countByte "?"%char data = 0 -> replaceValueHolder_from index data = data.
Proof.
  induction data as [|c r IH]; simpl; [done|].
  destruct (Ascii.eqb c "?"%char); [done|]. intros H. by rewrite IH.
Qed.

(** X1: the query [replaceValueHolder] returns holds no [?]: every one,
    wherever it stands, has become a numbered placeholder. *)
Theorem X1_replaceValueHolder_leaves_no_question_mark (query : string) :
  countByte "?"%char (replaceValueHolder query) = 0.
Proof. rewrite replaceValueHolder_unfold. apply replaceValueHolder_from_clean. Qed.

(** X2: the placeholders are numbered from [$1] in the order of the [?]:
    a [?] that follows [n] others becomes [$] and the decimal digits of
    [n + 1], what precedes it is translated as on its own, and what
    follows it, when it holds no [?], is kept as it is. *)
Theorem X2_replaceValueHolder_numbers_in_order (a b : string) :
  exists rest : string,
    replaceValueHolder (a ++ "?" ++ b)%string
    = (replaceValueHolder a ++ "$" ++ FormatInt (countByte "?"%char a + 1) ++ rest)%string /\
    (countByte "?"%char b = 0 -> rest = b).
Proof.
  exists (replaceValueHolder_from (countByte "?"%char a + 1) b).
  rewrite !replaceValueHolder_unfold, replaceValueHolder_from_app.
  split; [reflexivity|]. apply replaceValueHolder_from_id.
Qed.

(** X3: [replaceValueHolder] returns the query unchanged exactly when the
    query holds no [?]. *)
Theorem X3_replaceValueHolder_fixes_queries_without_placeholder (query : string) :
  replaceValueHolder query = query <-> countByte "?"%char query = 0.
Proof.
  split.
  - intros H. rewrite <- H. rewrite replaceValueHolder_unfold.
    apply replaceValueHolder_from_clean.
  - intros H. rewrite replaceValueHolder_unfold. by apply replaceValueHolder_from_id.
Qed.

(** ** The registry, run by run *)

Lemma Tables_Range_from_list (l : list Element) (i : nat) (acc : list Table) :
  Tables_Range_from l i (fun tab idx acc => acc ++ [tab]) acc
  = acc ++ (Element_Value <$> l).
Proof.
  revert i acc. induction l as [|e r IH]; intros i acc; simpl.
  - by rewrite List.app_nil_r.
  - rewrite IH. by rewrite <- List.app_assoc.
Qed.

Lemma Tables_list_make (l : GoList) (tabs models : gmap string Element) :
  Tables_list (Tables_make l tabs models) = Element_Value <$> GoList_elems l.
Proof. unfold Tables_list. simpl. apply Tables_Range_from_list. Qed.

Lemma Tables_Remove_names (tables : Tables) (name : string) :
  Tables_wf tables ->
  Tables_TableNames (Tables_Remove tables name)
  = List.filter (fun n => negb (String.eqb n name)) (Tables_TableNames tables).
Proof.
  destruct tables as [|l tabs models]; [done|]. intros Hwf.
  pose proof Hwf as (Hlt & Hnd & Hidx). unfold Tables_Remove.
  destruct (tabs !! name) as [e|] eqn:E.
  - rewrite !Tables_TableNames_make. simpl.
    apply fmap_filter_pointwise. intros x Hx. f_equal.
    apply Hidx in E as [He Hen].
    destruct (Nat.eqb (Element_id x) (Element_id e)) eqn:Hid.
    + apply Nat.eqb_eq in Hid. symmetry. apply String.eqb_eq.
      by rewrite (Tables_inv_same_id l tabs x e Hwf Hx He Hid).
    + apply Nat.eqb_neq in Hid. symmetry. apply String.eqb_neq. intros Hn.
      apply Hid. f_equal.
      assert (tabs !! name = Some x) as H1 by (by apply Hidx).
      assert (tabs !! name = Some e) as H2 by (by apply Hidx).
      congruence.
  - rewrite Tables_TableNames_make. symmetry. apply filter_all.
    intros n Hn. apply list_elem_of_fmap in Hn as (x & -> & Hx).
    apply negb_true_iff, String.eqb_neq. intros Hxn.
    assert (tabs !! name = Some x) as H1 by (by apply Hidx). congruence.
Qed.

Lemma Tables_Remove_other (tables : Tables) (name m : string) :
  m <> name -> Tables_Table (Tables_Remove tables name) m = Tables_Table tables m.
Proof.
  intros Hm. destruct tables as [|l tabs models]; [done|]. simpl.
  destruct (tabs !! name); simpl; [| done]. by rewrite lookup_delete_ne.
Qed.

Lemma Tables_Add1_other (tables : Tables) (tab : Table) (m : string) :
  m <> Table_Name tab ->
  Tables_Table (Tables_Add1 tables (Some tab)) m = Tables_Table tables m.
Proof.
  intros Hm. destruct tables as [|l tabs models]; [done|]. simpl.
  destruct (tabs !! Table_Name tab) eqn:E; simpl.
  - destruct (negb (String.eqb (Table_ModelName tab) "")); simpl;
      by rewrite lookup_insert_ne, lookup_delete_ne.
  - destruct (negb (String.eqb (Table_ModelName tab) "")); simpl;
      by rewrite lookup_insert_ne.
Qed.

(** X4: after any run of [Add] and [Remove], no two tables [Range]
    visits have the same name, and [Table(name)] returns a table exactly
    when [Range] visits that table and it has that name: the index by
    name and the list agree. *)
Theorem X4_Tables_index_agrees_with_list (ops : list TablesOp) :
  NoDup (Tables_TableNames (Tables_run ops)) /\
  (forall name tab,
     Tables_Table (Tables_run ops) name = Some tab
     <-> tab ∈ Tables_list (Tables_run ops) /\ Table_Name tab = name).
Proof.
  pose proof (Tables_run_wf ops) as Hwf.
  destruct (Tables_run ops) as [|l tabs models].
  { split; [apply NoDup_nil_2|]. intros name tab. simpl. split; [done|].
    intros [H _]. by apply elem_of_nil in H. }
  split.
  { rewrite Tables_TableNames_make. by apply (Tables_inv_names l tabs). }
  intros name tab. rewrite Tables_list_make. simpl in *.
  destruct Hwf as (_ & _ & Hidx). split.
  - destruct (tabs !! name) as [e|] eqn:E; simpl; [| done]. intros [= <-].
    apply Hidx in E as [He Hn]. split; [by apply list_elem_of_fmap_2 | done].
  - intros [Hin Hn]. apply list_elem_of_fmap in Hin as (e & -> & He).
    assert (tabs !! name = Some e) as -> by (by apply Hidx). done.
Qed.

(** X5: [Add] of a table is an upsert at the end: whatever the registry
    held, [Table] then returns the table added under its name, [Range]
    visits it last, after the tables of the other names in their
    previous order, and the tables of the other names are what [Table]
    returned before. *)
Theorem X5_Tables_Add_upserts_at_end (ops : list TablesOp) (tab : Table) :
  Tables_Table (Tables_Add (Tables_run ops) [Some tab]) (Table_Name tab) = Some tab /\
  Tables_TableNames (Tables_Add (Tables_run ops) [Some tab])
  = List.filter (fun n => negb (String.eqb n (Table_Name tab)))
      (Tables_TableNames (Tables_run ops))
    ++ [Table_Name tab] /\
  (forall m, m <> Table_Name tab ->
     Tables_Table (Tables_Add (Tables_run ops) [Some tab]) m
     = Tables_Table (Tables_run ops) m).
Proof.
  pose proof (Tables_run_wf ops) as Hwf.
  destruct (Tables_Add_last (Tables_run ops) tab Hwf) as [H1 H2].
  split; [done|]. split; [done|].
  intros m Hm. unfold Tables_Add. cbn [List.fold_left].
  rewrite Tables_Add1_other by done.
  by destruct (Tables_run ops).
Qed.

(** X6: [Remove(name)] takes the table of that name, if any, out of the
    index by name and out of the list, and nothing else: [Table(name)]
    then returns nil, [Range] visits the other tables in their previous
    order, and [Table] returns for every other name what it returned
    before. *)
Theorem X6_Tables_Remove_takes_one_name_out (ops : list TablesOp) (name : string) :
  Tables_Table (Tables_Remove (Tables_run ops) name) name = None /\
  Tables_TableNames (Tables_Remove (Tables_run ops) name)
  = List.filter (fun n => negb (String.eqb n name)) (Tables_TableNames (Tables_run ops)) /\
  (forall m, m <> name ->
     Tables_Table (Tables_Remove (Tables_run ops) name) m
     = Tables_Table (Tables_run ops) m).
Proof.
  pose proof (Tables_run_wf ops) as Hwf.
  split; [by apply Tables_Remove_gone|].
  split; [by apply Tables_Remove_names|].
  intros m Hm. by apply Tables_Remove_other.
Qed.

Lemma Tables_Add1_made (tables : Tables) (tab : option Table) :
  tables <> Tables_zero -> Tables_Add1 tables tab <> Tables_zero.
Proof.
  destruct tab as [tab|]; [| done]. destruct tables as [|l tabs models]; [done|].
  intros _. simpl. destruct (tabs !! Table_Name tab) eqn:E; simpl.
  - by destruct (negb _).
  - by destruct (negb _).
Qed.

Lemma Tables_fold_made (tabs : list (option Table)) (tables : Tables) :
  tables <> Tables_zero -> List.fold_left Tables_Add1 tabs tables <> Tables_zero.
Proof.
  revert tables. induction tabs as [|tab r IH]; intros tables H; simpl; [done|].
  apply IH. by apply Tables_Add1_made.
Qed.

Lemma Tables_fold_skip_nil (tabs : list (option Table)) (tables : Tables) :
  List.fold_left Tables_Add1 tabs tables
  = List.fold_left Tables_Add1 (List.filter (fun tab => bool_decide (is_Some tab)) tabs) tables.
Proof.
  revert tables. induction tabs as [|[tab|] r IH]; intros tables; simpl; [done| |].
  - apply IH.
  - apply IH.
Qed.

(** X7: [Add] of several tables is [Add] of the first ones followed by
    [Add] of the others, and a nil table among the arguments is
    skipped. *)
Theorem X7_Tables_Add_composes (tables : Tables) (tabs tabs' : list (option Table)) :
  Tables_Add tables (tabs ++ tabs') = Tables_Add (Tables_Add tables tabs) tabs' /\
  Tables_Add tables tabs
  = Tables_Add tables (List.filter (fun tab => bool_decide (is_Some tab)) tabs).
Proof.
  split.
  - unfold Tables_Add. rewrite List.fold_left_app.
    set (init := match tables with
                 | Tables_zero => Tables_make list_New ∅ ∅
                 | Tables_make _ _ _ => tables
                 end).
    assert (Hinit : init <> Tables_zero) by (unfold init; by destruct tables).
    pose proof (Tables_fold_made tabs init Hinit) as Hmade.
    by destruct (List.fold_left Tables_Add1 tabs init).
  - unfold Tables_Add. apply Tables_fold_skip_nil.
Qed.

Lemma Tables_Remove_models_wf (tables : Tables) (name : string) :
  Tables_models_wf tables -> Tables_models_wf (Tables_Remove tables name).
Proof.
  destruct tables as [|l tabs models]; [done|]. simpl.
  by destruct (tabs !! name).
Qed.

Lemma Tables_Add1_models_wf (tables : Tables) (tab : option Table) :
  Tables_models_wf tables -> Tables_models_wf (Tables_Add1 tables tab).
Proof.
  destruct tab as [tab|]; [| done]. destruct tables as [|l tabs models]; [done|].
  intros Hwf. simpl in Hwf.
  assert (Hins : forall l' tabs',
             Tables_models_wf
               (if negb (String.eqb (Table_ModelName tab) "")
                then Tables_make l' tabs'
                       (<[Table_ModelName tab :=
                            {| Element_id := GoList_next l; Element_Value := tab |}]> models)
                else Tables_make l' tabs' models)).
  { intros l' tabs'. destruct (String.eqb (Table_ModelName tab) "") eqn:E; simpl; [done|].
    apply String.eqb_neq in E. intros m e. rewrite lookup_insert.
    case_decide as Hm; [| apply Hwf]. intros [= <-]. by subst m. }
  simpl. destruct (tabs !! Table_Name tab) eqn:E; simpl.
  - apply Hins.
  - apply Hins.
Qed.

Lemma Tables_run_models_wf (ops : list TablesOp) : Tables_models_wf (Tables_run ops).
Proof.
  unfold Tables_run.
  assert (H : forall tables, Tables_models_wf tables ->
                             Tables_models_wf (List.fold_left Tables_step ops tables)).
  { induction ops as [|op r IH]; intros tables Hwf; simpl; [done|].
    apply IH. destruct op as [tabs|name]; simpl; [| by apply Tables_Remove_models_wf].
    unfold Tables_Add.
    assert (Hinit : Tables_models_wf
                      match tables with
                      | Tables_zero => Tables_make list_New ∅ ∅
                      | Tables_make _ _ _ => tables
                      end).
    { destruct tables; [| done]. simpl. intros m e. by rewrite lookup_empty. }
    revert Hinit. generalize (match tables with
                              | Tables_zero => Tables_make list_New ∅ ∅
                              | Tables_make _ _ _ => tables
                              end).
    induction tabs as [|tab tabs IHt]; intros init Hinit; simpl; [done|].
    apply IHt. by apply Tables_Add1_models_wf. }
  by apply H.
Qed.

(** X8: after any run of [Add] and [Remove], [Model(name)] returns only
    a table whose model name is [name], never one for the empty name;
    [Add] of a table with a model name makes [Model] return it under
    that name, and [Add] of a table without one changes nothing of what
    [Model] returns. *)
Theorem X8_Tables_Model_files_by_model_name (ops : list TablesOp) :
  (forall name tab,
     Tables_Model (Tables_run ops) name = Some tab ->
     Table_ModelName tab = name /\ name <> "") /\
  (forall tab,
     Table_ModelName tab <> "" ->
     Tables_Model (Tables_Add (Tables_run ops) [Some tab]) (Table_ModelName tab) = Some tab) /\
  (forall tab name,
     Table_ModelName tab = "" ->
     Tables_Model (Tables_Add (Tables_run ops) [Some tab]) name
     = Tables_Model (Tables_run ops) name).
Proof.
  split; [| split].
  - intros name tab. pose proof (Tables_run_models_wf ops) as Hwf.
    destruct (Tables_run ops) as [|l tabs models]; [done|]. simpl in *.
    destruct (models !! name) as [e|] eqn:E; simpl; [| done].
    intros [= <-]. by apply Hwf.
  - intros tab Hm. apply String.eqb_neq in Hm.
    unfold Tables_Add. cbn [List.fold_left].
    destruct (Tables_run ops) as [|l tabs models]; simpl.
    + rewrite lookup_empty. simpl. rewrite Hm. simpl. by rewrite lookup_insert_eq.
    + destruct (tabs !! Table_Name tab) eqn:E; simpl.
      * rewrite Hm. simpl. by rewrite lookup_insert_eq.
      * rewrite Hm. simpl. by rewrite lookup_insert_eq.
  - intros tab name Hm. apply String.eqb_eq in Hm.
    unfold Tables_Add. cbn [List.fold_left].
    destruct (Tables_run ops) as [|l tabs models]; simpl.
    + rewrite lookup_empty. simpl. rewrite Hm. simpl. by rewrite lookup_empty.
    + destruct (tabs !! Table_Name tab) eqn:E; simpl.
      * by rewrite Hm.
      * by rewrite Hm.
Qed.

(** ** More of [Diff] *)

(** The shape of a plan, for any dialect. *)
Lemma Table_Diff_shape {SqlExpr : Type} (dialect : Dialect SqlExpr)
    (s s' : Store) (t prevTable : loc) (cur prev : Table) (plan : list SqlExpr) :
  s !! t = Some cur ->
  s !! prevTable = Some prev ->
  t ≠ prevTable ->
  Table_Diff dialect t prevTable s = Ok plan s' ->
  exists ops prev',
    columnPass (recorded dialect) (Table_Columns cur) prevTable (Table_Columns cur)
      (Table_Columns prev) = inr (ops, prev') /\
    Table_Diff (recorded dialect) t prevTable s
    = Ok (ops
          ++ List.flat_map (keyOps (recorded dialect) (set_Columns prev' prev)) (Table_Keys cur)
          ++ List.flat_map
               (prevKeyOps (recorded dialect)
                  (visited (recorded dialect) (Table_Keys cur) ∅))
               (Table_Keys prev)) s' /\
    plan = answers dialect
             (ops
              ++ List.flat_map (keyOps (recorded dialect) (set_Columns prev' prev))
                   (Table_Keys cur)
              ++ List.flat_map
                   (prevKeyOps (recorded dialect)
                      (visited (recorded dialect) (Table_Keys cur) ∅))
                   (Table_Keys prev)).
Proof.
  intros Hcur Hprev Hne Hrun.
  destruct (Table_Diff_calls dialect t prevTable s s' plan Hrun) as (calls & Hcalls & ->).
  pose proof (Table_Diff_run (recorded dialect) s t prevTable cur Hcur Hne prev Hprev) as H.
  destruct (columnPass (recorded dialect) (Table_Columns cur) prevTable (Table_Columns cur)
              (Table_Columns prev)) as [msg|[ops prev']] eqn:E.
  { destruct H as [s'' H]. congruence. }
  exists ops, prev'. split; [done|]. rewrite H in Hcalls. injection Hcalls as <- <-.
  by rewrite H.
Qed.

Lemma columnPass_fresh {SqlExpr : Type} (dialect : Dialect SqlExpr)
    (cur : Columns) (prevTable : loc) (cols : Columns) :
  columnPass dialect cur prevTable cols [] = inr (AddColumn <$> liveColumns cols, []).
Proof.
  induction cols as [|col rest IH]; simpl; [done|].
  unfold columnOutcome. simpl. rewrite IH.
  by destruct (Column_DeprecatedActions col).
Qed.

(** X9: against a previous table with no column and no key, the plan is
    [AddColumn] for every current column that is not deprecated, in
    order, then [AddIndex] for every current key, in order; nothing is
    dropped, and the store is not written. *)
Theorem X9_Diff_against_empty_previous_creates {SqlExpr : Type} (dialect : Dialect SqlExpr)
    (s : Store) (t prevTable : loc) (cur prev : Table) :
  s !! t = Some cur ->
  s !! prevTable = Some prev ->
  t ≠ prevTable ->
  Table_Columns prev = [] ->
  Table_Keys prev = [] ->
  Table_Diff dialect t prevTable s
  = Ok ((AddColumn <$> liveColumns (Table_Columns cur)) ++ (AddIndex <$> Table_Keys cur)) s.
Proof.
  intros Hcur Hprev Hne Hcols Hkeys.
  assert (Hsame : set_Columns [] prev = prev)
    by (rewrite <- Hcols; apply set_Columns_same).
  assert (Hadd : forall keys, List.flat_map (keyOps dialect prev) keys = AddIndex <$> keys).
  { induction keys as [|k r IH]; simpl; [done|].
    rewrite IH. unfold keyOps. by rewrite Hkeys. }
  pose proof (Table_Diff_run dialect s t prevTable cur Hcur Hne prev Hprev) as H.
  rewrite Hcols, columnPass_fresh in H. rewrite H, Hkeys, Hsame, Hadd. simpl.
  by rewrite List.app_nil_r, (insert_id s prevTable prev Hprev).
Qed.

Lemma X9_witness :
  Table_Diff (recorder "primary") 0 1 fresh_store
  = Ok ((OpAddColumn <$> liveColumns (Table_Columns (table_at fresh_store 0)))
        ++ (OpAddIndex <$> Table_Keys (table_at fresh_store 0))) fresh_store.
Proof.
  apply (X9_Diff_against_empty_previous_creates (recorder "primary") fresh_store 0 1
           (table_at fresh_store 0) (table_at fresh_store 1)).
  - vm_compute. reflexivity.
  - vm_compute. reflexivity.
  - lia.
  - vm_compute. reflexivity.
  - vm_compute. reflexivity.
Defined.

(** X10: when the current table has no column and no key, the plan is
    [DropIndex] for every previous key, in order: no column of the
    previous table is dropped. *)
Theorem X10_Diff_of_empty_current_drops_indexes_only {SqlExpr : Type}
    (dialect : Dialect SqlExpr) (s : Store) (t prevTable : loc) (cur prev : Table) :
  s !! t = Some cur ->
  s !! prevTable = Some prev ->
  t ≠ prevTable ->
  Table_Columns cur = [] ->
  Table_Keys cur = [] ->
  Table_Diff dialect t prevTable s = Ok (DropIndex <$> Table_Keys prev) s.
Proof.
  intros Hcur Hprev Hne Hcols Hkeys.
  assert (Hdrop : forall keys,
             List.flat_map (prevKeyOps dialect ∅) keys = DropIndex <$> keys).
  { induction keys as [|k r IH]; simpl; [done|].
    rewrite IH. unfold prevKeyOps. by rewrite lookup_empty. }
  pose proof (Table_Diff_run dialect s t prevTable cur Hcur Hne prev Hprev) as H.
  rewrite Hcols in H. simpl in H. rewrite H, Hkeys. simpl. rewrite Hdrop.
  by rewrite set_Columns_same, (insert_id s prevTable prev Hprev).
Qed.

Lemma X10_witness :
  Table_Diff (recorder "primary") 0 1 emptied_store
  = Ok (OpDropIndex <$> Table_Keys (table_at emptied_store 1)) emptied_store.
Proof.
  apply (X10_Diff_of_empty_current_drops_indexes_only (recorder "primary") emptied_store 0 1
           (table_at emptied_store 0) (table_at emptied_store 1)).
  - vm_compute. reflexivity.
  - vm_compute. reflexivity.
  - lia.
  - vm_compute. reflexivity.
  - vm_compute. reflexivity.
Defined.

Lemma columnOutcome_justified (pk : string) (cur prev0 prev : Columns) (col : Column) :
  oc_wf Column_Name cur ->
  col ∈ cur ->
  (forall n, n ∈ Column_Name <$> prev0 -> n ∈ Column_Name <$> prev) ->
  match columnOutcome (recorder pk) cur prev col with
  | Emit ops | Renamed ops _ => Forall (column_call_justified cur prev0) ops
  | Fail _ => True
  end.
Proof.
  intros Hwf Hcol Hsub. unfold columnOutcome, Columns_Col.
  destruct (oc_Get Column_Name prev (Column_Name col)) as [pc|] eqn:Hpc.
  - rewrite (oc_Get_elem Column_Name cur col Hwf Hcol).
    destruct (Column_DeprecatedActions col) as [a|] eqn:Ha.
    + destruct (String.eqb (RenameTo a) "") eqn:Hr; simpl.
      * apply String.eqb_eq in Hr. apply Forall_singleton. left. split; [done|].
        destruct a as [r]. simpl in Hr. by subst r.
      * apply String.eqb_neq in Hr.
        destruct (oc_Get Column_Name cur (RenameTo a)) as [tc|] eqn:Ht; [| done].
        apply oc_Get_Some in Ht as [Htn Htin].
        apply Forall_app. split.
        -- destruct (oc_Get Column_Name prev (RenameTo a)) as [p|] eqn:Hp; [| constructor].
           apply oc_Get_Some in Hp as [Hpn _]. apply Forall_singleton.
           right. exists col, a. done.
        -- apply Forall_singleton. split; [done|]. split; [done|]. exists a. done.
    + apply Forall_singleton. done.
  - destruct (Column_DeprecatedActions col) eqn:Ha; [constructor|].
    apply Forall_singleton. split; [done|]. split; [done|].
    intros Hin. apply Hsub in Hin. apply oc_Get_is_Some in Hin as [x Hx]. congruence.
Qed.

Lemma columnPass_justified (pk : string) (cur prev0 : Columns) (prevTable : loc)
    (cols prev prev' : Columns) (ops : list Op) :
  oc_wf Column_Name cur ->
  (forall c, c ∈ cols -> c ∈ cur) ->
  (forall n, n ∈ Column_Name <$> prev0 -> n ∈ Column_Name <$> prev) ->
  columnPass (recorder pk) cur prevTable cols prev = inr (ops, prev') ->
  Forall (column_call_justified cur prev0) ops.
Proof.
  intros Hwf. revert prev ops.
  induction cols as [|col rest IH]; intros prev ops Hsub Hnames; simpl.
  - intros [= <- _]. constructor.
  - assert (Hcol : col ∈ cur) by (apply Hsub, elem_of_cons; by left).
    assert (Hrest : forall c, c ∈ rest -> c ∈ cur)
      by (intros c Hc; apply Hsub, elem_of_cons; by right).
    pose proof (columnOutcome_justified pk cur prev0 prev col Hwf Hcol Hnames) as Hout.
    destruct (columnOutcome (recorder pk) cur prev col) as [o|o target|msg]; [| | done].
    + destruct (columnPass (recorder pk) cur prevTable rest prev)
        as [msg|[ops' p']] eqn:E; [done|].
      intros [= <- ->]. apply Forall_app. split; [done|]. by eapply IH.
    + destruct (columnPass (recorder pk) cur prevTable rest
                  (Columns_Add prev (Column_On target prevTable)))
        as [msg|[ops' p']] eqn:E; [done|].
      intros [= <- ->]. apply Forall_app. split; [done|].
      eapply IH; [done | | done].
      intros n Hn. apply oc_Add_names. right. by apply Hnames.
Qed.

Lemma keyOps_justified (pk : string) (cur prev0 : Columns) (prev : Table) (keys : list Key) :
  Forall (column_call_justified cur prev0) (List.flat_map (keyOps (recorder pk) prev) keys).
Proof.
  induction keys as [|k r IH]; simpl; [constructor|].
  apply Forall_app. split; [| done].
  unfold keyOps. destruct (Keys_Key _ _); [destruct (_ && _)|]; repeat constructor.
Qed.

Lemma prevKeyOps_justified (pk : string) (cur prev0 : Columns) (m : gmap string bool)
    (keys : list Key) :
  Forall (column_call_justified cur prev0) (List.flat_map (prevKeyOps (recorder pk) m) keys).
Proof.
  induction keys as [|k r IH]; simpl; [constructor|].
  apply Forall_app. split; [| done].
  unfold prevKeyOps. destruct (m !! _); repeat constructor.
Qed.

Lemma recorded_plan_justified {SqlExpr : Type} (dialect : Dialect SqlExpr)
    (s s' : Store) (t prevTable : loc) (cur prev : Table) (plan : list SqlExpr) :
  s !! t = Some cur ->
  s !! prevTable = Some prev ->
  t ≠ prevTable ->
  oc_wf Column_Name (Table_Columns cur) ->
  Table_Diff dialect t prevTable s = Ok plan s' ->
  exists calls : list Op,
    Table_Diff (recorded dialect) t prevTable s = Ok calls s' /\
    plan = answers dialect calls /\
    Forall (column_call_justified (Table_Columns cur) (Table_Columns prev)) calls.
Proof.
  intros Hcur Hprev Hne Hwf Hrun.
  destruct (Table_Diff_shape dialect s s' t prevTable cur prev plan Hcur Hprev Hne Hrun)
    as (ops & prev' & Hpass & Hcalls & ->).
  eexists. split; [exact Hcalls|]. split; [done|].
  unfold recorded in *.
  apply Forall_app. split.
  { by apply (columnPass_justified (@PrimaryKeyName _ dialect) _ _ prevTable
                (Table_Columns cur) (Table_Columns prev) prev'). }
  apply Forall_app. split; [apply keyOps_justified | apply prevKeyOps_justified].
Qed.

(** X11: [Diff] never adds a column the previous table has, nor a
    deprecated one, and modifies only columns that are not deprecated:
    every [AddColumn] and every [ModifyColumn] of a plan is about a
    column of the current table that is not deprecated, and for
    [AddColumn] one whose name the previous table lacks. *)
Theorem X11_Diff_adds_only_missing_live_columns {SqlExpr : Type} (dialect : Dialect SqlExpr)
    (s s' : Store) (t prevTable : loc) (cur prev : Table) (plan : list SqlExpr) :
  s !! t = Some cur ->
  s !! prevTable = Some prev ->
  t ≠ prevTable ->
  oc_wf Column_Name (Table_Columns cur) ->
  Table_Diff dialect t prevTable s = Ok plan s' ->
  exists calls : list Op,
    Table_Diff (recorded dialect) t prevTable s = Ok calls s' /\
    plan = answers dialect calls /\
    (forall c, OpAddColumn c ∈ calls ->
       c ∈ Table_Columns cur /\ Column_DeprecatedActions c = None
       /\ Column_Name c ∉ Column_Name <$> Table_Columns prev) /\
    (forall c, OpModifyColumn c ∈ calls ->
       c ∈ Table_Columns cur /\ Column_DeprecatedActions c = None).
Proof.
  intros Hcur Hprev Hne Hwf Hrun.
  destruct (recorded_plan_justified dialect s s' t prevTable cur prev plan
              Hcur Hprev Hne Hwf Hrun) as (calls & Hcalls & Hplan & Hall).
  exists calls. split; [done|]. split; [done|].
  rewrite Forall_forall in Hall.
  split; intros c Hc; exact (Hall _ Hc).
Qed.

Lemma X11_witness :
  exists calls : list Op,
    Table_Diff (recorded (recorder "primary")) 0 1 rename_store
    = Ok calls (store_of (Table_Diff (recorder "primary") 0 1 rename_store)) /\
    rename_plan = answers (recorder "primary") calls /\
    (forall c, OpAddColumn c ∈ calls ->
       c ∈ Table_Columns (table_at rename_store 0) /\ Column_DeprecatedActions c = None
       /\ Column_Name c ∉ Column_Name <$> Table_Columns (table_at rename_store 1)) /\
    (forall c, OpModifyColumn c ∈ calls ->
       c ∈ Table_Columns (table_at rename_store 0) /\ Column_DeprecatedActions c = None).
Proof.
  apply (X11_Diff_adds_only_missing_live_columns (recorder "primary") rename_store
           (store_of (Table_Diff (recorder "primary") 0 1 rename_store)) 0 1
           (table_at rename_store 0) (table_at rename_store 1) rename_plan).
  - vm_compute. reflexivity.
  - vm_compute. reflexivity.
  - lia.
  - compute_done.
  - vm_compute. reflexivity.
Defined.

(** X12: every [RenameColumn] of a plan goes from a deprecated column of
    the current table to the column of the current table that its
    rename target names; every [DropColumn] is of a column of the
    current table deprecated without a rename target, or of a column
    that has the name of a rename target of the current table. *)
Theorem X12_Diff_renames_and_drops_by_deprecation {SqlExpr : Type}
    (dialect : Dialect SqlExpr) (s s' : Store) (t prevTable : loc) (cur prev : Table)
    (plan : list SqlExpr) :
  s !! t = Some cur ->
  s !! prevTable = Some prev ->
  t ≠ prevTable ->
  oc_wf Column_Name (Table_Columns cur) ->
  Table_Diff dialect t prevTable s = Ok plan s' ->
  exists calls : list Op,
    Table_Diff (recorded dialect) t prevTable s = Ok calls s' /\
    plan = answers dialect calls /\
    (forall c target, OpRenameColumn c target ∈ calls ->
       c ∈ Table_Columns cur /\ target ∈ Table_Columns cur
       /\ exists actions, Column_DeprecatedActions c = Some actions
                          /\ RenameTo actions = Column_Name target
                          /\ RenameTo actions <> "") /\
    (forall c, OpDropColumn c ∈ calls ->
       (c ∈ Table_Columns cur
        /\ Column_DeprecatedActions c = Some {| RenameTo := "" |})
       \/ (exists col actions,
              col ∈ Table_Columns cur /\ Column_DeprecatedActions col = Some actions
              /\ RenameTo actions <> "" /\ Column_Name c = RenameTo actions)).
Proof.
  intros Hcur Hprev Hne Hwf Hrun.
  destruct (recorded_plan_justified dialect s s' t prevTable cur prev plan
              Hcur Hprev Hne Hwf Hrun) as (calls & Hcalls & Hplan & Hall).
  exists calls. split; [done|]. split; [done|].
  rewrite Forall_forall in Hall.
  split; [intros c target Hc | intros c Hc]; exact (Hall _ Hc).
Qed.

Lemma X12_witness :
  exists calls : list Op,
    Table_Diff (recorded (recorder "primary")) 0 1 rename_store
    = Ok calls (store_of (Table_Diff (recorder "primary") 0 1 rename_store)) /\
    rename_plan = answers (recorder "primary") calls /\
    (forall c target, OpRenameColumn c target ∈ calls ->
       c ∈ Table_Columns (table_at rename_store 0)
       /\ target ∈ Table_Columns (table_at rename_store 0)
       /\ exists actions, Column_DeprecatedActions c = Some actions
                          /\ RenameTo actions = Column_Name target
                          /\ RenameTo actions <> "") /\
    (forall c, OpDropColumn c ∈ calls ->
       (c ∈ Table_Columns (table_at rename_store 0)
        /\ Column_DeprecatedActions c = Some {| RenameTo := "" |})
       \/ (exists col actions,
              col ∈ Table_Columns (table_at rename_store 0)
              /\ Column_DeprecatedActions col = Some actions
              /\ RenameTo actions <> "" /\ Column_Name c = RenameTo actions)).
Proof.
  apply (X12_Diff_renames_and_drops_by_deprecation (recorder "primary") rename_store
           (store_of (Table_Diff (recorder "primary") 0 1 rename_store)) 0 1
           (table_at rename_store 0) (table_at rename_store 1) rename_plan).
  - vm_compute. reflexivity.
  - vm_compute. reflexivity.
  - lia.
  - compute_done.
  - vm_compute. reflexivity.
Defined.

Lemma columnOutcome_no_index (pk : string) (cur prev : Columns) (col : Column) :
  match columnOutcome (recorder pk) cur prev col with
  | Emit ops | Renamed ops _ => Forall (fun op => is_index_Op op = false) ops
  | Fail _ => True
  end.
Proof.
  unfold columnOutcome.
  destruct (Columns_Col prev (Column_Name col)).
  - destruct (Columns_Col cur (Column_Name col)) as [cc|]; [| by apply Forall_singleton].
    destruct (Column_DeprecatedActions cc) as [a|]; [| by apply Forall_singleton].
    destruct (negb (String.eqb (RenameTo a) "")); [| by apply Forall_singleton].
    destruct (Columns_Col cur (RenameTo a)); [| done].
    apply Forall_app. split; [| by apply Forall_singleton].
    destruct (Columns_Col prev (RenameTo a)); [by apply Forall_singleton | constructor].
  - destruct (Column_DeprecatedActions col); [constructor | by apply Forall_singleton].
Qed.

Lemma columnPass_no_index (pk : string) (cur : Columns) (prevTable : loc)
    (cols prev prev' : Columns) (ops : list Op) :
  columnPass (recorder pk) cur prevTable cols prev = inr (ops, prev') ->
  Forall (fun op => is_index_Op op = false) ops.
Proof.
  revert prev ops. induction cols as [|col rest IH]; intros prev ops; simpl.
  - intros [= <- _]. constructor.
  - pose proof (columnOutcome_no_index pk cur prev col) as Hout.
    destruct (columnOutcome (recorder pk) cur prev col) as [o|o target|msg]; [| | done].
    + destruct (columnPass (recorder pk) cur prevTable rest prev)
        as [msg|[ops' p']] eqn:E; [done|].
      intros [= <- ->]. apply Forall_app. split; [done|]. by eapply IH.
    + destruct (columnPass (recorder pk) cur prevTable rest
                  (Columns_Add prev (Column_On target prevTable)))
        as [msg|[ops' p']] eqn:E; [done|].
      intros [= <- ->]. apply Forall_app. split; [done|]. by eapply IH.
Qed.

Lemma keyOps_index (pk : string) (prev : Table) (keys : list Key) :
  Forall (fun op => is_index_Op op = true) (List.flat_map (keyOps (recorder pk) prev) keys).
Proof.
  induction keys as [|k r IH]; simpl; [constructor|].
  apply Forall_app. split; [| done].
  unfold keyOps. destruct (Keys_Key _ _); [destruct (_ && _)|]; repeat constructor.
Qed.

Lemma prevKeyOps_index (pk : string) (m : gmap string bool) (keys : list Key) :
  Forall (fun op => is_index_Op op = true) (List.flat_map (prevKeyOps (recorder pk) m) keys).
Proof.
  induction keys as [|k r IH]; simpl; [constructor|].
  apply Forall_app. split; [| done].
  unfold prevKeyOps. destruct (m !! _); repeat constructor.
Qed.

(** X13: in every plan the operations on columns come before the
    operations on indexes. *)
Theorem X13_Diff_plans_columns_before_indexes {SqlExpr : Type} (dialect : Dialect SqlExpr)
    (s s' : Store) (t prevTable : loc) (cur prev : Table) (plan : list SqlExpr) :
  s !! t = Some cur ->
  s !! prevTable = Some prev ->
  t ≠ prevTable ->
  Table_Diff dialect t prevTable s = Ok plan s' ->
  exists columnCalls indexCalls : list Op,
    Table_Diff (recorded dialect) t prevTable s = Ok (columnCalls ++ indexCalls) s' /\
    plan = answers dialect columnCalls ++ answers dialect indexCalls /\
    Forall (fun op => is_index_Op op = false) columnCalls /\
    Forall (fun op => is_index_Op op = true) indexCalls.
Proof.
  intros Hcur Hprev Hne Hrun.
  destruct (Table_Diff_shape dialect s s' t prevTable cur prev plan Hcur Hprev Hne Hrun)
    as (ops & prev' & Hpass & Hcalls & ->).
  eexists ops, _. split; [exact Hcalls|].
  split; [unfold answers; by rewrite fmap_app|].
  unfold recorded in *. split.
  - by eapply columnPass_no_index.
  - apply Forall_app. split; [apply keyOps_index | apply prevKeyOps_index].
Qed.

Lemma X13_witness :
  exists columnCalls indexCalls : list Op,
    Table_Diff (recorded (recorder "primary")) 0 1
      (two_tables "users" indexes_current indexes_previous)
    = Ok (columnCalls ++ indexCalls) (two_tables "users" indexes_current indexes_previous) /\
    [OpModifyColumn (Column_On (column "col_b") 0);
     OpAddIndex (Key_On (index "idx_b" ["col_b"]) 0);
     OpDropIndex (Key_On (index "idx_a" ["col_a"]) 1)]
    = answers (recorder "primary") columnCalls ++ answers (recorder "primary") indexCalls /\
    Forall (fun op => is_index_Op op = false) columnCalls /\
    Forall (fun op => is_index_Op op = true) indexCalls.
Proof.
  apply (X13_Diff_plans_columns_before_indexes (recorder "primary")
           (two_tables "users" indexes_current indexes_previous)
           (two_tables "users" indexes_current indexes_previous) 0 1
           (table_at (two_tables "users" indexes_current indexes_previous) 0)
           (table_at (two_tables "users" indexes_current indexes_previous) 1)).
  - vm_compute. reflexivity.
  - vm_compute. reflexivity.
  - lia.
  - vm_compute. reflexivity.
Defined.

Lemma no_index_not_elem (ops : list Op) (op : Op) :
  Forall (fun op => is_index_Op op = false) ops -> is_index_Op op = true -> op ∉ ops.
Proof.
  intros Hall Hop Hin. rewrite Forall_forall in Hall. apply Hall in Hin. congruence.
Qed.

Lemma keyOps_elem (pk : string) (prev : Table) (keys : list Key) (op : Op) :
  op ∈ List.flat_map (keyOps (recorder pk) prev) keys
  <-> exists k, k ∈ keys /\ op ∈ keyOps (recorder pk) prev k.
Proof.
  rewrite list_elem_of_In, List.in_flat_map. split.
  - intros (k & Hk & Hop). exists k. by rewrite !list_elem_of_In.
  - intros (k & Hk & Hop). exists k. by rewrite <- !list_elem_of_In.
Qed.

Lemma prevKeyOps_elem (pk : string) (m : gmap string bool) (keys : list Key) (op : Op) :
  op ∈ List.flat_map (prevKeyOps (recorder pk) m) keys ->
  exists k, k ∈ keys /\ op = OpDropIndex k.
Proof.
  induction keys as [|k r IH]; simpl; intros Hin.
  - by apply elem_of_nil in Hin.
  - apply elem_of_app in Hin as [Hin|Hin].
    + unfold prevKeyOps in Hin. destruct (m !! ToLower (Key_Name k)).
      * by apply elem_of_nil in Hin.
      * apply list_elem_of_singleton in Hin. exists k. split; [| done].
        apply elem_of_cons. by left.
    + destruct (IH Hin) as (k' & Hk' & ->). exists k'. split; [| done].
      apply elem_of_cons. by right.
Qed.

(** X14: [AddIndex] is planned only for keys of the current table, and
    for every one of them that the previous table has no key for under
    its comparison name; [DropIndex] is planned only for a key of the
    current table that is not primary, or for a key of the previous
    table. *)
Theorem X14_Diff_index_operations_by_key {SqlExpr : Type} (dialect : Dialect SqlExpr)
    (s s' : Store) (t prevTable : loc) (cur prev : Table) (plan : list SqlExpr) :
  s !! t = Some cur ->
  s !! prevTable = Some prev ->
  t ≠ prevTable ->
  Table_Diff dialect t prevTable s = Ok plan s' ->
  exists calls : list Op,
    Table_Diff (recorded dialect) t prevTable s = Ok calls s' /\
    plan = answers dialect calls /\
    (forall key, OpAddIndex key ∈ calls -> key ∈ Table_Keys cur) /\
    (forall key, key ∈ Table_Keys cur ->
       Keys_Key (Table_Keys prev) (comparisonName dialect key) = None ->
       OpAddIndex key ∈ calls) /\
    (forall key, OpDropIndex key ∈ calls ->
       (key ∈ Table_Keys cur /\ Key_IsPrimary key = false) \/ key ∈ Table_Keys prev).
Proof.
  intros Hcur Hprev Hne Hrun.
  destruct (Table_Diff_shape dialect s s' t prevTable cur prev plan Hcur Hprev Hne Hrun)
    as (ops & prev' & Hpass & Hcalls & ->).
  eexists. split; [exact Hcalls|]. split; [done|].
  unfold recorded in *. set (pk := @PrimaryKeyName _ dialect) in *.
  pose proof (columnPass_no_index pk _ _ _ _ _ _ Hpass) as Hcol.
  split; [| split].
  - intros key. rewrite !elem_of_app. intros [Hin|[Hin|Hin]].
    + by apply (no_index_not_elem ops (OpAddIndex key)) in Hin.
    + apply keyOps_elem in Hin as (k & Hk & Hop). unfold keyOps in Hop.
      destruct (Keys_Key _ _).
      * destruct (_ && _); [| by apply elem_of_nil in Hop].
        apply elem_of_cons in Hop as [?|Hop]; [done|].
        apply list_elem_of_singleton in Hop. by injection Hop as ->.
      * apply list_elem_of_singleton in Hop. by injection Hop as ->.
    + by apply prevKeyOps_elem in Hin as (k & _ & ?).
  - intros key Hkey Hnone. rewrite !elem_of_app. right. left.
    apply keyOps_elem. exists key. split; [done|]. unfold keyOps.
    change (comparisonName (recorder pk) key) with (comparisonName dialect key).
    simpl. rewrite Hnone. apply list_elem_of_singleton. done.
  - intros key. rewrite !elem_of_app. intros [Hin|[Hin|Hin]].
    + by apply (no_index_not_elem ops (OpDropIndex key)) in Hin.
    + left. apply keyOps_elem in Hin as (k & Hk & Hop). unfold keyOps in Hop.
      destruct (Keys_Key _ _).
      * destruct (negb (Key_IsPrimary k)) eqn:Hprim; simpl in Hop.
        -- destruct (negb (String.eqb _ _)); [| by apply elem_of_nil in Hop].
           apply elem_of_cons in Hop as [[= ->]|Hop].
           ++ split; [done|]. by apply negb_true_iff in Hprim.
           ++ by apply list_elem_of_singleton in Hop.
        -- by apply elem_of_nil in Hop.
      * by apply list_elem_of_singleton in Hop.
    + right. by apply prevKeyOps_elem in Hin as (k & Hk & [= ->]).
Qed.

Lemma X14_witness :
  exists calls : list Op,
    Table_Diff (recorded (recorder "primary")) 0 1
      (two_tables "users" indexes_current indexes_previous)
    = Ok calls (two_tables "users" indexes_current indexes_previous) /\
    [OpModifyColumn (Column_On (column "col_b") 0);
     OpAddIndex (Key_On (index "idx_b" ["col_b"]) 0);
     OpDropIndex (Key_On (index "idx_a" ["col_a"]) 1)]
    = answers (recorder "primary") calls /\
    (forall key, OpAddIndex key ∈ calls ->
       key ∈ Table_Keys (table_at (two_tables "users" indexes_current indexes_previous) 0)) /\
    (forall key,
       key ∈ Table_Keys (table_at (two_tables "users" indexes_current indexes_previous) 0) ->
       Keys_Key (Table_Keys (table_at (two_tables "users" indexes_current indexes_previous) 1))
         (comparisonName (recorder "primary") key) = None ->
       OpAddIndex key ∈ calls) /\
    (forall key, OpDropIndex key ∈ calls ->
       (key ∈ Table_Keys (table_at (two_tables "users" indexes_current indexes_previous) 0)
        /\ Key_IsPrimary key = false)
       \/ key ∈ Table_Keys (table_at (two_tables "users" indexes_current indexes_previous) 1)).
Proof.
  apply (X14_Diff_index_operations_by_key (recorder "primary")
           (two_tables "users" indexes_current indexes_previous)
           (two_tables "users" indexes_current indexes_previous) 0 1
           (table_at (two_tables "users" indexes_current indexes_previous) 0)
           (table_at (two_tables "users" indexes_current indexes_previous) 1)).
  - vm_compute. reflexivity.
  - vm_compute. reflexivity.
  - lia.
  - vm_compute. reflexivity.
Defined.

(** ** Tables as [T], [AddCol], [AddKey] and [WithSchema] build them *)

Lemma oc_Get_app {A} (name : A -> string) (l l' : list A) (n : string) :
  oc_Get name (l ++ l') n
  = match oc_Get name l n with
    | Some a => Some a
    | None => oc_Get name l' n
    end.
Proof.
  unfold oc_Get. induction l as [|x r IH]; simpl; [done|].
  by destruct (String.eqb (name x) n).
Qed.

Lemma oc_Get_Add {A} (name : A -> string) (l : list A) (a : A) (n : string) :
  oc_Get name (oc_Add name l a) n
  = if String.eqb (name a) n then Some a else oc_Get name l n.
Proof.
  destruct (String.eqb (name a) n) eqn:E.
  - apply String.eqb_eq in E. subst n. apply oc_Get_Add_eq.
  - apply String.eqb_neq in E. by apply oc_Get_Add_ne.
Qed.

(** Adding the members of [l] one by one keeps, for each name, the last
    one given. *)
Lemma oc_Get_fold_Add {A} (name : A -> string) (f : A -> A) (l acc : list A) (n : string) :
  (forall a, name (f a) = name a) ->
  oc_Get name (List.fold_left (fun c a => oc_Add name c (f a)) l acc) n
  = match oc_last name l n with
    | Some a => Some (f a)
    | None => oc_Get name acc n
    end.
Proof.
  intros Hf. unfold oc_last. revert acc.
  induction l as [|x r IH]; intros acc; simpl; [done|].
  rewrite IH, oc_Get_app, oc_Get_Add, Hf.
  destruct (oc_Get name (List.rev r) n); [done|].
  unfold oc_Get at 2. simpl. by destruct (String.eqb (name x) n).
Qed.

Lemma fold_Add_elem {A} (name : A -> string) (f : A -> A) (l acc : list A) (x : A) :
  x ∈ List.fold_left (fun c a => oc_Add name c (f a)) l acc ->
  x ∈ acc \/ exists a, a ∈ l /\ x = f a.
Proof.
  revert acc. induction l as [|y r IH]; intros acc; simpl; [by left|].
  intros Hin. apply IH in Hin as [Hin|(a & Ha & ->)].
  - apply oc_Add_elem in Hin as [->|Hin]; [| by left].
    right. exists y. split; [apply elem_of_cons; by left | done].
  - right. exists a. split; [apply elem_of_cons; by right | done].
Qed.

(** X15: [T] always returns a new table object, of the name given, and
    leaves the objects of the store as they are; the names of its
    columns, and of its keys, are unique; its members are owned by it;
    and under each name it holds the last column, or key, given with
    that name. *)
Theorem X15_T_builds_a_well_formed_table (tableName : string)
    (defs : list TableDefinition) (s : Store) :
  exists (p : loc) (tab : Table) (s' : Store),
    T tableName defs s = Ok p s' /\
    s !! p = None /\
    s' !! p = Some tab /\
    (forall q, is_Some (s !! q) -> s' !! q = s !! q) /\
    Table_Name tab = tableName /\
    oc_wf Column_Name (Table_Columns tab) /\
    oc_wf Key_Name (Table_Keys tab) /\
    (forall col, col ∈ Table_Columns tab -> Column_Table col = Some p) /\
    (forall key, key ∈ Table_Keys tab -> Key_Table key = Some p) /\
    (forall n, Columns_Col (Table_Columns tab) n
               = (fun c => Column_On c p) <$> oc_last Column_Name (columnsOf defs) n) /\
    (forall n, Keys_Key (Table_Keys tab) n
               = (fun k => Key_On k p) <$> oc_last Key_Name (keysOf defs) n).
Proof.
  eexists _, _, _. split; [apply T_run|].
  split; [apply fresh_unused|].
  split; [apply lookup_insert_eq|].
  split.
  { intros q [tq Hq]. apply lookup_insert_ne. intros <-.
    by rewrite fresh_unused in Hq. }
  split; [reflexivity|]. simpl.
  split.
  { apply (fold_Add_wf Column_Name (fun c => Column_On c (fresh (dom s)))).
    apply NoDup_nil_2. }
  split.
  { apply (fold_Add_wf Key_Name (fun k => Key_On k (fresh (dom s)))). apply NoDup_nil_2. }
  split.
  { intros col Hin.
    apply (fold_Add_elem Column_Name (fun c => Column_On c (fresh (dom s)))) in Hin
      as [Hin|(a & _ & ->)]; [by apply elem_of_nil in Hin | done]. }
  split.
  { intros key Hin.
    apply (fold_Add_elem Key_Name (fun k => Key_On k (fresh (dom s)))) in Hin
      as [Hin|(a & _ & ->)]; [by apply elem_of_nil in Hin | done]. }
  split.
  - intros n. unfold Columns_Col, Columns_Add.
    rewrite (oc_Get_fold_Add Column_Name (fun c => Column_On c (fresh (dom s)))) by done.
    by destruct (oc_last Column_Name (columnsOf defs) n).
  - intros n. unfold Keys_Key, Keys_Add.
    rewrite (oc_Get_fold_Add Key_Name (fun k => Key_On k (fresh (dom s)))) by done.
    by destruct (oc_last Key_Name (keysOf defs) n).
Qed.

(** X16: [AddCol] of a column on a live table makes [Col] return that
    column, owned by the table, under its name, and changes nothing
    else: the columns of the other names, the keys, the uniqueness of
    the names and the other objects are as before; through a dangling
    pointer it panics. *)
Theorem X16_AddCol_then_Col (s : Store) (t : loc) (tab : Table) (d : Column) :
  s !! t = Some tab ->
  exists tab' : Table,
    Table_AddCol t (Some d) s = Ok tt (<[t := tab']> s) /\
    Columns_Col (Table_Columns tab') (Column_Name d) = Some (Column_On d t) /\
    (forall n, n <> Column_Name d ->
       Columns_Col (Table_Columns tab') n = Columns_Col (Table_Columns tab) n) /\
    Table_Keys tab' = Table_Keys tab /\
    Table_Name tab' = Table_Name tab /\
    (oc_wf Column_Name (Table_Columns tab) -> oc_wf Column_Name (Table_Columns tab')) /\
    (forall q, s !! q = None -> plan_of (Table_AddCol q (Some d) s) = None).
Proof.
  intros Ht. eexists. split.
  { unfold Table_AddCol, modify. by rewrite Ht. }
  simpl. split; [apply (oc_Get_Add_eq Column_Name _ (Column_On d t))|].
  split.
  { intros n Hn. apply (oc_Get_Add_ne Column_Name _ (Column_On d t)). by intros <-. }
  split; [done|]. split; [done|].
  split; [apply oc_Add_wf|].
  intros q Hq. unfold Table_AddCol, modify. by rewrite Hq.
Qed.

Lemma X16_witness :
  exists tab' : Table,
    Table_AddCol 1 (Some (column "email")) rename_store = Ok tt (<[1 := tab']> rename_store) /\
    Columns_Col (Table_Columns tab') (Column_Name (column "email"))
      = Some (Column_On (column "email") 1) /\
    (forall n, n <> Column_Name (column "email") ->
       Columns_Col (Table_Columns tab') n
       = Columns_Col (Table_Columns (table_at rename_store 1)) n) /\
    Table_Keys tab' = Table_Keys (table_at rename_store 1) /\
    Table_Name tab' = Table_Name (table_at rename_store 1) /\
    (oc_wf Column_Name (Table_Columns (table_at rename_store 1)) ->
     oc_wf Column_Name (Table_Columns tab')) /\
    (forall q, rename_store !! q = None ->
       plan_of (Table_AddCol q (Some (column "email")) rename_store) = None).
Proof.
  apply (X16_AddCol_then_Col rename_store 1 (table_at rename_store 1) (column "email")).
  vm_compute. reflexivity.
Defined.

Lemma Table_WithSchema_run (s : Store) (t : Table) (schema : string) :
  oc_wf Column_Name (Table_Columns t) ->
  oc_wf Key_Name (Table_Keys t) ->
  Table_WithSchema t schema s
  = Ok (fresh (dom s)) (<[fresh (dom s) := copy_at (fresh (dom s)) schema t]> s).
Proof.
  intros Hcols Hkeys. set (p := fresh (dom s)).
  unfold Table_WithSchema.
  rewrite (bind_Ok _ _ s (<[p := t]> s) p) by reflexivity.
  rewrite (bind_Ok _ _ _ _ _ (modify_run s p t (set_Schema schema))).
  rewrite (bind_Ok _ _ _ _ _ (deref_run _ p _ (lookup_insert_eq _ _ _))).
  unfold Range. rewrite (bind_Ok _ _ _ _ _ (Range_from_pure _ _ _ _ _)).
  rewrite (bind_Ok _ _ _ _ _ (modify_run s p _ _)).
  rewrite (bind_Ok _ _ _ _ _ (deref_run _ p _ (lookup_insert_eq _ _ _))).
  rewrite (bind_Ok _ _ _ _ _ (Range_from_pure _ _ _ _ _)).
  rewrite (bind_Ok _ _ _ _ _ (modify_run s p _ _)).
  unfold ret, copy_at. simpl.
  change (List.fold_left (fun acc x => Columns_Add acc (Column_On x p)) (Table_Columns t) [])
    with (List.fold_left (fun c a => oc_Add Column_Name c ((fun col => Column_On col p) a))
            (Table_Columns t) []).
  change (List.fold_left (fun acc x => Keys_Add acc (Key_On x p)) (Table_Keys t) [])
    with (List.fold_left (fun c a => oc_Add Key_Name c ((fun key => Key_On key p) a))
            (Table_Keys t) []).
  rewrite (oc_rebuild Column_Name (fun col => Column_On col p)) by done.
  rewrite (oc_rebuild Key_Name (fun key => Key_On key p)) by done.
  reflexivity.
Qed.

Lemma copy_at_copy_at (p q : loc) (a b : string) (t : Table) :
  copy_at q b (copy_at p a t) = copy_at q b t.
Proof.
  unfold copy_at, set_Keys, set_Columns, set_Schema. simpl.
  f_equal; rewrite <- list_fmap_compose; by apply list_fmap_ext.
Qed.

Lemma copy_at_wf (p : loc) (a : string) (t : Table) :
  oc_wf Column_Name (Table_Columns t) ->
  oc_wf Key_Name (Table_Keys t) ->
  oc_wf Column_Name (Table_Columns (copy_at p a t)) /\
  oc_wf Key_Name (Table_Keys (copy_at p a t)).
Proof.
  unfold oc_wf, copy_at. simpl. rewrite <- !list_fmap_compose. done.
Qed.

(** X17: [WithSchema] on a copy that [WithSchema] made gives a second
    new object, which is the copy of the original table under the last
    schema, with every member owned by the second object; the first
    copy stays as it was. *)
Theorem X17_WithSchema_of_a_copy (s : Store) (t : Table) (a b : string) :
  oc_wf Column_Name (Table_Columns t) ->
  oc_wf Key_Name (Table_Keys t) ->
  exists (p1 p2 : loc) (s1 s2 : Store),
    Table_WithSchema t a s = Ok p1 s1 /\
    s1 !! p1 = Some (copy_at p1 a t) /\
    Table_WithSchema (copy_at p1 a t) b s1 = Ok p2 s2 /\
    p1 <> p2 /\
    s2 !! p2 = Some (copy_at p2 b t) /\
    s2 !! p1 = Some (copy_at p1 a t) /\
    (forall q, is_Some (s !! q) -> s2 !! q = s !! q).
Proof.
  intros Hcols Hkeys.
  set (p1 := fresh (dom s)).
  set (s1 := <[p1 := copy_at p1 a t]> s).
  set (p2 := fresh (dom s1)).
  assert (Hne : p1 <> p2).
  { intros Heq. pose proof (fresh_unused s1) as Hf. fold p2 in Hf.
    rewrite <- Heq in Hf. unfold s1 in Hf. by rewrite lookup_insert_eq in Hf. }
  exists p1, p2, s1, (<[p2 := copy_at p2 b t]> s1).
  split; [by apply Table_WithSchema_run|].
  split; [apply lookup_insert_eq|].
  split.
  { destruct (copy_at_wf p1 a t Hcols Hkeys) as [Hc Hk].
    rewrite (Table_WithSchema_run s1 _ b Hc Hk). fold p2.
    by rewrite copy_at_copy_at. }
  split; [done|].
  split; [apply lookup_insert_eq|].
  split.
  { rewrite lookup_insert_ne by done. apply lookup_insert_eq. }
  intros q [tq Hq].
  assert (q <> p1).
  { intros ->. unfold p1 in Hq. by rewrite fresh_unused in Hq. }
  assert (q <> p2).
  { intros ->. pose proof (fresh_unused s1) as Hf. fold p2 in Hf.
    unfold s1 in Hf. rewrite lookup_insert_ne in Hf by done. congruence. }
  unfold s1. by rewrite !lookup_insert_ne.
Qed.

Lemma X17_witness :
  exists (p1 p2 : loc) (s1 s2 : Store),
    Table_WithSchema (table_at rename_store 0) "public" rename_store = Ok p1 s1 /\
    s1 !! p1 = Some (copy_at p1 "public" (table_at rename_store 0)) /\
    Table_WithSchema (copy_at p1 "public" (table_at rename_store 0)) "audit" s1 = Ok p2 s2 /\
    p1 <> p2 /\
    s2 !! p2 = Some (copy_at p2 "audit" (table_at rename_store 0)) /\
    s2 !! p1 = Some (copy_at p1 "public" (table_at rename_store 0)) /\
    (forall q, is_Some (rename_store !! q) -> s2 !! q = rename_store !! q).
Proof.
  apply (X17_WithSchema_of_a_copy rename_store (table_at rename_store 0) "public" "audit").
  - compute_done.
  - compute_done.
Defined.

(** X18: the fragment [Expr] gives for the copy [WithSchema] makes of a
    table has no arguments, and its text is the table name, qualified
    with the schema and a dot unless the schema is empty; [IsNil] of
    the copy tells whether the table name is empty, and [IsNil] of the
    nil pointer is true in every store. *)
Theorem X18_Expr_of_a_copy_is_qualified (Value : Type) (s : Store) (t : Table)
    (schema : string) :
  oc_wf Column_Name (Table_Columns t) ->
  oc_wf Key_Name (Table_Keys t) ->
  exists s' : Store,
    (p <- Table_WithSchema t schema ;; Table_Expr p) s
      = Ok (Expr (Value := Value) (qualified schema (Table_Name t)) []) s' /\
    (p <- Table_WithSchema t schema ;; Table_IsNil (Some p)) s
      = Ok (String.eqb (Table_Name t) "") s' /\
    Table_IsNil None s' = Ok true s'.
Proof.
  intros Hcols Hkeys. eexists. split; [|split; [|reflexivity]].
  - rewrite (bind_Ok _ _ _ _ _ (Table_WithSchema_run s t schema Hcols Hkeys)).
    unfold Table_Expr.
    rewrite (bind_Ok _ _ _ _ _ (deref_run _ _ _ (lookup_insert_eq _ _ _))).
    unfold qualified, copy_at. simpl.
    by destruct (String.eqb schema "").
  - rewrite (bind_Ok _ _ _ _ _ (Table_WithSchema_run s t schema Hcols Hkeys)).
    unfold Table_IsNil.
    rewrite (bind_Ok _ _ _ _ _ (deref_run _ _ _ (lookup_insert_eq _ _ _))).
    unfold ret, copy_at. simpl. f_equal. by destruct (Table_Name t).
Qed.

Lemma X18_witness :
  exists s' : Store,
    (p <- Table_WithSchema (table_at rename_store 0) "public" ;; Table_Expr p) rename_store
      = Ok (Expr (Value := nat) (qualified "public" (Table_Name (table_at rename_store 0))) []) s' /\
    (p <- Table_WithSchema (table_at rename_store 0) "public" ;; Table_IsNil (Some p)) rename_store
      = Ok (String.eqb (Table_Name (table_at rename_store 0)) "") s' /\
    Table_IsNil None s' = Ok true s'.
Proof.
  apply (X18_Expr_of_a_copy_is_qualified nat rename_store (table_at rename_store 0) "public").
  - compute_done.
  - compute_done.
Defined.

(** ** Templated fragments *)

Lemma ReplaceAllStringFunc_from_pure (repl : string -> M string) (f : string -> string)
    (s : Store) (src : string) (skip : nat) :
  (forall m, repl m s = Ok (f m) s) ->
  ReplaceAllStringFunc_from repl skip src s = Ok (replaced_from f skip src) s.
Proof.
  intros Hrepl. revert skip. induction src as [|c r IH]; intros skip; [done|].
  destruct skip as [|k]; [|apply IH].
  cbn [ReplaceAllStringFunc_from replaced_from].
  destruct (fieldNamePlaceholder (String c r)) as [m|].
  - unfold bind. by rewrite Hrepl, IH.
  - unfold bind. by rewrite IH.
Qed.

Lemma Table_Ex_run {Value : Type} (s : Store) (t : loc) (tab : Table) (query : string)
    (args : list Value) :
  s !! t = Some tab ->
  Table_Ex t query args s = Ok (Expr (replaced_from (columnNameFor tab) 0 query) args) s.
Proof.
  intros Ht. unfold Table_Ex, ReplaceAllStringFunc.
  rewrite (bind_Ok _ _ s s (replaced_from (columnNameFor tab) 0 query)); [done|].
  apply ReplaceAllStringFunc_from_pure. intros m.
  unfold Table_F, columnNameFor.
  rewrite (bind_Ok _ _ s s (Columns_F (Table_Columns tab) (TrimLeft m "#"))).
  - by destruct (Columns_F _ _).
  - by rewrite (bind_Ok _ _ _ _ _ (deref_run _ _ _ Ht)).
Qed.

Lemma isUpper_isWord (c : ascii) : isUpper c = true -> isWord c = true.
Proof. unfold isUpper, isWord. intros ->. done. Qed.

Lemma wordPrefix_app (r y : string) (c : ascii) :
  isWord c = false -> wordPrefix (r ++ String c y) = wordPrefix r.
Proof.
  intros Hc. induction r as [|x r IH].
  - rewrite append_nil_l. cbn [wordPrefix]. by rewrite Hc.
  - rewrite append_cons. cbn [wordPrefix]. by rewrite IH.
Qed.

Lemma fieldNamePlaceholder_app (x : ascii) (r y : string) (c : ascii) :
  isWord c = false ->
  fieldNamePlaceholder (String x r ++ String c y) = fieldNamePlaceholder (String x r).
Proof.
  intros Hc. rewrite append_cons. unfold fieldNamePlaceholder.
  destruct (Ascii.eqb_spec x "#") as [->|Hx].
  - destruct r as [|u w].
    + rewrite append_nil_l.
      destruct (isUpper c) eqn:Hu; [|done].
      apply isUpper_isWord in Hu. congruence.
    + rewrite append_cons. by rewrite wordPrefix_app.
  - destruct x as [[] [] [] [] [] [] [] []]; try done.
Qed.

Lemma wordPrefix_length (r : string) : String.length (wordPrefix r) <= String.length r.
Proof.
  induction r as [|x r IH]; simpl; [lia|]. destruct (isWord x); simpl; lia.
Qed.

Lemma fieldNamePlaceholder_length (x : ascii) (r m : string) :
  fieldNamePlaceholder (String x r) = Some m ->
  String.length m - 1 <= String.length r.
Proof.
  unfold fieldNamePlaceholder.
  destruct (Ascii.eqb_spec x "#") as [->|Hx].
  - destruct r as [|u w]; [done|].
    destruct (isUpper u); [|done].
    pose proof (wordPrefix_length w).
    destruct (wordPrefix w) eqn:E; [done|].
    intros [= <-]. simpl in *. lia.
  - destruct x as [[] [] [] [] [] [] [] []]; try done.
Qed.

(** The text is translated piece by piece: a byte outside
    [[A-Za-z0-9_]] ends the placeholder before it. *)
Lemma replaced_from_app (f : string -> string) (pre y : string) (c : ascii) (skip : nat) :
  isWord c = false ->
  skip <= String.length pre ->
  replaced_from f skip (pre ++ String c y)
  = (replaced_from f skip pre ++ replaced_from f 0 (String c y))%string.
Proof.
  intros Hc. revert skip. induction pre as [|x r IH]; intros skip Hskip.
  - simpl in Hskip. assert (skip = 0) as -> by lia. done.
  - destruct skip as [|k].
    + rewrite append_cons.
      cbn [replaced_from]. rewrite <- append_cons.
      rewrite fieldNamePlaceholder_app by done.
      destruct (fieldNamePlaceholder (String x r)) as [m|] eqn:E.
      * apply fieldNamePlaceholder_length in E.
        rewrite IH by done. by rewrite append_assoc.
      * rewrite IH by (simpl; lia). by rewrite append_cons.
    + rewrite append_cons. cbn [replaced_from]. apply IH. simpl in Hskip. lia.
Qed.

Lemma replaced_from_skip (f : string -> string) (a b : string) :
  replaced_from f (String.length a) (a ++ b) = replaced_from f 0 b.
Proof.
  induction a as [|x a IH]; [done|]. rewrite append_cons. simpl. apply IH.
Qed.

Lemma replaced_from_verbatim (f : string -> string) (query : string) :
  hasPlaceholder query = false -> replaced_from f 0 query = query.
Proof.
  induction query as [|c r IH]; [done|].
  cbn [hasPlaceholder replaced_from].
  destruct (fieldNamePlaceholder (String c r)); [done|].
  intros H. by rewrite IH.
Qed.

(** X19: a query in which the placeholder expression matches nowhere
    is returned as it is, with its arguments, whatever the table
    pointer is, nil included, and the store is left as it was. *)
Theorem X19_Ex_without_placeholder_is_verbatim (Value : Type) (s : Store) (t : loc)
    (query : string) (args : list Value) :
  hasPlaceholder query = false ->
  Table_Ex t query args s = Ok (Expr query args) s.
Proof.
  intros Hq. unfold Table_Ex, ReplaceAllStringFunc.
  rewrite (bind_Ok _ _ s s query); [done|].
  clear args. revert Hq. induction query as [|c r IH]; [done|].
  cbn [hasPlaceholder ReplaceAllStringFunc_from].
  destruct (fieldNamePlaceholder (String c r)); [done|].
  intros Hq. by rewrite (bind_Ok _ _ _ _ _ (IH Hq)).
Qed.

Lemma X19_witness :
  Table_Ex 7 "#id = ? AND #N = ? AND # = #9" [1; 2] fields_store
  = Ok (Expr "#id = ? AND #N = ? AND # = #9" [1; 2]) fields_store.
Proof.
  apply (X19_Ex_without_placeholder_is_verbatim nat fields_store 7
           "#id = ? AND #N = ? AND # = #9" [1; 2]).
  vm_compute. reflexivity.
Defined.

(** X20: through a nil table pointer, [Ex] panics exactly if the
    placeholder expression matches somewhere in the query; otherwise
    it returns the query as it is. *)
Theorem X20_Ex_of_nil_panics_at_a_placeholder (Value : Type) (s : Store) (t : loc)
    (query : string) (args : list Value) :
  s !! t = None ->
  Table_Ex t query args s
  = if hasPlaceholder query then Panic nil_dereference s else Ok (Expr query args) s.
Proof.
  intros Ht. unfold Table_Ex, ReplaceAllStringFunc.
  set (repl := fun i : string => _).
  assert (Hrun : ReplaceAllStringFunc_from repl 0 query s
                 = if hasPlaceholder query then Panic nil_dereference s else Ok query s).
  { induction query as [|c r IH]; [done|].
    cbn [hasPlaceholder ReplaceAllStringFunc_from].
    destruct (fieldNamePlaceholder (String c r)) as [m|].
    - unfold bind at 1. unfold repl, Table_F, bind, deref. by rewrite Ht.
    - unfold bind at 1. rewrite IH. by destruct (hasPlaceholder r). }
  unfold bind at 1. rewrite Hrun. by destruct (hasPlaceholder query).
Qed.

Lemma X20_witness :
  Table_Ex 7 "#ID = ?" [1] fields_store
  = if hasPlaceholder "#ID = ?" then Panic nil_dereference fields_store
    else Ok (Expr "#ID = ?" [1]) fields_store.
Proof.
  apply (X20_Ex_of_nil_panics_at_a_placeholder nat fields_store 7 "#ID = ?" [1]).
  vm_compute. reflexivity.
Defined.

(** X21: where the expression matches [#name] in a query, [Ex] puts the
    name of the column of the field [name], or the placeholder itself
    if the table has no such column, between the translations of the
    text before and of the text after it. *)
Theorem X21_Ex_substitutes_the_column_name (Value : Type) (s : Store) (t : loc)
    (tab : Table) (pre name post : string) (args : list Value) :
  s !! t = Some tab ->
  fieldNamePlaceholder (String "#" (name ++ post)) = Some (String "#" name) ->
  exists a b : string,
    Table_Ex t pre args s = Ok (Expr a args) s /\
    Table_Ex t post args s = Ok (Expr b args) s /\
    Table_Ex t (pre ++ String "#" (name ++ post)) args s
    = Ok (Expr (a ++ match Columns_F (Table_Columns tab) name with
                     | Some col => Column_Name col
                     | None => String "#" name
                     end ++ b) args) s.
Proof.
  intros Ht Hm.
  exists (replaced_from (columnNameFor tab) 0 pre), (replaced_from (columnNameFor tab) 0 post).
  rewrite !(Table_Ex_run s t tab) by done.
  split; [done|]. split; [done|].
  rewrite replaced_from_app by (done || lia).
  do 3 f_equal.
  cbn [replaced_from]. rewrite Hm.
  replace (String.length (String "#" name) - 1) with (String.length name) by (simpl; lia).
  rewrite replaced_from_skip. f_equal.
  unfold columnNameFor.
  assert (Htrim : TrimLeft (String "#" name) "#" = name).
  { destruct name as [|u w]; [done|].
    assert (Hu : isUpper u = true).
    { unfold fieldNamePlaceholder in Hm. rewrite append_cons in Hm.
      by destruct (isUpper u). }
    clear -Hu.
    destruct u as [[] [] [] [] [] [] [] []]; first [ discriminate Hu | reflexivity ]. }
  by rewrite Htrim.
Qed.

Lemma X21_witness :
  exists a b : string,
    Table_Ex 0 "SELECT " [5] fields_store = Ok (Expr a [5]) fields_store /\
    Table_Ex 0 " = ? AND #Age > #Name" [5] fields_store = Ok (Expr b [5]) fields_store /\
    Table_Ex 0 ("SELECT " ++ String "#" ("ID" ++ " = ? AND #Age > #Name")) [5] fields_store
    = Ok (Expr (a ++ match Columns_F (Table_Columns (table_at fields_store 0)) "ID" with
                     | Some col => Column_Name col
                     | None => String "#" "ID"
                     end ++ b) [5]) fields_store.
Proof.
  apply (X21_Ex_substitutes_the_column_name nat fields_store 0 (table_at fields_store 0)
           "SELECT " "ID" " = ? AND #Age > #Name" [5]).
  - vm_compute. reflexivity.
  - vm_compute. reflexivity.
Defined.

(** X22: [Ex] translates a query piece by piece: at a byte outside
    [[A-Za-z0-9_]], the translation of the query is that of the text
    before the byte followed by that of the text from the byte on. *)
Theorem X22_Ex_splits_at_a_byte_outside_names (Value : Type) (s : Store) (t : loc)
    (tab : Table) (pre post : string) (c : ascii) (args : list Value) :
  s !! t = Some tab ->
  isWord c = false ->
  exists a b : string,
    Table_Ex t pre args s = Ok (Expr a args) s /\
    Table_Ex t (String c post) args s = Ok (Expr b args) s /\
    Table_Ex t (pre ++ String c post) args s = Ok (Expr (a ++ b) args) s.
Proof.
  intros Ht Hc.
  exists (replaced_from (columnNameFor tab) 0 pre),
    (replaced_from (columnNameFor tab) 0 (String c post)).
  rewrite !(Table_Ex_run s t tab) by done.
  split; [done|]. split; [done|].
  by rewrite replaced_from_app by (done || lia).
Qed.

Lemma X22_witness :
  exists a b : string,
    Table_Ex 0 "#Name" [5] fields_store = Ok (Expr a [5]) fields_store /\
    Table_Ex 0 (String "," "#ID") [5] fields_store = Ok (Expr b [5]) fields_store /\
    Table_Ex 0 ("#Name" ++ String "," "#ID") [5] fields_store
    = Ok (Expr (a ++ b) [5]) fields_store.
Proof.
  apply (X22_Ex_splits_at_a_byte_outside_names nat fields_store 0 (table_at fields_store 0)
           "#Name" "#ID" "," [5]).
  - vm_compute. reflexivity.
  - vm_compute. reflexivity.
Defined.

(** ** Projections of field values *)

Lemma for_range_pure {A St} (f : A -> St -> St) (body : A -> St -> M St) (l : list A)
    (acc : St) (s : Store) :
  (forall x acc, body x acc s = Ok (f x acc) s) ->
  for_range l body acc s = Ok (List.fold_left (fun acc x => f x acc) l acc) s.
Proof.
  intros Hbody. revert acc. induction l as [|x r IH]; intros acc; [done|].
  cbn [for_range List.fold_left]. unfold bind. by rewrite Hbody, IH.
Qed.

Lemma fold_fieldNames {Value : Type} (fieldValues : list (string * Value)) (acc : list string) :
  List.fold_left (fun acc e => acc ++ [fst e]) fieldValues acc = acc ++ fieldValues.*1.
Proof.
  revert acc. induction fieldValues as [|e r IH]; intros acc; simpl.
  - by rewrite app_nil_r.
  - rewrite IH. by rewrite <- app_assoc.
Qed.

Lemma fold_projection {Value : Type} (F : string -> option Column) (at_ : string -> Value)
    (names : list string) (cols : Columns) (args : list Value) :
  List.fold_left
    (fun (acc : Columns * list Value) n =>
       let '(columns, args) := acc in
       match F n with
       | Some col => (Columns_Add columns col, args ++ [at_ n])
       | None => (columns, args)
       end) names (cols, args)
  = (List.fold_left (fun c a => oc_Add Column_Name c a) (omap F names) cols,
     args ++ omap (fun n => (fun _ => at_ n) <$> F n) names).
Proof.
  revert cols args. induction names as [|n r IH]; intros cols args; simpl.
  - by rewrite app_nil_r.
  - destruct (F n) as [col|]; simpl; rewrite IH; [|done].
    by rewrite <- app_assoc.
Qed.

Lemma Table_F_run (s : Store) (t : loc) (tab : Table) (fieldName : string) :
  s !! t = Some tab ->
  Table_F t fieldName s = Ok (Columns_F (Table_Columns tab) fieldName) s.
Proof.
  intros Ht. unfold Table_F. by rewrite (bind_Ok _ _ _ _ _ (deref_run _ _ _ Ht)).
Qed.

Lemma Table_ColumnsAndValuesByFieldValues_run {Value : Type} (zero : Value) (s : Store)
    (t : loc) (tab : Table) (fieldValues : list (string * Value)) :
  s !! t = Some tab ->
  Table_ColumnsAndValuesByFieldValues zero t fieldValues s
  = Ok (List.fold_left (fun c a => oc_Add Column_Name c a)
          (omap (Columns_F (Table_Columns tab)) (sort_Strings fieldValues.*1)) [],
        omap (fun n => (fun _ => FieldValues_at zero fieldValues n)
                         <$> Columns_F (Table_Columns tab) n)
          (sort_Strings fieldValues.*1)) s.
Proof.
  intros Ht. unfold Table_ColumnsAndValuesByFieldValues.
  rewrite (bind_Ok _ _ s s fieldValues.*1).
  2:{ rewrite (for_range_pure (fun e fieldNames => fieldNames ++ [fst e])) by done.
      by rewrite fold_fieldNames. }
  rewrite (for_range_pure
    (fun n (acc : Columns * list Value) =>
       let '(columns, args) := acc in
       match Columns_F (Table_Columns tab) n with
       | Some col => (Columns_Add columns col, args ++ [FieldValues_at zero fieldValues n])
       | None => (columns, args)
       end)).
  - by rewrite (fold_projection (Columns_F (Table_Columns tab)) (FieldValues_at zero fieldValues)).
  - intros n [columns args].
    rewrite (bind_Ok _ _ _ _ _ (Table_F_run s t tab n Ht)).
    by destruct (Columns_F (Table_Columns tab) n).
Qed.

Lemma fold_assignments {Value : Type} (F : string -> option Column)
    (fieldValues : list (string * Value)) (acc : list (Column * Value)) :
  List.fold_left
    (fun acc (e : string * Value) =>
       match F (fst e) with
       | Some col => acc ++ [Column_ValueBy col (snd e)]
       | None => acc
       end) fieldValues acc
  = acc ++ omap (fun e => (fun col => (col, snd e)) <$> F (fst e)) fieldValues.
Proof.
  revert acc. induction fieldValues as [|e r IH]; intros acc; simpl.
  - by rewrite app_nil_r.
  - rewrite IH. destruct (F (fst e)); simpl; [|done]. by rewrite <- app_assoc.
Qed.

Lemma Table_AssignmentsByFieldValues_run {Value : Type} (s : Store) (t : loc) (tab : Table)
    (fieldValues : list (string * Value)) :
  s !! t = Some tab ->
  Table_AssignmentsByFieldValues t fieldValues s
  = Ok (omap (fun e => (fun col => (col, snd e)) <$> Columns_F (Table_Columns tab) (fst e))
          fieldValues) s.
Proof.
  intros Ht. unfold Table_AssignmentsByFieldValues.
  rewrite (for_range_pure
    (fun (e : string * Value) acc =>
       match Columns_F (Table_Columns tab) (fst e) with
       | Some col => acc ++ [Column_ValueBy col (snd e)]
       | None => acc
       end)).
  - by rewrite (fold_assignments (Columns_F (Table_Columns tab))).
  - intros [fieldName value] acc.
    rewrite (bind_Ok _ _ _ _ _ (Table_F_run s t tab fieldName Ht)).
    simpl. by destruct (Columns_F (Table_Columns tab) fieldName).
Qed.

Lemma FieldValues_at_elem {Value : Type} (zero : Value) (fieldValues : list (string * Value))
    (n : string) (v : Value) :
  NoDup fieldValues.*1 -> (n, v) ∈ fieldValues -> FieldValues_at zero fieldValues n = v.
Proof.
  unfold FieldValues_at.
  induction fieldValues as [|[k w] r IH]; intros Hnd Hin.
  - by apply elem_of_nil in Hin.
  - simpl in Hnd. apply NoDup_cons in Hnd as [Hk Hr]. simpl.
    destruct (String.eqb_spec k n) as [->|Hne].
    + apply elem_of_cons in Hin as [[= <-]|Hin]; [done|].
      exfalso. apply Hk. apply list_elem_of_fmap. by exists (n, v).
    + apply elem_of_cons in Hin as [[= <- <-]|Hin]; [done|]. by apply IH.
Qed.

Lemma FieldValues_at_missing {Value : Type} (zero : Value)
    (fieldValues : list (string * Value)) (n : string) :
  n ∉ fieldValues.*1 -> FieldValues_at zero fieldValues n = zero.
Proof.
  unfold FieldValues_at. induction fieldValues as [|[k w] r IH]; intros Hn; [done|].
  simpl in *. apply not_elem_of_cons in Hn as [Hne Hn].
  destruct (String.eqb_spec k n) as [->|_]; [done|]. by apply IH.
Qed.

Lemma FieldValues_at_Permutation {Value : Type} (zero : Value)
    (fieldValues fieldValues' : list (string * Value)) (n : string) :
  NoDup fieldValues.*1 -> fieldValues ≡ₚ fieldValues' ->
  FieldValues_at zero fieldValues n = FieldValues_at zero fieldValues' n.
Proof.
  intros Hnd Hperm.
  assert (Hnd' : NoDup fieldValues'.*1) by by rewrite <- Hperm.
  destruct (decide (n ∈ fieldValues.*1)) as [Hin|Hout].
  - apply list_elem_of_fmap in Hin as ([k v] & -> & Hin). simpl.
    rewrite (FieldValues_at_elem zero fieldValues k v) by done.
    rewrite (FieldValues_at_elem zero fieldValues' k v); [done|done|by rewrite <- Hperm].
  - rewrite !FieldValues_at_missing; [done| by rewrite <- Hperm |done].
Qed.

Lemma sort_Strings_Permutation (l l' : list string) :
  l ≡ₚ l' -> sort_Strings l = sort_Strings l'.
Proof.
  intros Hperm. unfold sort_Strings.
  apply (Sorted_unique String.le).
  - apply Sorted_merge_sort; apply _.
  - apply Sorted_merge_sort; apply _.
  - by rewrite !merge_sort_Permutation.
Qed.

Lemma Columns_F_Some (cols : Columns) (n : string) (col : Column) :
  Columns_F cols n = Some col -> col ∈ cols /\ Column_FieldName col = n.
Proof.
  unfold Columns_F. intros H. apply List.find_some in H as [Hin Heq].
  split; [by apply list_elem_of_In | by apply String.eqb_eq].
Qed.

Lemma oc_wf_same_name (cols : Columns) (a b : Column) :
  oc_wf Column_Name cols -> a ∈ cols -> b ∈ cols -> Column_Name a = Column_Name b -> a = b.
Proof.
  unfold oc_wf. induction cols as [|x r IH]; intros Hwf Ha Hb Hab.
  - by apply elem_of_nil in Ha.
  - simpl in Hwf. apply NoDup_cons in Hwf as [Hx Hr].
    apply elem_of_cons in Ha as [->|Ha]; apply elem_of_cons in Hb as [->|Hb].
    + done.
    + exfalso. apply Hx. rewrite Hab. apply list_elem_of_fmap. by exists b.
    + exfalso. apply Hx. rewrite <- Hab. apply list_elem_of_fmap. by exists a.
    + by apply IH.
Qed.

(** On a table with unique column names, the columns of distinct
    fields have distinct names. *)
Lemma projection_wf (cols : Columns) (names : list string) :
  oc_wf Column_Name cols -> NoDup names ->
  NoDup (Column_Name <$> omap (Columns_F cols) names).
Proof.
  intros Hwf. induction names as [|n r IH]; intros Hnd; simpl; [apply NoDup_nil_2|].
  apply NoDup_cons in Hnd as [Hn Hr].
  destruct (Columns_F cols n) as [col|] eqn:E; simpl; [|by apply IH].
  apply NoDup_cons. split; [|by apply IH].
  intros Hin. apply list_elem_of_fmap in Hin as (col' & Hname & Hin).
  apply list_elem_of_omap in Hin as (n' & Hn' & E').
  apply Columns_F_Some in E as [Hc Hf]. apply Columns_F_Some in E' as [Hc' Hf'].
  assert (col = col') by by apply (oc_wf_same_name cols).
  subst col'. congruence.
Qed.

Lemma zip_projection {Value : Type} (F : string -> option Column) (at_ : string -> Value)
    (names : list string) :
  zip (omap F names) (omap (fun n => (fun _ => at_ n) <$> F n) names)
  = omap (fun n => (fun col => (col, at_ n)) <$> F n) names.
Proof.
  induction names as [|n r IH]; [done|].
  csimpl. destruct (F n); csimpl; by rewrite ?IH.
Qed.

Lemma omap_fst_ext {Value : Type} (F : string -> option Column) (at_ : string -> Value)
    (l fieldValues : list (string * Value)) :
  (forall e, e ∈ l -> at_ (fst e) = snd e) ->
  omap (fun n => (fun col => (col, at_ n)) <$> F n) l.*1
  = omap (fun e => (fun col => (col, snd e)) <$> F (fst e)) l.
Proof.
  induction l as [|e r IH]; intros Hat; [done|].
  csimpl. rewrite IH by (intros e' He'; apply Hat, elem_of_cons; by right).
  rewrite (Hat e) by (apply elem_of_cons; by left). done.
Qed.

(** X23: [ColumnsAndValuesByFieldValues] gives the same columns and
    the same arguments in whatever order the map of the field values
    is iterated. *)
Theorem X23_ColumnsAndValues_ignore_the_iteration_order (Value : Type) (zero : Value)
    (s : Store) (t : loc) (tab : Table) (fieldValues fieldValues' : list (string * Value)) :
  s !! t = Some tab ->
  NoDup fieldValues.*1 ->
  fieldValues ≡ₚ fieldValues' ->
  Table_ColumnsAndValuesByFieldValues zero t fieldValues s
  = Table_ColumnsAndValuesByFieldValues zero t fieldValues' s.
Proof.
  intros Ht Hnd Hperm.
  rewrite !(Table_ColumnsAndValuesByFieldValues_run zero s t tab) by done.
  assert (Hnames : sort_Strings fieldValues.*1 = sort_Strings fieldValues'.*1).
  { apply sort_Strings_Permutation. by rewrite Hperm. }
  rewrite <- Hnames. do 2 f_equal.
  apply list_omap_ext. apply Forall_Forall2_diag, Forall_forall. intros n _.
  by rewrite (FieldValues_at_Permutation zero fieldValues fieldValues').
Qed.

Lemma X23_witness :
  Table_ColumnsAndValuesByFieldValues 0 0 user_values fields_store
  = Table_ColumnsAndValuesByFieldValues 0 0 (List.rev user_values) fields_store.
Proof.
  apply (X23_ColumnsAndValues_ignore_the_iteration_order nat 0 fields_store 0
           (table_at fields_store 0) user_values (List.rev user_values)).
  - vm_compute. reflexivity.
  - compute_done.
  - apply Permutation_rev.
Defined.

(** X24: on a table with unique column names,
    [ColumnsAndValuesByFieldValues] returns, for the field names of
    the map in increasing order, the columns of those that are fields
    of the table and, at the same positions, their values: the fields
    with no column are skipped, and there are as many arguments as
    columns. *)
Theorem X24_ColumnsAndValues_align_in_field_order (Value : Type) (zero : Value)
    (s : Store) (t : loc) (tab : Table) (fieldValues : list (string * Value)) :
  s !! t = Some tab ->
  oc_wf Column_Name (Table_Columns tab) ->
  NoDup fieldValues.*1 ->
  exists (names : list string) (columns : Columns) (args : list Value),
    Table_ColumnsAndValuesByFieldValues zero t fieldValues s = Ok (columns, args) s /\
    names ≡ₚ fieldValues.*1 /\
    StronglySorted String.le names /\
    columns = omap (Columns_F (Table_Columns tab)) names /\
    args = omap (fun n => (fun _ => FieldValues_at zero fieldValues n)
                            <$> Columns_F (Table_Columns tab) n) names /\
    length columns = length args /\
    oc_wf Column_Name columns.
Proof.
  intros Ht Hwf Hnd.
  set (names := sort_Strings fieldValues.*1).
  assert (Hperm : names ≡ₚ fieldValues.*1) by apply merge_sort_Permutation.
  assert (Hnames : NoDup (Column_Name <$> omap (Columns_F (Table_Columns tab)) names)).
  { apply projection_wf; [done|]. by rewrite Hperm. }
  exists names, (omap (Columns_F (Table_Columns tab)) names),
    (omap (fun n => (fun _ => FieldValues_at zero fieldValues n)
                      <$> Columns_F (Table_Columns tab) n) names).
  split.
  { rewrite (Table_ColumnsAndValuesByFieldValues_run zero s t tab) by done.
    fold names. do 2 f_equal.
    rewrite (oc_rebuild Column_Name (fun a => a)); [by rewrite list_fmap_id|done|done]. }
  split; [done|].
  split; [apply StronglySorted_merge_sort; apply _|].
  split; [done|]. split; [done|].
  split; [|done].
  clear. induction names as [|n r IH]; [done|].
  csimpl. destruct (Columns_F (Table_Columns tab) n); csimpl; by rewrite ?IH.
Qed.

Lemma X24_witness :
  exists (names : list string) (columns : Columns) (args : list nat),
    Table_ColumnsAndValuesByFieldValues 0 0 user_values fields_store
      = Ok (columns, args) fields_store /\
    names ≡ₚ user_values.*1 /\
    StronglySorted String.le names /\
    columns = omap (Columns_F (Table_Columns (table_at fields_store 0))) names /\
    args = omap (fun n => (fun _ => FieldValues_at 0 user_values n)
                            <$> Columns_F (Table_Columns (table_at fields_store 0)) n) names /\
    length columns = length args /\
    oc_wf Column_Name columns.
Proof.
  apply (X24_ColumnsAndValues_align_in_field_order nat 0 fields_store 0
           (table_at fields_store 0) user_values).
  - vm_compute. reflexivity.
  - compute_done.
  - compute_done.
Defined.

(** X25: [AssignmentsByFieldValues] pairs, in the order of the
    iteration, the column of each field of the table with the value
    of that field and skips the other fields; on a table with unique
    column names these are the pairs of the columns and arguments of
    [ColumnsAndValuesByFieldValues], up to their order. *)
Theorem X25_Assignments_pair_the_projected_columns (Value : Type) (zero : Value)
    (s : Store) (t : loc) (tab : Table) (fieldValues : list (string * Value)) :
  s !! t = Some tab ->
  oc_wf Column_Name (Table_Columns tab) ->
  NoDup fieldValues.*1 ->
  exists (assignments : list (Column * Value)) (columns : Columns) (args : list Value),
    Table_AssignmentsByFieldValues t fieldValues s = Ok assignments s /\
    assignments
    = omap (fun e => (fun col => (col, snd e)) <$> Columns_F (Table_Columns tab) (fst e))
        fieldValues /\
    Table_ColumnsAndValuesByFieldValues zero t fieldValues s = Ok (columns, args) s /\
    assignments ≡ₚ zip columns args.
Proof.
  intros Ht Hwf Hnd.
  set (names := sort_Strings fieldValues.*1).
  assert (Hperm : names ≡ₚ fieldValues.*1) by apply merge_sort_Permutation.
  eexists _, _, _.
  split; [by apply Table_AssignmentsByFieldValues_run|].
  split; [done|].
  split; [by apply Table_ColumnsAndValuesByFieldValues_run|].
  fold names.
  rewrite (oc_rebuild Column_Name (fun a => a)); [|done|].
  2:{ simpl. apply projection_wf; [done|]. by rewrite Hperm. }
  rewrite list_fmap_id, app_nil_l.
  rewrite (zip_projection (Columns_F (Table_Columns tab)) (FieldValues_at zero fieldValues)).
  rewrite Hperm.
  rewrite (omap_fst_ext _ _ fieldValues fieldValues); [done|].
  intros [n v] Hin. by apply FieldValues_at_elem.
Qed.

Lemma X25_witness :
  exists (assignments : list (Column * nat)) (columns : Columns) (args : list nat),
    Table_AssignmentsByFieldValues 0 user_values fields_store = Ok assignments fields_store /\
    assignments
    = omap (fun e => (fun col => (col, snd e))
                       <$> Columns_F (Table_Columns (table_at fields_store 0)) (fst e))
        user_values /\
    Table_ColumnsAndValuesByFieldValues 0 0 user_values fields_store
      = Ok (columns, args) fields_store /\
    assignments ≡ₚ zip columns args.
Proof.
  apply (X25_Assignments_pair_the_projected_columns nat 0 fields_store 0
           (table_at fields_store 0) user_values).
  - vm_compute. reflexivity.
  - compute_done.
  - compute_done.
Defined.

(** X26: through a nil table pointer both projections return empty
    results for an empty map, without a panic, and panic for every
    other map, at the first field. *)
Theorem X26_projections_of_nil_panic_unless_empty (Value : Type) (zero : Value)
    (s : Store) (t : loc) (fieldValues : list (string * Value)) :
  s !! t = None ->
  Table_ColumnsAndValuesByFieldValues zero t fieldValues s
  = (if fieldValues is [] then Ok ([], []) s else Panic nil_dereference s) /\
  Table_AssignmentsByFieldValues t fieldValues s
  = (if fieldValues is [] then Ok [] s else Panic nil_dereference s).
Proof.
  intros Ht. split.
  - unfold Table_ColumnsAndValuesByFieldValues.
    rewrite (bind_Ok _ _ s s fieldValues.*1).
    2:{ rewrite (for_range_pure (fun e fieldNames => fieldNames ++ [fst e])) by done.
        by rewrite fold_fieldNames. }
    destruct fieldValues as [|e r]; [done|].
    pose proof (merge_sort_Permutation String.le (e :: r).*1) as Hperm.
    fold (sort_Strings (e :: r).*1) in Hperm.
    destruct (sort_Strings (e :: r).*1) as [|n names].
    + apply Permutation_nil_l in Hperm. done.
    + cbn [for_range]. unfold bind at 1, Table_F, bind, deref. by rewrite Ht.
  - unfold Table_AssignmentsByFieldValues.
    destruct fieldValues as [|[n v] r]; [done|].
    cbn [for_range]. unfold bind at 1, Table_F, bind, deref. by rewrite Ht.
Qed.

Lemma X26_witness :
  Table_ColumnsAndValuesByFieldValues 0 7 user_values fields_store
  = (if user_values is [] then Ok ([], []) fields_store
     else Panic nil_dereference fields_store) /\
  Table_AssignmentsByFieldValues 7 user_values fields_store
  = (if user_values is [] then Ok [] fields_store else Panic nil_dereference fields_store).
Proof.
  apply (X26_projections_of_nil_panic_unless_empty nat 0 fields_store 7 user_values).
  vm_compute. reflexivity.
Defined.
